(** * US_Fire_Tracker: the COG tile renderer (app/lib/cogLayerClient.ts)

    A shallow embedding of the tile-rendering client: tile geometry,
    overview selection, the raster read with its fallback, the two
    colorizers and the request throttle.

    Number model.  JavaScript numbers are binary64 values.  Geographic
    coordinates go through [Math.atan], [Math.sinh] and [Math.PI], so they
    are modelled by the real numbers of the Standard Library (rounding is
    not modelled); pixel estimates are the integers the code builds with
    [Math.ceil]; raster samples are exact rationals extended with the
    special values the code tests for.  The longitudes of a tile only use
    division, multiplication and subtraction: module [Binary64] computes
    them on binary64 values as well, which is where the exact model and
    the code part for large zoom levels.

    Beside the renderer, Part I models the two dashboard components that
    compute bar widths (Leaderboard.tsx, FireCard.tsx) and the backend
    route that serves the rasters (routes/cog.route.js). *)

From Stdlib Require Import ZArith QArith Qround Reals Psatz List String Ascii Bool.
From stdpp Require Import gmap strings list pretty.
From Stdlib Require PrimFloat.

Set Default Proof Using "Type".

(** ** Part I: the model *)

(** *** Comparisons of real numbers as booleans *)

Module Num.

Definition ltb (a b : R) : bool := if Rlt_dec a b then true else false.
Definition leb (a b : R) : bool := if Rle_dec a b then true else false.
Definition gtb (a b : R) : bool := ltb b a.

(** [Math.ceil] on a real. *)
Definition ceil (r : R) : Z := Zceil r.

End Num.

(** *** Helpers: tile index to bounding box, bounding-box intersection *)

Module Geometry.

(** A bounding box is the 4-tuple [[minLon, minLat, maxLon, maxLat]]. *)
Record BBox : Type := mkBBox {
  minLon : R;
  minLat : R;
  maxLon : R;
  maxLat : R
}.

(** [COG_BOUNDS]: the enforced North-America extent. *)
Definition COG_BOUNDS : BBox :=
  mkBBox (-128.38690525209998)%R 22.428354333912164%R
         (-64.05404295852681)%R 52.481560035612816%R.

(** [Math.atan(Math.sinh(Math.PI * (1 - 2 * k / n))) * 180 / Math.PI] *)
Definition tileLat (k n : R) : R :=
  (atan (sinh (PI * (1 - 2 * k / n))) * 180 / PI)%R.

(** [tileToBBox(x, y, z)] *)
Definition tileToBBox (x y z : Z) : BBox :=
  let n := powerRZ 2 z in
  let lonMin := (IZR x / n * 360 - 180)%R in
  let lonMax := ((IZR x + 1) / n * 360 - 180)%R in
  let latMin := tileLat (IZR y + 1) n in
  let latMax := tileLat (IZR y) n in
  mkBBox lonMin latMin lonMax latMax.

(** [bboxesIntersect(a, b)] *)
Definition bboxesIntersect (a b : BBox) : bool :=
  negb (Num.ltb (maxLon a) (minLon b) || Num.gtb (minLon a) (maxLon b)
        || Num.ltb (maxLat a) (minLat b) || Num.gtb (minLat a) (maxLat b)).

(** The GeoBox invariant of the data model. *)
Definition wellFormed (a : BBox) : Prop :=
  (minLon a <= maxLon a)%R /\ (minLat a <= maxLat a)%R.

End Geometry.

(** *** The longitudes of a tile in binary64 *)

Module Binary64.
Import PrimFloat.
Local Open Scope float_scope.

(** A tile index as a binary64 value; every step is exact below [2^53]. *)
Fixpoint ofPos (p : positive) : float :=
  match p with
  | xH => 1
  | xO p' => 2 * ofPos p'
  | xI p' => 2 * ofPos p' + 1
  end.

Definition ofZ (k : Z) : float :=
  match k with
  | Z0 => 0
  | Zpos p => ofPos p
  | Zneg p => - ofPos p
  end.

(** [Math.pow(2, z)] for an integer [z]: a power of two, exact as long as
    it is in range. *)
Definition pow2 (z : Z) : float :=
  match z with
  | Zneg p => Pos.iter (fun f => f / 2) 1 p
  | _ => Z.iter z (fun f => 2 * f) 1
  end.

(** [const lonMin = (x / n) * 360 - 180] *)
Definition tileLonMin (x z : Z) : float := ofZ x / pow2 z * 360 - 180.

(** [const lonMax = ((x + 1) / n) * 360 - 180] *)
Definition tileLonMax (x z : Z) : float := (ofZ x + 1) / pow2 z * 360 - 180.

(** [lonMin < lonMax], for one tile, for the columns [0 .. 2^z - 1] of a
    zoom level, and for the zoom levels [0 .. zmax]. *)
Definition lonStrict (z x : Z) : bool := ltb (tileLonMin x z) (tileLonMax x z).

Definition columnsStrict (z : Z) : bool :=
  forallb (fun x => lonStrict z (Z.of_nat x)) (seq 0 (Z.to_nat (2 ^ z))).

Definition zoomsStrict (zmax : nat) : bool :=
  forallb (fun z => columnsStrict (Z.of_nat z)) (seq 0 (S zmax)).

End Binary64.

Module GeometrySpec.
Import Geometry.


End GeometrySpec.

(** *** JavaScript values held by a raster band *)

Module Js.

(** A number: a finite binary64 value (an exact rational), an infinity or
    NaN. *)
Inductive number : Type :=
  | NaN
  | Inf (negative : bool)
  | Fin (q : Q).

(** An element read from the band, as the no-data test sees it. *)
Inductive sample : Type :=
  | SNull
  | SUndefined
  | SNum (v : number).

Definition Qltb (p q : Q) : bool := negb (Qle_bool q p).

(** [a < b] and [a <= b] on numbers; every comparison with NaN is false. *)
Definition lt (a b : number) : bool :=
  match a, b with
  | NaN, _ | _, NaN => false
  | _, Inf true => false
  | Inf true, _ => true
  | Inf false, _ => false
  | _, Inf false => true
  | Fin p, Fin q => Qltb p q
  end.

Definition le (a b : number) : bool :=
  match a, b with
  | NaN, _ | _, NaN => false
  | Inf true, _ => true
  | _, Inf true => false
  | _, Inf false => true
  | Inf false, _ => false
  | Fin p, Fin q => Qle_bool p q
  end.

(** [ToNumber]: [null] is [0], [undefined] is NaN. *)
Definition toNumber (v : sample) : number :=
  match v with
  | SNull => Fin 0
  | SUndefined => NaN
  | SNum n => n
  end.

(** The global [isNaN(value)]. *)
Definition isNaN (v : sample) : bool :=
  match toNumber v with NaN => true | _ => false end.

(** [Math.round] of a rational: the nearest integer, ties upwards. *)
Definition roundQ (q : Q) : Z := Qfloor (q + (1 # 2)).

Definition round (n : number) : number :=
  match n with
  | Fin q => Fin (inject_Z (roundQ q))
  | other => other
  end.

Section NumberToString.

(** [Number.prototype.toString] prints the shortest decimal digits that
    read back as the same binary64 value.  Up to [2^53] every integer is a
    binary64 value, so these are the decimal digits of the integer.
    Beyond [2^53] the digits depend on the binary64 encoding (zeros fill
    up the integer below [10^21], exponent notation from there on): that
    branch is left to the engine. *)
Variable exponentNotation : Z -> string.

Definition integerToString (n : Z) : string :=
  if (Z.abs n <=? 2 ^ 53)%Z then pretty n
  else exponentNotation n.

(** [toString] of a number that [Math.round] returned. *)
Definition toString (n : number) : string :=
  match n with
  | NaN => "NaN"
  | Inf false => "Infinity"
  | Inf true => "-Infinity"
  | Fin q => integerToString (Qfloor q)
  end.

End NumberToString.

End Js.

(** *** Throttle implementation *)

Module Throttle.

(** Concurrency. *)
Definition MAX_CONCURRENT : Z := 6.

(** Where one call [throttle(fn)] stands.  The function is async: it runs
    without interruption between two [await]s and other calls take their
    turns at each [await]. *)
Inductive Phase : Type :=
  | Idle                  (* not called yet *)
  | Waiting               (* at [await new Promise(...)], resolver queued *)
  | Woken                 (* resolver called, continuation not run yet *)
  | Running               (* past [activeRequests++], at [await fn()] *)
  | Finished (ok : bool). (* [finally] done; [fn] fulfilled or rejected *)

(** The module state [activeRequests] and [pendingQueue] (a resolver is
    named by the call that pushed it), the phase of every call, and how
    many times each call has executed [activeRequests--]. *)
Record Gate : Type := mkGate {
  activeRequests : Z;
  pendingQueue : list nat;
  phases : gmap nat Phase;
  releases : gmap nat nat
}.

Definition phaseOf (g : Gate) (j : nat) : Phase := default Idle (phases g !! j).
Definition releasesOf (g : Gate) (j : nat) : nat := default 0%nat (releases g !! j).

Definition initial : Gate := mkGate 0 [] ∅ ∅.

(** The turns of the scheduler. *)
Inductive Turn : Type :=
  | Call (j : nat)               (* [throttle(fn)] is called *)
  | Resume (j : nat)             (* the continuation of a woken call runs *)
  | Settle (j : nat) (ok : bool). (* [fn()] settles and [finally] runs *)

(** From the call to the first [await]:
    [if (activeRequests >= MAX_CONCURRENT) await new Promise(res => pendingQueue.push(res));
     activeRequests++; ... await fn()]. *)
Definition call (j : nat) (g : Gate) : Gate :=
  if (activeRequests g >=? MAX_CONCURRENT)%Z then
    mkGate (activeRequests g) (pendingQueue g ++ [j])
           (<[j := Waiting]> (phases g)) (releases g)
  else
    mkGate (activeRequests g + 1) (pendingQueue g)
           (<[j := Running]> (phases g)) (releases g).

(** After the wait: [activeRequests++; ... await fn()]. *)
Definition resume (j : nat) (g : Gate) : Gate :=
  mkGate (activeRequests g + 1) (pendingQueue g)
         (<[j := Running]> (phases g)) (releases g).

(** The [finally] block:
    [activeRequests--; const next = pendingQueue.shift(); if (next) next();]. *)
Definition settle (j : nat) (ok : bool) (g : Gate) : Gate :=
  let phases' := <[j := Finished ok]> (phases g) in
  let releases' := <[j := S (releasesOf g j)]> (releases g) in
  match pendingQueue g with
  | [] => mkGate (activeRequests g - 1) [] phases' releases'
  | next :: rest =>
      mkGate (activeRequests g - 1) rest (<[next := Woken]> phases') releases'
  end.

(** A turn is enabled only in the matching phase. *)
Definition step (g : Gate) (t : Turn) : option Gate :=
  match t with
  | Call j =>
      match phaseOf g j with Idle => Some (call j g) | _ => None end
  | Resume j =>
      match phaseOf g j with Woken => Some (resume j g) | _ => None end
  | Settle j ok =>
      match phaseOf g j with Running => Some (settle j ok g) | _ => None end
  end.

Fixpoint run (g : Gate) (ts : list Turn) : option Gate :=
  match ts with
  | [] => Some g
  | t :: rest =>
      match step g t with
      | Some g' => run g' rest
      | None => None
      end
  end.

(** The states some schedule reaches. *)
Definition reachable (g : Gate) : Prop := exists ts, run initial ts = Some g.

(** A call is admitted once it has passed [activeRequests++]. *)
Definition admitted (g : Gate) (j : nat) : bool :=
  match phaseOf g j with
  | Running | Finished _ => true
  | _ => false
  end.

(** Seven calls, the first one settles and wakes the seventh, an eighth
    call arrives before the seventh resumes. *)
Definition overAdmission : list Turn :=
  [Call 1; Call 2; Call 3; Call 4; Call 5; Call 6; Call 7;
   Settle 1 true; Call 8; Resume 7]%nat.

(** A schedule in which a woken call always resumes before the next call
    enters: no [Call] turn while some call is [Woken]. *)
Definition noneWoken (g : Gate) : Prop :=
  forall j, phaseOf g j <> Woken.

Inductive runEager : Gate -> list Turn -> Gate -> Prop :=
  | eager_nil g : runEager g [] g
  | eager_call g j g' ts g'' :
      noneWoken g -> step g (Call j) = Some g' ->
      runEager g' ts g'' -> runEager g (Call j :: ts) g''
  | eager_resume g j g' ts g'' :
      step g (Resume j) = Some g' ->
      runEager g' ts g'' -> runEager g (Resume j :: ts) g''
  | eager_settle g j ok g' ts g'' :
      step g (Settle j ok) = Some g' ->
      runEager g' ts g'' -> runEager g (Settle j ok :: ts) g''.

(** The bookkeeping invariant: queued resolvers belong to distinct waiting
    calls, and a call has decremented the counter once if it is finished
    and never otherwise. *)
Record Inv (g : Gate) : Prop := mkInv {
  inv_queue : forall j, j ∈ pendingQueue g -> phaseOf g j = Waiting;
  inv_nodup : NoDup (pendingQueue g);
  inv_release : forall j,
    releasesOf g j = match phaseOf g j with Finished _ => 1%nat | _ => 0%nat end
}.

(** When every woken call resumes before the next call enters, the woken
    calls hold the slots freed for them and the bound is kept. *)
Record EagerInv (g : Gate) : Prop := mkEagerInv {
  eager_inv : Inv g;
  eager_woken : exists ws : list nat,
    NoDup ws /\
    (forall j, j ∈ ws <-> phaseOf g j = Woken) /\
    (activeRequests g + Z.of_nat (length ws) <= MAX_CONCURRENT)%Z
}.

End Throttle.

(** *** Color maps and legend *)

Module Colorizer.
Import Js.

Inductive CogLayerName : Type := fuel | slope.

Record ColorMapEntry : Type := mkEntry {
  label : string;
  color : string
}.

Definition RGB : Type := (Z * Z * Z)%type.

(** [SLOPE_COLORMAP] *)
Definition SLOPE_COLORMAP : list (Q * string) :=
  [ (0, "#f7fcf5"); (5, "#e5f5e0"); (10, "#c7e9c0"); (15, "#a1d99b");
    (20, "#74c476"); (25, "#41ab5d"); (30, "#238b45"); (35, "#006d2c");
    (40, "#00441b") ]%Q%string.

(** The legend [fetchFuelLegend] falls back to when the request fails. *)
Definition defaultFuelLegend : gmap string ColorMapEntry :=
  <["1" := mkEntry "Type 1" "#f7fcb9"]>
  (<["2" := mkEntry "Type 2" "#addd8e"]>
  (<["3" := mkEntry "Type 3" "#78c679"]> ∅)).

(** One character of the class [[a-f\d]] under the [i] flag, with its
    value in base 16. *)
Definition hexDigit (c : ascii) : option Z :=
  let n := Z.of_N (N_of_ascii c) in
  if ((48 <=? n) && (n <=? 57))%Z then Some (n - 48)%Z
  else if ((97 <=? n) && (n <=? 102))%Z then Some (n - 87)%Z
  else if ((65 <=? n) && (n <=? 70))%Z then Some (n - 55)%Z
  else None.

(** [parseInt(pair, 16)] on a captured pair of hex digits. *)
Definition hexPair (c1 c2 : ascii) : option Z :=
  match hexDigit c1, hexDigit c2 with
  | Some h, Some l => Some (16 * h + l)%Z
  | _, _ => None
  end.

(** The regular expression [/^#?([a-f\d]{2})([a-f\d]{2})([a-f\d]{2})$/i]:
    an optional [#], then exactly six hex digits. *)
Definition matchHex (hex : string) : option RGB :=
  let body :=
    match hex with
    | String "#" rest => rest
    | _ => hex
    end in
  match body with
  | String r1 (String r2 (String g1 (String g2 (String b1 (String b2 EmptyString))))) =>
      match hexPair r1 r2, hexPair g1 g2, hexPair b1 b2 with
      | Some r, Some g, Some b => Some (r, g, b)
      | _, _, _ => None
      end
  | _ => None
  end.

(** [hexToRgb(hex)] *)
Definition hexToRgb (hex : string) : RGB :=
  match matchHex hex with
  | Some rgb => rgb
  | None => (200, 200, 200)%Z
  end.

(** One channel of the interpolation:
    [Math.round(c1 + (c2 - c1) * t)], on the exact value; the code rounds
    the sum to binary64 first, which can move the channel by 1 at a tie. *)
Definition lerp (c1 c2 : Z) (t : Q) : Z :=
  roundQ (inject_Z c1 + (inject_Z c2 - inject_Z c1) * t).

(** The [for] loop of [getSlopeColor] over consecutive stops.  A stop is
    finite, so the bracket test can only hold for a finite value. *)
Fixpoint slopeScan (value : number) (stops : list (Q * string)) : option RGB :=
  match stops with
  | (v1, c1) :: ((v2, c2) :: _) as rest =>
      if le (Fin v1) value && le value (Fin v2) then
        match value with
        | Fin q =>
            let t := ((q - v1) / (v2 - v1))%Q in
            let '(r1, g1, b1) := hexToRgb c1 in
            let '(r2, g2, b2) := hexToRgb c2 in
            Some (lerp r1 r2 t, lerp g1 g2 t, lerp b1 b2 t)
        | _ => slopeScan value rest
        end
      else slopeScan value rest
  | _ => None
  end.

(** [getSlopeColor(value)] *)
Definition getSlopeColor (value : number) : RGB :=
  match slopeScan value SLOPE_COLORMAP with
  | Some rgb => rgb
  | None =>
      match SLOPE_COLORMAP with
      | [] => (200, 200, 200)%Z
      | (v0, c0) :: _ =>
          if lt value (Fin v0) then hexToRgb c0
          else hexToRgb (snd (List.last SLOPE_COLORMAP (v0, c0)))
      end
  end.

(** The no-data test at the top of the pixel loop:
    [value === null || value === undefined || isNaN(value) || value < 0]. *)
Definition noData (value : sample) : bool :=
  match value with
  | SNull => true
  | SUndefined => true
  | _ => isNaN value || lt (toNumber value) (Fin 0)
  end.

Section Pixel.

Variable exponentNotation : Z -> string.

(** The categorical branch:
    [key = Math.round(value).toString(); entry = fuelLegend?.[key];
     rgb = entry ? hexToRgb(entry.color) : [200, 200, 200]]. *)
Definition fuelKey (value : number) : string :=
  toString exponentNotation (round value).

Definition getFuelColor (fuelLegend : option (gmap string ColorMapEntry))
    (value : number) : RGB :=
  match fuelLegend ≫= (fun legend => legend !! fuelKey value) with
  | Some entry => hexToRgb (color entry)
  | None => (200, 200, 200)%Z
  end.

(** The body of the pixel loop: the four bytes written at [i * 4]. *)
Definition pixelBytes (layerName : CogLayerName)
    (fuelLegend : option (gmap string ColorMapEntry))
    (value : sample) : Z * Z * Z * Z :=
  if noData value then (0, 0, 0, 0)%Z
  else
    let '(r, g, b) :=
      match layerName with
      | slope => getSlopeColor (toNumber value)
      | fuel => getFuelColor fuelLegend (toNumber value)
      end in
    (r, g, b, 255%Z).

End Pixel.

(** What the no-data test accepts: [null], [undefined], NaN and the
    negative numbers. *)
Inductive NoData : sample -> Prop :=
  | NoData_null : NoData SNull
  | NoData_undefined : NoData SUndefined
  | NoData_NaN : NoData (SNum NaN)
  | NoData_negative q : (q < 0)%Q -> NoData (SNum (Fin q))
  | NoData_neg_infinity : NoData (SNum (Inf true)).

End Colorizer.

(** *** What a hex colour denotes *)

Module HexSpec.
Import Colorizer.





End HexSpec.

(** *** The tile renderer *)

Module Pipeline.
Import Geometry Js Colorizer.

(** Source pixel safety thresholds. *)
Definition SAFE_SOURCE_PIXELS : Z := 4000000.
Definition HARD_LIMIT_SOURCE_PIXELS : Z := 50000000.

(** **** What the collaborators hand back *)

(** The georeference tags of a file directory: a tiepoint
    [(I, J, K, X, Y, Z)] and a pixel scale [(ScaleX, ScaleY, ScaleZ)]. *)
Record FileDirectory : Type := mkFileDirectory {
  ModelTiepoint : option (R * R * R * R * R * R);
  ModelTiepointTag : option (R * R * R * R * R * R);
  ModelPixelScale : option (R * R * R);
  ModelPixelScaleTag : option (R * R * R)
}.

(** One image of the GeoTIFF (the primary image or an overview).
    [getBoundingBox] is [None] when the call throws. *)
Record Image : Type := mkImage {
  getWidth : Z;
  getHeight : Z;
  getBoundingBox : option BBox;
  fileDirectory : FileDirectory
}.

(** The opened file: image 0 is the full resolution, higher indices are
    coarser overviews. *)
Record Tiff : Type := mkTiff {
  images : list Image
}.

(** What [readRasters] resolves to: an array of bands, or one typed array. *)
Inductive Rasters : Type :=
  | BandArray (bands : list (list sample))
  | TypedArray (band : list sample).

Inductive Error : Type :=
  | OpenFailed                 (* fromUrl rejected *)
  | ImageIndexError (i : Z)    (* getImage(i) rejected *)
  | NoGeoreference             (* "No georeference information" *)
  | ReadFailed (call : nat)    (* readRasters rejected, on its n-th call *)
  | BandUndefined              (* TypeError: rasters[0] is undefined *)
  | NoCanvasContext            (* "Cannot get canvas context" *)
  | IndexSizeError.            (* createImageData(0, 0) *)

(** The environment of one render: the network, the canvas and the engine. *)
Record Env : Type := mkEnv {
  fromUrl : string -> option Tiff;
  (** the reply to the n-th [readRasters] call, made on image [level] *)
  readRasters : nat -> Z -> option Rasters;
  (** whether [canvas.getContext("2d")] returns a context *)
  getContext2d : bool;
  (** the body of [/api/cog/fuel-legend], [None] when the fetch fails *)
  legendResponse : option (gmap string ColorMapEntry);
  exponentNotation : Z -> string
}.

Record Canvas : Type := mkCanvas {
  width : nat;
  height : nat
}.

(** **** Observable effects *)

Inductive LogLevel : Type := Log | Warn | Err.

(** The console messages, by call site, with the numbers they print. *)
Inductive Message : Type :=
  | MsgRendering (layerName : CogLayerName) (z x y : Z) (tileBounds : BBox)
  | MsgNoGeoreference
  | MsgOverview (i : Z) (pix : Z)
  | MsgTooCoarse (chosenPixels : Z)
  | MsgGdaladdoHint
  | MsgHardLimitFallback (chosenPixels : Z) (index : Z)
  | MsgUsingOverview (chosenIndex z chosenPixels : Z)
  | MsgReadFailed (chosenIndex : Z) (err : Error)
  | MsgFallbackSucceeded (index : Z)
  | MsgFallbackFailed (err : Error)
  | MsgLegendError
  | MsgThrottledError (err : Error).

Inductive Event : Type :=
  | EvFromUrl (url : string)
  | EvGetImageCount
  | EvGetImage (i : Z)
  | EvReadRasters (level : Z) (bbox : BBox) (w h : nat)
  | EvFetch (url : string)
  | EvClearRect (w h : nat)
  | EvPutImageData (data : list Z)
  | EvConsole (level : LogLevel) (msg : Message)
  | EvDone (err : option Error).

(** What the canvas shows. *)
Inductive Surface : Type :=
  | Transparent
  | Painted (data : list Z).

Record State : Type := mkState {
  trace : list Event;
  fuelLegendCache : option (gmap string ColorMapEntry);
  surface : Surface
}.

(** **** A monad for the body of the async function

    A computation ends with a value, with the [return] of the enclosing
    function, or with a thrown error. *)

Inductive Outcome (A : Type) : Type :=
  | Value (a : A)
  | Returned
  | Thrown (e : Error).
Arguments Value {A} a.
Arguments Returned {A}.
Arguments Thrown {A} e.

Definition M (A : Type) : Type := State -> State * Outcome A.

Definition ret {A} (a : A) : M A := fun s => (s, Value a).

Definition bind {A B} (m : M A) (k : A -> M B) : M B :=
  fun s =>
    match m s with
    | (s', Value a) => k a s'
    | (s', Returned) => (s', Returned)
    | (s', Thrown e) => (s', Thrown e)
    end.

Definition return_ {A} : M A := fun s => (s, Returned).
Definition throw {A} (e : Error) : M A := fun s => (s, Thrown e).

Definition tryCatch {A} (m : M A) (handler : Error -> M A) : M A :=
  fun s =>
    match m s with
    | (s', Thrown e) => handler e s'
    | other => other
    end.

Notation "x <- m ;; k" := (bind m (fun x => k))
  (at level 100, m at next level, right associativity).
Notation "m ;; k" := (bind m (fun _ => k))
  (at level 100, right associativity).

Definition emit (ev : Event) : M unit :=
  fun s => (mkState (trace s ++ [ev]) (fuelLegendCache s) (surface s), Value tt).

Definition setSurface (f : Surface) : M unit :=
  fun s => (mkState (trace s) (fuelLegendCache s) f, Value tt).

Definition setLegendCache (l : gmap string ColorMapEntry) : M unit :=
  fun s => (mkState (trace s) (Some l) (surface s), Value tt).

Definition getLegendCache : M (option (gmap string ColorMapEntry)) :=
  fun s => (s, Value (fuelLegendCache s)).

Definition console (level : LogLevel) (msg : Message) : M unit :=
  emit (EvConsole level msg).

(** [done(err, canvas)] *)
Definition done (err : option Error) : M unit := emit (EvDone err).

Definition isRead (ev : Event) : bool :=
  match ev with EvReadRasters _ _ _ _ => true | _ => false end.

(** Events that reach the network or the decoder. *)
Definition isNetwork (ev : Event) : bool :=
  match ev with
  | EvFromUrl _ | EvGetImageCount | EvGetImage _
  | EvReadRasters _ _ _ _ | EvFetch _ => true
  | _ => false
  end.

(** **** Calls to the collaborators *)

Section Render.

Variable env : Env.

Definition openTiff (url : string) : M Tiff :=
  emit (EvFromUrl url) ;;
  match fromUrl env url with
  | Some tiff => ret tiff
  | None => throw OpenFailed
  end.

Definition getImageCount (tiff : Tiff) : M Z :=
  emit EvGetImageCount ;; ret (Z.of_nat (length (images tiff))).

Definition getImage (tiff : Tiff) (i : Z) : M Image :=
  emit (EvGetImage i) ;;
  if (i <? 0)%Z then throw (ImageIndexError i)
  else match images tiff !! Z.to_nat i with
       | Some img => ret img
       | None => throw (ImageIndexError i)
       end.

(** [image.readRasters({ bbox, width, height })] on the image at [level]. *)
Definition readRastersOf (level : Z) (bbox : BBox) (w h : nat) : M Rasters :=
  fun s =>
    let call := length (filter (fun ev => isRead ev = true) (trace s)) in
    match emit (EvReadRasters level bbox w h) s with
    | (s', _) =>
        match readRasters env call level with
        | Some r => (s', Value r)
        | None => (s', Thrown (ReadFailed call))
        end
    end.

(** [const ctx = canvas.getContext("2d");
     if (ctx) ctx.clearRect(0, 0, canvas.width, canvas.height);] *)
Definition clearCanvas (canvas : Canvas) : M unit :=
  if getContext2d env then
    emit (EvClearRect (width canvas) (height canvas)) ;; setSurface Transparent
  else ret tt.

(** [fetchFuelLegend()] *)
Definition fetchFuelLegend : M (gmap string ColorMapEntry) :=
  cache <- getLegendCache ;;
  match cache with
  | Some legend => ret legend
  | None =>
      emit (EvFetch "/api/cog/fuel-legend") ;;
      match legendResponse env with
      | Some legend => setLegendCache legend ;; ret legend
      | None => console Err MsgLegendError ;; ret defaultFuelLegend
      end
  end.

(** **** The steps of [renderCogTile] *)

Definition orElse {A} (a b : option A) : option A :=
  match a with Some _ => a | None => b end.

(** The bounding box of the primary image: [getBoundingBox()], or the
    tiepoint and pixel scale when it throws. *)
Definition imageBBox (baseImage : Image) : option BBox :=
  match getBoundingBox baseImage with
  | Some b => Some b
  | None =>
      let fd := fileDirectory baseImage in
      match orElse (ModelTiepoint fd) (ModelTiepointTag fd),
            orElse (ModelPixelScale fd) (ModelPixelScaleTag fd) with
      | Some (_, _, _, tieX, tieY, _), Some (scaleX, scaleY, _) =>
          let w := IZR (getWidth baseImage) in
          let h := IZR (getHeight baseImage) in
          Some (mkBBox tieX (tieY - scaleY * h) (tieX + scaleX * w) tieY)%R
      | _, _ => None
      end
  end.

(** [computeSourcePixels(img)].  The quotients and products are exact
    here; the code rounds each to binary64 before [Math.ceil], which can
    move the estimate where the exact value is an integer. *)
Definition computeSourcePixels (tileBounds imgBbox : BBox) (img : Image) : Z :=
  let imgW := IZR (getWidth img) in
  let imgH := IZR (getHeight img) in
  let imgWidthDeg := (maxLon imgBbox - minLon imgBbox)%R in
  let imgHeightDeg := (maxLat imgBbox - minLat imgBbox)%R in
  let clampedMinX := Rmax (minLon tileBounds) (minLon imgBbox) in
  let clampedMaxX := Rmin (maxLon tileBounds) (maxLon imgBbox) in
  let clampedMinY := Rmax (minLat tileBounds) (minLat imgBbox) in
  let clampedMaxY := Rmin (maxLat tileBounds) (maxLat imgBbox) in
  if Num.leb clampedMaxX clampedMinX || Num.leb clampedMaxY clampedMinY then 0%Z
  else
    let pxW := Num.ceil ((clampedMaxX - clampedMinX) / imgWidthDeg * imgW) in
    let pxH := Num.ceil ((clampedMaxY - clampedMinY) / imgHeightDeg * imgH) in
    (pxW * pxH)%Z.

Record Choice : Type := mkChoice {
  chosenIndex : Z;
  chosenImage : Image;
  chosenPixels : Z
}.

(** The loop [for (let i = n - 1; i >= 0; i--)] over the overviews; it
    breaks at the first image whose estimate is zero or within
    [SAFE_SOURCE_PIXELS], and otherwise leaves the choice as it was. *)
Fixpoint scanOverviews (tiff : Tiff) (tileBounds imgBbox : BBox)
    (n : nat) (current : Choice) : M Choice :=
  match n with
  | O => ret current
  | S n' =>
      let i := Z.of_nat n' in
      img <- getImage tiff i ;;
      let pix := computeSourcePixels tileBounds imgBbox img in
      console Log (MsgOverview i pix) ;;
      if (pix =? 0)%Z then ret (mkChoice i img pix)
      else if (pix <=? SAFE_SOURCE_PIXELS)%Z then ret (mkChoice i img pix)
      else scanOverviews tiff tileBounds imgBbox n' current
  end.

(** "Choose overview safely": start from the smallest (highest index)
    overview and scan for the first with acceptable source pixels. *)
Definition selectOverview (tiff : Tiff) (imageCount : Z)
    (tileBounds imgBbox : BBox) : M Choice :=
  first <- getImage tiff (imageCount - 1) ;;
  scanOverviews tiff tileBounds imgBbox (Z.to_nat imageCount)
    (mkChoice (imageCount - 1) first
       (computeSourcePixels tileBounds imgBbox first)).

(** The selection followed by the hard limit, which aborts the tile for
    slope and goes back to the smallest overview otherwise. *)
Definition chooseOverview (layerName : CogLayerName) (canvas : Canvas)
    (tiff : Tiff) (imageCount : Z) (tileBounds imgBbox : BBox) : M Choice :=
  choice <- selectOverview tiff imageCount tileBounds imgBbox ;;
  if (chosenPixels choice >? HARD_LIMIT_SOURCE_PIXELS)%Z then
    match layerName with
    | slope =>
        console Err (MsgTooCoarse (chosenPixels choice)) ;;
        console Err MsgGdaladdoHint ;;
        clearCanvas canvas ;;
        done None ;;
        return_
    | fuel =>
        console Warn (MsgHardLimitFallback (chosenPixels choice) (imageCount - 1)) ;;
        smallest <- getImage tiff (imageCount - 1) ;;
        ret (mkChoice (imageCount - 1) smallest
               (computeSourcePixels tileBounds imgBbox smallest))
    end
  else ret choice.

(** "Read rasters from chosen overview by bbox": the read, and on failure
    one more read on the smallest overview. *)
Definition readChosen (canvas : Canvas) (tiff : Tiff) (imageCount : Z)
    (imgBbox : BBox) (choice : Choice) : M Rasters :=
  let tileSize := width canvas in
  tryCatch
    (readRastersOf (chosenIndex choice) imgBbox tileSize tileSize)
    (fun err =>
       console Warn (MsgReadFailed (chosenIndex choice) err) ;;
       tryCatch
         (fallback <- getImage tiff (imageCount - 1) ;;
          rasters <- readRastersOf (imageCount - 1) imgBbox tileSize tileSize ;;
          console Warn (MsgFallbackSucceeded (imageCount - 1)) ;;
          ret rasters)
         (fun err2 =>
            console Err (MsgFallbackFailed err2) ;;
            done (Some err2) ;;
            return_)).

(** A store into the [Uint8ClampedArray]: clamped to a byte, ignored
    outside the array. *)
Definition clamp8 (v : Z) : Z := Z.max 0 (Z.min 255 v).

Definition store (data : list Z) (i : nat) (v : Z) : list Z :=
  <[i := clamp8 v]> data.

(** The pixel loop [for (let i = 0; i < band.length; i++)], from index [i]. *)
Fixpoint paint (layerName : CogLayerName)
    (fuelLegend : option (gmap string ColorMapEntry))
    (band : list sample) (i : nat) (data : list Z) : list Z :=
  match band with
  | [] => data
  | value :: rest =>
      let '(r, g, b, a) :=
        pixelBytes (exponentNotation env) layerName fuelLegend value in
      let data := store data (i * 4) r in
      let data := store data (i * 4 + 1) g in
      let data := store data (i * 4 + 2) b in
      let data := store data (i * 4 + 3) a in
      paint layerName fuelLegend rest (S i) data
  end.

(** [ctx.createImageData(tileSize, tileSize)]: transparent black. *)
Definition createImageData (tileSize : nat) : M (list Z) :=
  if (tileSize =? 0)%nat then throw IndexSizeError
  else ret (replicate (tileSize * tileSize * 4) 0%Z).

(** From the band to the canvas. *)
Definition colorize (layerName : CogLayerName) (canvas : Canvas)
    (rasters : Rasters) : M unit :=
  let tileSize := width canvas in
  (* [Array.isArray(rasters) ? rasters[0] : rasters] *)
  let band := match rasters with
              | BandArray bands => head bands
              | TypedArray b => Some b
              end in
  if negb (getContext2d env) then
    done (Some NoCanvasContext) ;; return_
  else
    data <- createImageData tileSize ;;
    fuelLegend <- match layerName with
                  | fuel => legend <- fetchFuelLegend ;; ret (Some legend)
                  | slope => ret None
                  end ;;
    match band with
    | None => throw BandUndefined   (* [band.length] of [undefined] *)
    | Some band =>
        let data := paint layerName fuelLegend band 0 data in
        emit (EvPutImageData data) ;;
        setSurface (Painted data) ;;
        done None
    end.

(** The function passed to [throttle] in [renderCogTile]. *)
Definition renderBody (cogUrl : string) (layerName : CogLayerName)
    (x y z : Z) (canvas : Canvas) : M unit :=
  let tileBounds := tileToBBox x y z in
  if negb (bboxesIntersect tileBounds COG_BOUNDS) then
    clearCanvas canvas ;; done None ;; return_
  else
    console Log (MsgRendering layerName z x y tileBounds) ;;
    tiff <- openTiff cogUrl ;;
    imageCount <- getImageCount tiff ;;
    baseImage <- getImage tiff 0 ;;
    match imageBBox baseImage with
    | None =>
        console Err MsgNoGeoreference ;;
        done (Some NoGeoreference) ;;
        return_
    | Some imgBbox =>
        if negb (bboxesIntersect tileBounds imgBbox) then
          clearCanvas canvas ;; done None ;; return_
        else
          choice <- chooseOverview layerName canvas tiff imageCount
                      tileBounds imgBbox ;;
          console Log (MsgUsingOverview (chosenIndex choice) z (chosenPixels choice)) ;;
          rasters <- readChosen canvas tiff imageCount imgBbox choice ;;
          colorize layerName canvas rasters
    end.

(** [renderCogTile(cogUrl, layerName, coords, canvas, done)].  [throttle]
    resolves to what the function resolves to and rejects with what it
    throws; the admission protocol itself is the subject of [Throttle]. *)
Definition renderCogTile (cogUrl : string) (layerName : CogLayerName)
    (x y z : Z) (canvas : Canvas) : M unit :=
  tryCatch
    (renderBody cogUrl layerName x y z canvas)
    (fun err =>
       console Err (MsgThrottledError err) ;;
       done (Some err)).

Definition layerUrl (layerName : CogLayerName) : string :=
  match layerName with
  | fuel => "/api/cog/fuel"
  | slope => "/api/cog/slope"
  end.

(** [createTile(coords, done)] of the grid layer: a new canvas of the
    layer's tile size (256), handed to [renderCogTile]. *)
Definition createTile (layerName : CogLayerName) (x y z : Z) : M unit :=
  let tile := mkCanvas 256 256 in
  setSurface Transparent ;;
  renderCogTile (layerUrl layerName) layerName x y z tile.

End Render.

(** The events a run adds, and what it delivers through [done]. *)
Definition deliveries (t : list Event) : list (option Error) :=
  omap (fun ev => match ev with EvDone err => Some err | _ => None end) t.

Definition reads (t : list Event) : list Event :=
  filter (fun ev => isRead ev = true) t.

Definition initialState : State := mkState [] None Transparent.

End Pipeline.

(** *** Vocabulary for the properties of the renderer *)

Module PipelineSpec.
Import Geometry Js Colorizer Pipeline.

(** The state [s] after the events [evs]. *)
Definition after (s : State) (evs : list Event) : State :=
  mkState (trace s ++ evs) (fuelLegendCache s) (surface s).

(** The two tests that end the scan. *)
Definition fitsBudget (pix : Z) : bool :=
  (pix =? 0)%Z || (pix <=? SAFE_SOURCE_PIXELS)%Z.

(** The events of the scan over the images [n - 1, ..., 0], and the
    choice it ends with. *)
Fixpoint scanEvents (imgs : list Image) (tileBounds imgBbox : BBox)
    (n : nat) : list Event :=
  match n with
  | O => []
  | S n' =>
      match imgs !! n' with
      | None => [EvGetImage (Z.of_nat n')]
      | Some img =>
          let pix := computeSourcePixels tileBounds imgBbox img in
          EvGetImage (Z.of_nat n')
          :: EvConsole Log (MsgOverview (Z.of_nat n') pix)
          :: (if fitsBudget pix then [] else scanEvents imgs tileBounds imgBbox n')
      end
  end.

Fixpoint scanChoice (imgs : list Image) (tileBounds imgBbox : BBox)
    (n : nat) (current : Choice) : Choice :=
  match n with
  | O => current
  | S n' =>
      match imgs !! n' with
      | None => current
      | Some img =>
          let pix := computeSourcePixels tileBounds imgBbox img in
          if fitsBudget pix then mkChoice (Z.of_nat n') img pix
          else scanChoice imgs tileBounds imgBbox n' current
      end
  end.

(** The indices handed to [getImage], in order. *)
Definition examined (t : list Event) : list Z :=
  omap (fun ev => match ev with EvGetImage i => Some i | _ => None end) t.

(** The indices [hi - 1, hi - 2, ..., lo]. *)
Definition downFrom (hi lo : nat) : list Z :=
  map Z.of_nat (rev (seq lo (hi - lo))).

(** The state after [clearCanvas]. *)
Definition cleared (env : Env) (canvas : Canvas) (s : State) : State :=
  if getContext2d env then
    mkState (trace s ++ [EvClearRect (width canvas) (height canvas)])
            (fuelLegendCache s) Transparent
  else s.

(** What [clearCanvas] adds to the trace. *)
Definition clearEvents (env : Env) (canvas : Canvas) : list Event :=
  if getContext2d env then [EvClearRect (width canvas) (height canvas)] else [].

(** The events from the start of the function to the primary image. *)
Definition openEvents (cogUrl : string) (layerName : CogLayerName)
    (x y z : Z) : list Event :=
  [ EvConsole Log (MsgRendering layerName z x y (tileToBBox x y z));
    EvFromUrl cogUrl; EvGetImageCount; EvGetImage 0 ].

(** A computation that only appends events satisfying [P] to the trace. *)
Definition appends {A} (P : Event -> Prop) (m : M A) : Prop :=
  forall s, exists evs, trace (fst (m s)) = trace s ++ evs /\ Forall P evs.

Definition notRead (ev : Event) : Prop := isRead ev = false.

End PipelineSpec.

(** *** Sample inputs *)

Module Examples.
Import Geometry Js Colorizer Pipeline.


(** A legend with the single entry ["2"]. *)
Definition legendTwo : gmap string ColorMapEntry :=
  <["2" := mkEntry "Type 2" "#addd8e"]> ∅.

(** A raster over [[-130, 20, -60, 30]], georeferenced by its bounding box. *)
Definition rasterBox : BBox := mkBBox (-130) 20 (-60) 30.

Definition noTags : FileDirectory := mkFileDirectory None None None None.

Definition rasterImage (w h : Z) : Image :=
  mkImage w h (Some rasterBox) noTags.

(** One image only, 70000 by 2000 pixels. *)
Definition coarseTiff : Tiff := mkTiff [rasterImage 70000 2000].

(** A full-resolution image and one overview of 70 by 20 pixels. *)
Definition pyramidTiff : Tiff :=
  mkTiff [rasterImage 7000 2000; rasterImage 70 20].

(** An environment serving [tiff], in which every read answers [reply]. *)
Definition serving (tiff : Tiff) (reply : option Rasters) : Env :=
  mkEnv (fun _ => Some tiff) (fun _ _ => reply) true None (fun _ => ""%string).

Definition aCanvas : Canvas := mkCanvas 256 256.

End Examples.

(** *** The shape of a run *)

Module RunSpec.
Import Pipeline.

(** Nothing delivered yet, and the canvas as it was. *)
Definition pending (s s' : State) (evs : list Event) : Prop :=
  deliveries evs = [] /\ surface s' = surface s.

(** The events end with the one call of [done]; when it reports an error
    the canvas is as it was. *)
Definition finished (s s' : State) (evs : list Event) : Prop :=
  exists pre err,
    evs = pre ++ [EvDone err] /\ deliveries pre = [] /\
    (err = None \/ surface s' = surface s).

(** A computation of shape [(P, r, final)] appends events to the trace, all
    of them satisfying [P] and at most [r] of them reads.  When it ends
    with [return] (and, if [final], when it ends normally) it is
    [finished]; when it throws (and, if not [final], when it ends
    normally) it is [pending]. *)
Definition shaped {A} (P : Event -> Prop) (r : nat) (final : bool)
    (m : M A) : Prop :=
  forall s, exists evs,
    trace (fst (m s)) = trace s ++ evs /\
    Forall P evs /\
    (length (reads evs) <= r)%nat /\
    match snd (m s) with
    | Returned => finished s (fst (m s)) evs
    | Thrown _ => pending s (fst (m s)) evs
    | Value _ =>
        if final then finished s (fst (m s)) evs
        else pending s (fst (m s)) evs
    end.

(** Events other than a fetch. *)
Definition notFetch (ev : Event) : Prop :=
  match ev with EvFetch _ => False | _ => True end.

End RunSpec.


(** *** More sample inputs *)

Module Scenes.
Import Geometry Js Colorizer Pipeline Examples.

(** An environment in which no file can be opened. *)
Definition offline : Env :=
  mkEnv (fun _ => None) (fun _ _ => None) true None (fun _ => ""%string).

(** A raster west of the tile z = 3, x = 2, y = 3. *)
Definition westBox : BBox := mkBBox (-130) 20 (-100) 30.

Definition westTiff : Tiff :=
  mkTiff [mkImage 3000 1000 (Some westBox) noTags].

(** An image without a bounding box and without georeference tags. *)
Definition bareImage : Image := mkImage 100 100 None noTags.

Definition bareTiff : Tiff := mkTiff [bareImage].

End Scenes.

(** *** Vocabulary for the source-pixel estimate *)

Module EstimateSpec.
Import Geometry Pipeline.

(** A box with a positive extent on both axes. *)
Definition proper (b : BBox) : Prop :=
  (minLon b < maxLon b)%R /\ (minLat b < maxLat b)%R.

(** Two boxes that share an area, not only an edge or a corner. *)
Definition overlap (a b : BBox) : Prop :=
  (minLon a < maxLon b /\ minLon b < maxLon a /\
   minLat a < maxLat b /\ minLat b < maxLat a)%R.

(** An image at least as large as [small] in both directions. *)
Definition noSmaller (small img : Image) : Prop :=
  (getWidth small <= getWidth img)%Z /\ (getHeight small <= getHeight img)%Z.

End EstimateSpec.

(** *** Vocabulary for the accounting of the throttle *)

Module ThrottleSpec.
Import Throttle.

#[global] Instance Phase_eq_dec : EqDecision Phase.
Proof. solve_decision. Defined.

(** How many calls of a map of phases are in phase [p]. *)
Definition cnt (p : Phase) (m : gmap nat Phase) : nat :=
  size (filter (fun kv => kv.2 = p) m).

Definition count (p : Phase) (g : Gate) : nat := cnt p (phases g).

(** The accounting invariant: the counter is the number of calls inside
    [fn], the waiting calls are the queued ones, and calls wait only while
    the running and the woken calls fill the gate. *)
Record Acc (g : Gate) : Prop := mkAcc {
  acc_inv : Inv g;
  acc_running : activeRequests g = Z.of_nat (count Running g);
  acc_waiting : forall j, phaseOf g j = Waiting -> j ∈ pendingQueue g;
  acc_full :
    pendingQueue g <> [] ->
    (MAX_CONCURRENT <= activeRequests g + Z.of_nat (count Woken g))%Z
}.

(** [i] stands before [j] in the queue. *)
Definition before (i j : nat) (q : list nat) : Prop :=
  exists q1 q2 q3, q = q1 ++ i :: q2 ++ j :: q3.

(** Either [i] is still queued before [j], or [i] has left the queue. *)
Definition ahead (i j : nat) (g : Gate) : Prop :=
  before i j (pendingQueue g) \/
  (phaseOf g i <> Waiting /\ phaseOf g i <> Idle).

(** Eight calls: six admitted, the seventh and the eighth queued. *)
Definition eightCalls : list Turn :=
  [Call 1; Call 2; Call 3; Call 4; Call 5; Call 6; Call 7; Call 8]%nat.

(** The state after them, and after the first two of them have settled. *)
Definition afterEight : Gate := default initial (run initial eightCalls).

Definition twoSettle : list Turn := [Settle 1 true; Settle 2 false]%nat.

Definition afterWake : Gate := default initial (run afterEight twoSettle).

End ThrottleSpec.

(** *** Vocabulary for the colours *)

Module ColorSpec.
Import Js Colorizer.

(** A value a [Uint8ClampedArray] stores unchanged. *)
Definition byte (v : Z) : Prop := (0 <= v <= 255)%Z.

Definition bytes (rgb : RGB) : Prop :=
  let '(r, g, b) := rgb in byte r /\ byte g /\ byte b.

End ColorSpec.

(** *** Vocabulary for the tiling *)

Module TilingSpec.
Import Geometry.

(** The point [(lon, lat)] lies in the closed box [b]. *)
Definition contains (b : BBox) (lon lat : R) : Prop :=
  (minLon b <= lon <= maxLon b)%R /\ (minLat b <= lat <= maxLat b)%R.

End TilingSpec.

(** *** The dashboard components (Leaderboard.tsx, FireCard.tsx) *)

Module Leaderboard.
Import Js.

(** An entry of the leaderboard.  The counts arrive as JSON numbers, so
    they are finite. *)
Record LeaderboardEntry : Type := mkLeaderboardEntry {
  state : string;
  count : Q
}.

(** [Math.max] of two finite numbers. *)
Definition max2 (a b : Q) : Q := if Qle_bool a b then b else a.

(** [const max = Math.max(...data.map((d) => d.count), 1)] *)
Definition max (data : list LeaderboardEntry) : Q :=
  fold_right max2 1%Q (map count data).

(** [const pct = Math.round((item.count / max) * 100)], on the exact
    quotient; the code rounds it to binary64 first, which can move the
    percentage by 1 at a tie. *)
Definition pct (data : list LeaderboardEntry) (item : LeaderboardEntry) : Z :=
  roundQ (count item / max data * 100).

(** [const rank = index + 1] *)
Definition rank (index : nat) : nat := index + 1.

(** One row: the rank, the state, the width of the bar in percent and the
    count shown. *)
Definition rows (data : list LeaderboardEntry) : list (nat * string * Z * Q) :=
  imap (fun index item => (rank index, state item, pct data item, count item))
       data.

End Leaderboard.

Module FireCard.
Import Js.

(** The [frp] property: [number | string]. *)
Inductive Frp : Type :=
  | FrpNumber (n : number)
  | FrpText (s : string).

(** [const frpValue = typeof frp === "number" ? frp : 0] *)
Definition frpValue (frp : Frp) : number :=
  match frp with
  | FrpNumber n => n
  | FrpText _ => Fin 0
  end.

(** [getFRPColor(val)] *)
Definition getFRPColor (val : number) : string :=
  if lt val (Fin 20) then "#4caf50"
  else if lt val (Fin 50) then "#ffc107"
  else if lt val (Fin 100) then "#ff9800"
  else "#f44336".

(** [Math.min] of two numbers: NaN when either is NaN. *)
Definition min2 (a b : number) : number :=
  match a, b with
  | NaN, _ | _, NaN => NaN
  | _, _ => if lt a b then a else b
  end.

Definition barColor (frp : Frp) : string := getFRPColor (frpValue frp).

(** [const barWidth = Math.min(frpValue, 100)] *)
Definition barWidth (frp : Frp) : number := min2 (frpValue frp) (Fin 100).

End FireCard.

(** *** The COG file route (backend/src/routes/cog.route.js) *)

Module CogRoute.

Definition code (c : ascii) : Z := Z.of_N (N_of_ascii c).

(** The character class [[a-zA-Z0-9._-]]. *)
Definition safeChar (c : ascii) : bool :=
  let n := code c in
  ((97 <=? n) && (n <=? 122) || (65 <=? n) && (n <=? 90)
   || (48 <=? n) && (n <=? 57)
   || (n =? 46) || (n =? 95) || (n =? 45))%Z.

(** [/^[a-zA-Z0-9._-]+$/.test(rawName)] *)
Definition validName (rawName : string) : bool :=
  match list_ascii_of_string rawName with
  | [] => false
  | chars => forallb safeChar chars
  end.

(** [toLowerCase] on a character of the class. *)
Definition lowerChar (c : ascii) : ascii :=
  let n := code c in
  if ((65 <=? n) && (n <=? 90))%Z then ascii_of_N (N_of_ascii c + 32) else c.

Definition toLowerCase (s : string) : string :=
  string_of_list_ascii (map lowerChar (list_ascii_of_string s)).

Fixpoint isPrefix (p l : list ascii) : bool :=
  match p, l with
  | [], _ => true
  | a :: p', b :: l' => Ascii.eqb a b && isPrefix p' l'
  | _ :: _, [] => false
  end.

(** [s.endsWith(suffix)] *)
Definition endsWith (s suffix : string) : bool :=
  isPrefix (rev (list_ascii_of_string suffix)) (rev (list_ascii_of_string s)).

(** [rawName.toLowerCase().endsWith(".tif") || ....endsWith(".tiff")
      ? rawName : `${rawName}.tif`] *)
Definition isTiffName (name : string) : bool :=
  endsWith (toLowerCase name) ".tif" || endsWith (toLowerCase name) ".tiff".

Definition fileName (rawName : string) : string :=
  if isTiffName rawName then rawName else String.append rawName ".tif".

Inductive Response : Type :=
  | InvalidFilename              (* 400 "Invalid filename" *)
  | InvalidFilePath              (* 400 "Invalid file path" *)
  | NotFound                     (* 404 "COG file not found" *)
  | SendFile (filePath : string).

Section Handler.

(** The directory and the file system the route runs against. *)
Variable COG_DIR : string.
Variable resolve : string -> string -> string.
Variable existsSync : string -> bool.

Definition startsWith (s p : string) : bool :=
  isPrefix (list_ascii_of_string p) (list_ascii_of_string s).

(** [router.get("/:name", ...)], up to the call of [res.sendFile]. *)
Definition handler (rawName : string) : Response :=
  if negb (validName rawName) then InvalidFilename
  else
    let filePath := resolve COG_DIR (fileName rawName) in
    if negb (startsWith filePath COG_DIR) then InvalidFilePath
    else if negb (existsSync filePath) then NotFound
    else SendFile filePath.

End Handler.

End CogRoute.
(** ** Part II: properties *)

Module NumFacts.
Import Num.

Lemma ltb_true a b : ltb a b = true <-> (a < b)%R.
Proof. unfold ltb. destruct (Rlt_dec a b); split; intros; try done. Qed.

Lemma ltb_false a b : ltb a b = false <-> (b <= a)%R.
Proof.
  unfold ltb. destruct (Rlt_dec a b); split; intros; try done; lra.
Qed.

Lemma leb_true a b : leb a b = true <-> (a <= b)%R.
Proof. unfold leb. destruct (Rle_dec a b); split; intros; try done. Qed.

Lemma leb_false a b : leb a b = false <-> (b < a)%R.
Proof.
  unfold leb. destruct (Rle_dec a b); split; intros; try done; lra.
Qed.

Lemma gtb_true a b : gtb a b = true <-> (b < a)%R.
Proof. apply ltb_true. Qed.

Lemma gtb_false a b : gtb a b = false <-> (a <= b)%R.
Proof. apply ltb_false. Qed.

End NumFacts.

Module GeometryFacts.
Import Num NumFacts Geometry GeometrySpec Examples.

(** The intersection test, read as four inequalities. *)
Lemma bboxesIntersect_true a b :
  bboxesIntersect a b = true <->
  (minLon b <= maxLon a /\ minLon a <= maxLon b /\
   minLat b <= maxLat a /\ minLat a <= maxLat b)%R.
Proof.
  unfold bboxesIntersect.
  rewrite negb_true_iff, !orb_false_iff, !ltb_false, !gtb_false.
  tauto.
Qed.

Lemma bboxesIntersect_false a b :
  bboxesIntersect a b = false <->
  (maxLon a < minLon b \/ maxLon b < minLon a \/
   maxLat a < minLat b \/ maxLat b < minLat a)%R.
Proof.
  unfold bboxesIntersect.
  rewrite negb_false_iff, !orb_true_iff, !ltb_true, !gtb_true.
  tauto.
Qed.

(** Latitude decreases with the row index: [atan], [sinh] and the
    multiplication by [PI] and [180 / PI] are all strictly increasing. *)
Lemma tileLat_decreasing k k' n :
  (0 < n)%R -> (k < k')%R -> (tileLat k' n < tileLat k n)%R.
Proof.
  intros Hn Hk. unfold tileLat.
  pose proof PI_RGT_0 as Hpi.
  assert (Harg : (PI * (1 - 2 * k' / n) < PI * (1 - 2 * k / n))%R).
  { apply Rmult_lt_compat_l; [exact Hpi|].
    assert ((k / n < k' / n)%R).
    { apply Rmult_lt_compat_r; [apply Rinv_0_lt_compat; exact Hn | exact Hk]. }
    unfold Rdiv in *. lra. }
  apply sinh_lt, atan_increasing in Harg.
  unfold Rdiv. apply Rmult_lt_compat_r.
  - apply Rinv_0_lt_compat; exact Hpi.
  - lra.
Qed.

Lemma tileLon_increasing (x n : R) :
  (0 < n)%R -> (x / n * 360 - 180 < (x + 1) / n * 360 - 180)%R.
Proof.
  intros Hn.
  assert ((x / n < (x + 1) / n)%R).
  { apply Rmult_lt_compat_r; [apply Rinv_0_lt_compat; exact Hn | lra]. }
  lra.
Qed.

(** The footprint of any tile is a proper box, whatever the indices. *)
Lemma tileToBBox_proper x y z :
  (minLon (tileToBBox x y z) < maxLon (tileToBBox x y z))%R /\
  (minLat (tileToBBox x y z) < maxLat (tileToBBox x y z))%R.
Proof.
  assert (Hn : (0 < powerRZ 2 z)%R) by (apply powerRZ_lt; lra).
  unfold tileToBBox; simpl. split.
  - apply tileLon_increasing; exact Hn.
  - apply tileLat_decreasing; [exact Hn | lra].
Qed.

(** **** The margins of a tile *)

Lemma powerRZ_two (z : Z) : (0 <= z)%Z -> powerRZ 2 z = IZR (2 ^ z).
Proof.
  intros Hz. rewrite <- (Z2Nat.id z Hz) at 1.
  rewrite <- pow_powerRZ, pow_IZR. now rewrite Z2Nat.id.
Qed.

Lemma cosh_ge_1 c : (1 <= cosh c)%R.
Proof.
  unfold cosh. rewrite exp_Ropp. pose proof (exp_pos c) as He.
  set (e := exp c) in *.
  assert (H : (e + / e - 2 = (e - 1) * (e - 1) * / e)%R) by (field; lra).
  assert (0 < / e)%R by now apply Rinv_0_lt_compat.
  assert (0 <= (e - 1) * (e - 1))%R by apply Rle_0_sqr.
  assert (0 <= (e - 1) * (e - 1) * / e)%R by (apply Rmult_le_pos; lra).
  lra.
Qed.

Lemma exp_4 : (exp 4 <= 81)%R.
Proof.
  replace 4%R with (1 + (1 + (1 + 1)))%R by lra. rewrite !exp_plus.
  pose proof exp_le_3 as H. pose proof (exp_pos 1) as Hp.
  set (e := exp 1) in *.
  assert (e * e <= 9)%R by nra.
  assert (0 < e * e)%R by nra.
  nra.
Qed.

Lemma sinh_bound c : (-4 <= c <= 4)%R -> (- (81 / 2) <= sinh c <= 81 / 2)%R.
Proof.
  intros [Hlo Hhi]. unfold sinh.
  pose proof (exp_pos c). pose proof (exp_pos (- c)).
  assert (exp c <= 81)%R.
  { apply Rle_trans with (exp 4); [|exact exp_4].
    destruct (Req_dec c 4) as [->|]; [lra|]. left. apply exp_increasing. lra. }
  assert (exp (- c) <= 81)%R.
  { apply Rle_trans with (exp 4); [|exact exp_4].
    destruct (Req_dec (- c) 4) as [->|]; [lra|]. left. apply exp_increasing. lra. }
  lra.
Qed.

(** Between [-4] and [4] the slope of [atan (sinh c)] is at least
    [4 / 6565]: its derivative is [cosh c / (1 + sinh c ^ 2)]. *)
Lemma atan_sinh_gap a b :
  (-4 <= b)%R -> (b < a)%R -> (a <= 4)%R ->
  ((a - b) * (4 / 6565) <= atan (sinh a) - atan (sinh b))%R.
Proof.
  intros Hb Hab Ha.
  destruct (MVT_cor2 (comp atan sinh)
              (fun c => (/ (1 + sinh c ^ 2) * cosh c)%R) b a Hab)
    as (c & Heq & Hc).
  { intros c _. apply derivable_pt_lim_comp;
      [apply derivable_pt_lim_sinh | apply derivable_pt_lim_atan]. }
  unfold comp in Heq. rewrite Heq.
  pose proof (cosh_ge_1 c) as Hcosh.
  destruct (sinh_bound c ltac:(lra)) as [Hs1 Hs2].
  assert (Hsq : (sinh c ^ 2 <= 6561 / 4)%R) by nra.
  assert (Hpos : (0 < 1 + sinh c ^ 2)%R) by nra.
  assert (Hinv : (4 / 6565 <= / (1 + sinh c ^ 2))%R).
  { replace (4 / 6565)%R with (/ (6565 / 4))%R by field.
    apply Rinv_le_contravar; lra. }
  assert (0 < / (1 + sinh c ^ 2))%R by now apply Rinv_0_lt_compat.
  assert (4 / 6565 <= / (1 + sinh c ^ 2) * cosh c)%R by nra.
  nra.
Qed.

(** Two consecutive rows of a grid of [n] rows are at least
    [1440 / (6565 * n)] degrees apart. *)
Lemma tileLat_gap k n :
  (0 < n)%R -> (0 <= k)%R -> (k + 1 <= n)%R ->
  (1440 / (6565 * n) <= tileLat k n - tileLat (k + 1) n)%R.
Proof.
  intros Hn Hk Hk1. unfold tileLat.
  pose proof PI_RGT_0 as Hpi. pose proof PI_4 as Hpi4.
  set (a := (PI * (1 - 2 * k / n))%R).
  set (b := (PI * (1 - 2 * (k + 1) / n))%R).
  assert (Hin : (0 < / n)%R) by now apply Rinv_0_lt_compat.
  assert (Hr0 : (0 <= k / n)%R) by (apply Rmult_le_pos; lra).
  assert (Hr1 : ((k + 1) / n <= 1)%R).
  { apply Rmult_le_reg_r with n; [exact Hn|].
    replace ((k + 1) / n * n)%R with (k + 1)%R by (field; lra). lra. }
  assert (Hkk : ((k + 1) / n = k / n + / n)%R) by (field; lra).
  assert (Hab : (a - b = 2 * PI / n)%R) by (unfold a, b; field; lra).
  assert (Ha : (a <= 4)%R).
  { unfold a. replace (2 * k / n)%R with (2 * (k / n))%R by (field; lra). nra. }
  assert (Hb : (-4 <= b)%R).
  { unfold b.
    replace (2 * (k + 1) / n)%R with (2 * ((k + 1) / n))%R by (field; lra).
    nra. }
  assert (Hlt : (b < a)%R).
  { assert (0 < 2 * PI / n)%R by (apply Rmult_lt_0_compat; lra). lra. }
  pose proof (atan_sinh_gap a b Hb Hlt Ha) as Hgap. rewrite Hab in Hgap.
  replace (atan (sinh a) * 180 / PI - atan (sinh b) * 180 / PI)%R
    with ((atan (sinh a) - atan (sinh b)) * (180 / PI))%R by (field; lra).
  assert (Hq : (1440 / (6565 * n) = 2 * PI / n * (4 / 6565) * (180 / PI))%R)
    by (field; lra).
  rewrite Hq. apply Rmult_le_compat_r; [|exact Hgap].
  apply Rlt_le, Rdiv_lt_0_compat; lra.
Qed.

(** In binary64 the longitudes of every tile of the zoom levels 0 to 12
    are strictly ordered: all 8191 columns are computed. *)
Lemma lonStrict_to_zoom_12 z x :
  (0 <= z <= 12)%Z -> (0 <= x < 2 ^ z)%Z -> Binary64.lonStrict z x = true.
Proof.
  intros Hz Hx.
  assert (Hall : Binary64.zoomsStrict 12 = true) by (vm_compute; reflexivity).
  unfold Binary64.zoomsStrict in Hall. rewrite forallb_forall in Hall.
  specialize (Hall (Z.to_nat z)). rewrite Z2Nat.id in Hall by lia.
  assert (Hcols : Binary64.columnsStrict z = true).
  { apply Hall, in_seq. lia. }
  unfold Binary64.columnsStrict in Hcols. rewrite forallb_forall in Hcols.
  specialize (Hcols (Z.to_nat x)). rewrite Z2Nat.id in Hcols by lia.
  apply Hcols, in_seq. lia.
Qed.

(** In binary64 the claim fails for large zoom levels: at [z = 55] the
    tile [x = 0] has [lonMin = lonMax = -180]. *)
Lemma tileToBBox_flat_at_zoom_55 :
  (0 <= 55)%Z /\ (0 <= 0 < 2 ^ 55)%Z /\
  PrimFloat.ltb (Binary64.tileLonMin 0 55) (Binary64.tileLonMax 0 55) = false /\
  PrimFloat.eqb (Binary64.tileLonMin 0 55) (Binary64.tileLonMax 0 55) = true.
Proof.
  split; [lia|]. split; [lia|]. split; vm_compute; reflexivity.
Qed.

(** C10 (amended). For the zoom levels the layer asks for, [z <= 12], and
    tile indices [0 <= x < 2^z], [0 <= y < 2^z], [tileToBBox x y z] has
    [minLon < maxLon] and [minLat < maxLat]: the longitudes are strictly
    ordered as binary64 values, and in exact arithmetic the box is at
    least [360 / 4096] degrees wide and [1 / 20000] degrees high, so it
    satisfies the GeoBox invariant with a margin far above the rounding
    of binary64. *)
Theorem tileToBBox_well_formed (x y z : Z) :
  (0 <= z <= 12)%Z -> (0 <= x < 2 ^ z)%Z -> (0 <= y < 2 ^ z)%Z ->
  PrimFloat.ltb (Binary64.tileLonMin x z) (Binary64.tileLonMax x z) = true /\
  (360 / 4096 <= maxLon (tileToBBox x y z) - minLon (tileToBBox x y z))%R /\
  (1 / 20000 <= maxLat (tileToBBox x y z) - minLat (tileToBBox x y z))%R /\
  wellFormed (tileToBBox x y z).
Proof.
  intros Hz Hx Hy.
  assert (Hn : (0 < IZR (2 ^ z) <= 4096)%R).
  { split; [apply IZR_lt; lia|]. apply IZR_le.
    change 4096%Z with (2 ^ 12)%Z. apply Z.pow_le_mono_r; lia. }
  assert (Hy0 : (0 <= IZR y)%R) by (apply IZR_le; lia).
  assert (Hy1 : (IZR y + 1 <= IZR (2 ^ z))%R).
  { rewrite <- plus_IZR. apply IZR_le. lia. }
  assert (Hlon : (360 / 4096 <= maxLon (tileToBBox x y z)
                                - minLon (tileToBBox x y z))%R).
  { unfold tileToBBox; cbn [minLon maxLon].
    rewrite (powerRZ_two z) by lia. set (n := IZR (2 ^ z)) in *.
    replace ((IZR x + 1) / n * 360 - 180 - (IZR x / n * 360 - 180))%R
      with (360 * / n)%R by (field; lra).
    assert (/ 4096 <= / n)%R by (apply Rinv_le_contravar; lra).
    lra. }
  assert (Hlat : (1 / 20000 <= maxLat (tileToBBox x y z)
                               - minLat (tileToBBox x y z))%R).
  { unfold tileToBBox; cbn [minLat maxLat].
    rewrite (powerRZ_two z) by lia. set (n := IZR (2 ^ z)) in *.
    pose proof (tileLat_gap (IZR y) n ltac:(lra) Hy0 Hy1) as Hgap.
    apply Rle_trans with (1440 / (6565 * n))%R; [|exact Hgap].
    assert (/ (6565 * 4096) <= / (6565 * n))%R
      by (apply Rinv_le_contravar; lra).
    unfold Rdiv. lra. }
  split; [exact (lonStrict_to_zoom_12 z x Hz Hx)|].
  split; [exact Hlon|]. split; [exact Hlat|].
  unfold wellFormed. split; lra.
Qed.

Lemma tileToBBox_well_formed_witness :
  PrimFloat.ltb (Binary64.tileLonMin 2 4) (Binary64.tileLonMax 2 4) = true /\
  (360 / 4096 <= maxLon (tileToBBox 2 3 4) - minLon (tileToBBox 2 3 4))%R /\
  (1 / 20000 <= maxLat (tileToBBox 2 3 4) - minLat (tileToBBox 2 3 4))%R /\
  wellFormed (tileToBBox 2 3 4).
Proof. apply (tileToBBox_well_formed 2 3 4); lia. Defined.





(** **** Two tiles, with bounds on their latitudes *)

Lemma sinh_lower x : (0 <= x)%R -> (((1 + x) - / (1 + x)) / 2 <= sinh x)%R.
Proof.
  intros Hx. unfold sinh.
  pose proof (exp_ineq1_le x) as H1.
  assert (H2 : (exp (- x) <= / (1 + x))%R).
  { rewrite exp_Ropp. apply Rinv_le_contravar; lra. }
  lra.
Qed.

Lemma exp_three_halves : ((5 / 4) ^ 6 <= exp (3 / 2))%R.
Proof.
  replace (3 / 2)%R
    with (1 / 4 + (1 / 4 + (1 / 4 + (1 / 4 + (1 / 4 + 1 / 4)))))%R by lra.
  rewrite !exp_plus.
  pose proof (exp_ineq1_le (1 / 4)) as H.
  set (e := exp (1 / 4)) in *.
  replace (e * (e * (e * (e * (e * e)))))%R with (e ^ 6)%R by ring.
  apply pow_incr. lra.
Qed.

Lemma sqrt3_lt_sinh_half_pi : (sqrt 3 < sinh (PI / 2))%R.
Proof.
  apply Rlt_trans with (sinh (3 / 2)); [|apply sinh_lt, PI2_3_2].
  unfold sinh.
  pose proof exp_three_halves as Hlo.
  assert (Hhi : (exp (- (3 / 2)) <= / ((5 / 4) ^ 6))%R).
  { rewrite exp_Ropp. apply Rinv_le_contravar; [|exact Hlo].
    apply pow_lt. lra. }
  assert (Hs : (sqrt 3 < 7 / 4)%R).
  { replace (7 / 4)%R with (sqrt ((7 / 4) * (7 / 4))) by (apply sqrt_square; lra).
    apply sqrt_lt_1; lra. }
  assert (Hpow : ((5 / 4) ^ 6 = 15625 / 4096)%R) by (simpl; lra).
  rewrite Hpow in *.
  replace (/ (15625 / 4096))%R with (4096 / 15625)%R in Hhi by field.
  lra.
Qed.

Lemma atan_sqrt3 : atan (sqrt 3) = (PI / 3)%R.
Proof.
  rewrite <- tan_PI3. apply atan_tan.
  pose proof PI_RGT_0. split; lra.
Qed.

Lemma inv_sqrt3_lt_sinh_quarter_pi : (1 / sqrt 3 < sinh (PI / 4))%R.
Proof.
  apply Rlt_le_trans with (sinh (3 / 4)).
  2:{ left. apply sinh_lt. pose proof PI2_3_2. lra. }
  pose proof (sinh_lower (3 / 4)) as H.
  assert (Hs : (17 / 10 < sqrt 3)%R).
  { replace (17 / 10)%R with (sqrt ((17 / 10) * (17 / 10)))
      by (apply sqrt_square; lra).
    apply sqrt_lt_1; lra. }
  assert (Hinv : (1 / sqrt 3 < 10 / 17)%R).
  { unfold Rdiv. rewrite Rmult_1_l.
    replace (10 * / 17)%R with (/ (17 / 10))%R by field.
    apply Rinv_lt_contravar; [|exact Hs].
    apply Rmult_lt_0_compat; lra. }
  replace (/ (1 + 3 / 4))%R with (4 / 7)%R in H by field.
  lra.
Qed.

Lemma atan_inv_sqrt3 : atan (1 / sqrt 3) = (PI / 6)%R.
Proof.
  rewrite <- tan_PI6. apply atan_tan.
  pose proof PI_RGT_0. split; lra.
Qed.

(** The row just below latitude 66.5: [tileLat 4 16] is above 60 degrees. *)
Lemma tileLat_4_16 : (60 < tileLat 4 16)%R.
Proof.
  unfold tileLat. pose proof PI_RGT_0 as Hpi.
  replace (PI * (1 - 2 * 4 / 16))%R with (PI / 2)%R by lra.
  pose proof (atan_increasing _ _ sqrt3_lt_sinh_half_pi) as H.
  rewrite atan_sqrt3 in H.
  apply Rmult_lt_reg_r with (PI / 180)%R; [lra|].
  replace (atan (sinh (PI / 2)) * 180 / PI * (PI / 180))%R
    with (atan (sinh (PI / 2))) by (field; lra).
  lra.
Qed.

Lemma tileLat_3_8 : (30 < tileLat 3 8)%R.
Proof.
  unfold tileLat. pose proof PI_RGT_0 as Hpi.
  replace (PI * (1 - 2 * 3 / 8))%R with (PI / 4)%R by lra.
  pose proof (atan_increasing _ _ inv_sqrt3_lt_sinh_quarter_pi) as H.
  rewrite atan_inv_sqrt3 in H.
  apply Rmult_lt_reg_r with (PI / 180)%R; [lra|].
  replace (atan (sinh (PI / 4)) * 180 / PI * (PI / 180))%R
    with (atan (sinh (PI / 4))) by (field; lra).
  lra.
Qed.

Lemma tileLat_equator n : (0 < n)%R -> tileLat (n / 2) n = 0%R.
Proof.
  intros Hn. unfold tileLat.
  replace (PI * (1 - 2 * (n / 2) / n))%R with 0%R by (field; lra).
  rewrite sinh_0, atan_0. unfold Rdiv. ring.
Qed.

(** Tile z = 4, x = 2, y = 3 lies north of [COG_BOUNDS]. *)
Lemma tile_4_2_3_outside :
  bboxesIntersect (tileToBBox 2 3 4) COG_BOUNDS = false.
Proof.
  apply bboxesIntersect_false. right. right. right.
  assert (Hp : powerRZ 2 4 = 16%R) by (simpl; lra).
  unfold tileToBBox, COG_BOUNDS. rewrite Hp. simpl minLat; simpl maxLat.
  replace (3 + 1)%R with 4%R by lra.
  pose proof tileLat_4_16. lra.
Qed.

(** Tile z = 3, x = 2, y = 3: longitudes -90 to -45, latitudes from the
    equator to above 30 degrees. *)
Lemma tile_3_2_3 :
  minLon (tileToBBox 2 3 3) = (-90)%R /\
  maxLon (tileToBBox 2 3 3) = (-45)%R /\
  minLat (tileToBBox 2 3 3) = 0%R /\
  (30 < maxLat (tileToBBox 2 3 3))%R.
Proof.
  assert (Hp : powerRZ 2 3 = 8%R) by (simpl; lra).
  unfold tileToBBox. rewrite Hp.
  simpl minLon; simpl maxLon; simpl minLat; simpl maxLat.
  repeat split; try lra.
  - replace (3 + 1)%R with (8 / 2)%R by lra. apply tileLat_equator. lra.
  - apply tileLat_3_8.
Qed.

Lemma tile_3_2_3_in_bounds :
  bboxesIntersect (tileToBBox 2 3 3) COG_BOUNDS = true.
Proof.
  destruct tile_3_2_3 as (H1 & H2 & H3 & H4).
  apply bboxesIntersect_true. rewrite H1, H2, H3.
  unfold COG_BOUNDS; cbn [minLon minLat maxLon maxLat]. lra.
Qed.

Lemma tile_3_2_3_in_raster :
  bboxesIntersect (tileToBBox 2 3 3) rasterBox = true.
Proof.
  destruct tile_3_2_3 as (H1 & H2 & H3 & H4).
  apply bboxesIntersect_true. rewrite H1, H2, H3.
  unfold rasterBox; cbn [minLon minLat maxLon maxLat]. lra.
Qed.

Lemma tile_3_2_3_not_raster : tileToBBox 2 3 3 <> rasterBox.
Proof.
  intros Heq. destruct tile_3_2_3 as (H1 & _).
  rewrite Heq in H1. unfold rasterBox in H1; cbn [minLon] in H1. lra.
Qed.

End GeometryFacts.

Module ColorizerFacts.
Import Js Colorizer.

Lemma Qltb_true p q : Qltb p q = true <-> (p < q)%Q.
Proof.
  unfold Qltb. rewrite negb_true_iff. split.
  - intros H. apply Qnot_le_lt. intros Hle.
    apply Qle_bool_iff in Hle. congruence.
  - intros H. destruct (Qle_bool q p) eqn:E; [|reflexivity].
    apply Qle_bool_iff in E. exfalso. exact (Qlt_not_le _ _ H E).
Qed.

(** [Math.round] returns the nearest integer, ties going up. *)
Lemma roundQ_nearest (q : Q) :
  (inject_Z (roundQ q) - (1 # 2) <= q)%Q /\
  (q < inject_Z (roundQ q) + (1 # 2))%Q.
Proof.
  unfold roundQ.
  pose proof (Qfloor_le (q + (1 # 2))) as Hlo.
  pose proof (Qlt_floor (q + (1 # 2))) as Hhi.
  rewrite inject_Z_plus in Hhi. change (inject_Z 1) with 1%Q in Hhi.
  split; lra.
Qed.

Lemma noData_spec value : noData value = true <-> NoData value.
Proof.
  split.
  - destruct value as [| |[|[]|q]]; simpl; intros H; try discriminate;
      try constructor.
    unfold noData, isNaN in H. simpl in H. now apply Qltb_true in H.
  - destruct 1; try reflexivity.
    unfold noData, isNaN. simpl. now apply Qltb_true.
Qed.

Lemma clamp8_byte v : (0 <= v <= 255)%Z -> Pipeline.clamp8 v = v.
Proof. unfold Pipeline.clamp8. lia. Qed.

End ColorizerFacts.

Module PaintFacts.
Import Js Colorizer HexSpec Pipeline Examples ColorizerFacts.

Section Paint.

Variable env : Env.
Variable layerName : CogLayerName.
Variable fuelLegend : option (gmap string ColorMapEntry).

Lemma store_length data i v : length (store data i v) = length data.
Proof. unfold store. apply length_insert. Qed.

Lemma store_other data i j v : i <> j -> store data i v !! j = data !! j.
Proof. unfold store. intros. now apply list_lookup_insert_ne. Qed.

Lemma store_same data i v :
  (i < length data)%nat -> store data i v !! i = Some (clamp8 v).
Proof. unfold store. intros. now apply list_lookup_insert_eq. Qed.

Lemma paint_length band : forall i data,
  length (paint env layerName fuelLegend band i data) = length data.
Proof.
  induction band as [|value rest IH]; intros i data; simpl; [reflexivity|].
  destruct (pixelBytes _ _ _ value) as [[[r g] b] a].
  rewrite IH, !store_length. reflexivity.
Qed.

(** The loop from index [i] leaves the bytes below [i * 4] alone. *)
Lemma paint_below band : forall i data j,
  (j < i * 4)%nat ->
  paint env layerName fuelLegend band i data !! j = data !! j.
Proof.
  induction band as [|value rest IH]; intros i data j Hj; simpl; [reflexivity|].
  destruct (pixelBytes _ _ _ value) as [[[r g] b] a].
  rewrite IH by lia. rewrite !store_other by lia. reflexivity.
Qed.

(** After the loop, the four bytes of pixel [i + k] are the clamped bytes
    computed from the [k]-th remaining sample, when they lie in the array. *)
Lemma paint_pixel band : forall i data k value,
  band !! k = Some value ->
  ((i + k) * 4 + 3 < length data)%nat ->
  let '(r, g, b, a) := pixelBytes (exponentNotation env) layerName fuelLegend value in
  let out := paint env layerName fuelLegend band i data in
  out !! ((i + k) * 4)%nat = Some (clamp8 r) /\
  out !! ((i + k) * 4 + 1)%nat = Some (clamp8 g) /\
  out !! ((i + k) * 4 + 2)%nat = Some (clamp8 b) /\
  out !! ((i + k) * 4 + 3)%nat = Some (clamp8 a).
Proof.
  induction band as [|v rest IH]; intros i data k value Hk Hlen; [discriminate|].
  destruct k as [|k].
  - simpl in Hk. injection Hk as ->. simpl.
    destruct (pixelBytes _ _ _ value) as [[[r g] b] a].
    replace (i + 0)%nat with i in * by lia.
    rewrite !paint_below by lia.
    repeat split; repeat (rewrite store_other by lia);
      (rewrite store_same; [reflexivity | rewrite ?store_length; lia]).
  - simpl in Hk.
    replace (i + S k)%nat with (S i + k)%nat in * by lia.
    simpl paint.
    destruct (pixelBytes _ _ _ v) as [[[r0 g0] b0] a0].
    specialize (IH (S i) (store (store (store (store data (i * 4) r0) (i * 4 + 1) g0)
                                   (i * 4 + 2) b0) (i * 4 + 3) a0) k value Hk).
    rewrite !store_length in IH. specialize (IH Hlen).
    exact IH.
Qed.

End Paint.

(** C7. A sample that is [null], [undefined], NaN or negative produces
    alpha [0] for both the slope and the fuel colorizer: the test is made
    before the layer is looked at, and the loop writes a zero alpha byte
    for that pixel. *)
Theorem nodata_is_transparent (env : Env) (layerName : CogLayerName)
    (fuelLegend : option (gmap string ColorMapEntry)) (value : sample) :
  NoData value ->
  pixelBytes (exponentNotation env) layerName fuelLegend value = (0, 0, 0, 0)%Z /\
  forall (band : list sample) (data : list Z) (i : nat),
    band !! i = Some value ->
    (i * 4 + 3 < length data)%nat ->
    paint env layerName fuelLegend band 0 data !! (i * 4 + 3)%nat = Some 0%Z.
Proof.
  intros Hnd. apply noData_spec in Hnd.
  assert (Hpx : pixelBytes (exponentNotation env) layerName fuelLegend value
                = (0, 0, 0, 0)%Z).
  { unfold pixelBytes. rewrite Hnd. reflexivity. }
  split; [exact Hpx|].
  intros band data i Hi Hlen.
  pose proof (paint_pixel env layerName fuelLegend band 0 data i value Hi) as H.
  simpl in H. rewrite Hpx in H. apply H in Hlen. tauto.
Qed.

Lemma nodata_is_transparent_witness :
  pixelBytes (exponentNotation (serving coarseTiff None)) slope None (SNum (Fin (-1)))
    = (0, 0, 0, 0)%Z /\
  forall (band : list sample) (data : list Z) (i : nat),
    band !! i = Some (SNum (Fin (-1))) ->
    (i * 4 + 3 < length data)%nat ->
    paint (serving coarseTiff None) slope None band 0 data !! (i * 4 + 3)%nat = Some 0%Z.
Proof.
  apply (nodata_is_transparent (serving coarseTiff None) slope None (SNum (Fin (-1)))).
  apply NoData_negative. reflexivity.
Defined.

(** **** The colour of a legend entry *)












Example fuel_sample_two :
  pixelBytes (fun _ => ""%string) fuel (Some legendTwo) (SNum (Fin 2))
  = (173, 221, 142, 255)%Z.
Proof. reflexivity. Qed.

Example fuel_sample_unknown :
  pixelBytes (fun _ => ""%string) fuel (Some legendTwo) (SNum (Fin 7))
  = (200, 200, 200, 255)%Z.
Proof. reflexivity. Qed.

End PaintFacts.

Module ThrottleFacts.
Import Throttle.

Lemma Inv_initial : Inv initial.
Proof.
  split.
  - intros j Hj. inversion Hj.
  - constructor.
  - intros j. reflexivity.
Qed.

(** Case analysis on the keys of the updated maps. *)
Ltac lookups :=
  unfold phaseOf, releasesOf; simpl;
  repeat (rewrite lookup_insert; case_decide; subst; simpl);
  try reflexivity; try congruence.

Lemma Inv_step g t g' : Inv g -> step g t = Some g' -> Inv g'.
Proof.
  intros [Hq Hnd Hrel] Hstep. destruct g as [a q m r].
  unfold phaseOf, releasesOf in *. simpl in *.
  destruct t as [j|j|j ok]; simpl in Hstep; unfold phaseOf in Hstep;
    simpl in Hstep;
    destruct (default Idle (m !! j)) eqn:Hj; try discriminate;
    injection Hstep as <-;
    (assert (Hnotin : j ∉ q) by (intros Hin; apply Hq in Hin; congruence));
    (assert (Hrj : default 0%nat (r !! j) = 0%nat) by (now rewrite Hrel, Hj)).
  - (* Call *)
    unfold call; simpl. destruct (a >=? MAX_CONCURRENT)%Z; split; simpl.
    + intros k Hk. lookups.
      apply elem_of_app in Hk as [Hk|Hk]; [exact (Hq k Hk)|].
      apply list_elem_of_singleton in Hk. congruence.
    + apply NoDup_app. repeat split; [exact Hnd | | apply NoDup_singleton].
      intros k Hk Hk'. apply list_elem_of_singleton in Hk'. subst. contradiction.
    + intros k. lookups. apply Hrel.
    + intros k Hk. lookups; try contradiction; exact (Hq k Hk).
    + exact Hnd.
    + intros k. lookups. apply Hrel.
  - (* Resume *)
    unfold resume; simpl. split; simpl.
    + intros k Hk. lookups; try contradiction; exact (Hq k Hk).
    + exact Hnd.
    + intros k. lookups. apply Hrel.
  - (* Settle *)
    unfold settle; simpl. destruct q as [|next rest]; split; simpl.
    + intros k Hk. inversion Hk.
    + constructor.
    + intros k. lookups. apply Hrel.
    + intros k Hk. apply NoDup_cons in Hnd as [Hnext Hnd].
      lookups; try contradiction.
      * exfalso. apply Hnotin. now right.
      * apply (Hq k). now right.
    + now apply NoDup_cons in Hnd as [_ Hnd].
    + intros k.
      assert (Hnj : next <> j) by (intros ->; apply Hnotin; now left).
      assert (Hnext : default Idle (m !! next) = Waiting) by (apply Hq; now left).
      lookups.
      * now rewrite Hrel, Hnext.
      * apply Hrel.
Qed.

Lemma Inv_run ts : forall g g', Inv g -> run g ts = Some g' -> Inv g'.
Proof.
  induction ts as [|t ts IH]; intros g g' Hinv Hrun; simpl in Hrun.
  - now injection Hrun as <-.
  - destruct (step g t) as [g1|] eqn:Hstep; [|discriminate].
    eapply IH; [|exact Hrun]. eapply Inv_step; eassumption.
Qed.

Lemma Inv_reachable g : reachable g -> Inv g.
Proof. intros [ts Hrun]. eapply Inv_run; [apply Inv_initial | exact Hrun]. Qed.

(** The release half of C4.  In every reachable state a call whose
    function has settled, by returning or by throwing, has executed
    [activeRequests--] exactly once, and no other call has executed it. *)
Lemma release_exactly_once g j :
  reachable g ->
  releasesOf g j = match phaseOf g j with Finished _ => 1%nat | _ => 0%nat end.
Proof. intros Hr. apply Inv_reachable in Hr. apply Hr. Qed.

(** Only an admitted call releases, and at most once. *)
Lemma admitted_releases_once g j :
  reachable g ->
  (releasesOf g j <= 1)%nat /\
  (releasesOf g j = 1%nat -> admitted g j = true).
Proof.
  intros Hr. rewrite (release_exactly_once g j Hr). unfold admitted.
  destruct (phaseOf g j); split; try lia; try discriminate; reflexivity.
Qed.

(** The [finally] block runs whether [fn] fulfils or rejects. *)
Lemma settle_releases g j ok g' :
  reachable g ->
  step g (Settle j ok) = Some g' ->
  activeRequests g' = (activeRequests g - 1)%Z /\
  phaseOf g' j = Finished ok /\
  releasesOf g' j = 1%nat.
Proof.
  intros Hr Hstep.
  assert (Hinv' : Inv g').
  { eapply Inv_step; [apply Inv_reachable; exact Hr | exact Hstep]. }
  assert (Hphase : phaseOf g' j = Finished ok).
  { apply Inv_reachable in Hr. destruct Hr as [Hq _ _].
    simpl in Hstep. destruct (phaseOf g j) eqn:Hj; try discriminate.
    injection Hstep as <-. unfold settle.
    destruct (pendingQueue g) as [|next rest] eqn:Eq; unfold phaseOf; simpl.
    - now rewrite lookup_insert_eq.
    - rewrite lookup_insert. case_decide; subst; simpl.
      + rewrite (Hq j) in Hj by (now left). discriminate.
      + now rewrite lookup_insert_eq. }
  repeat split.
  - simpl in Hstep. destruct (phaseOf g j); try discriminate.
    injection Hstep as <-. unfold settle.
    destruct (pendingQueue g); reflexivity.
  - exact Hphase.
  - rewrite (inv_release _ Hinv'), Hphase. reflexivity.
Qed.

(** C4.  The schedule [overAdmission] is enabled turn by turn and ends
    with seven active requests, one more than [MAX_CONCURRENT]: the call
    woken by [finally] increments the counter without testing it again,
    after call 8 took the free slot. *)
Theorem throttle_over_admission :
  exists g, run initial overAdmission = Some g /\
            activeRequests g = 7%Z /\
            (activeRequests g > MAX_CONCURRENT)%Z.
Proof.
  assert (H : activeRequests <$> run initial overAdmission = Some 7%Z)
    by (vm_compute; reflexivity).
  destruct (run initial overAdmission) as [g|]; [|discriminate].
  exists g. injection H as H. rewrite H. repeat split.
Qed.


Lemma EagerInv_initial : EagerInv initial.
Proof.
  split; [apply Inv_initial|]. exists []. repeat split.
  - constructor.
  - intros H. inversion H.
  - intros H. discriminate.
  - simpl. unfold MAX_CONCURRENT. lia.
Qed.

Lemma EagerInv_step g t g' :
  EagerInv g ->
  (forall j, t = Call j -> noneWoken g) ->
  step g t = Some g' ->
  EagerInv g'.
Proof.
  intros [Hinv (ws & Hnd & Hws & Hsum)] Hcall Hstep.
  split; [eapply Inv_step; eassumption|].
  destruct Hinv as [Hq Hqnd _]. destruct g as [a q m r].
  unfold phaseOf in *. simpl in *.
  destruct t as [j|j|j ok]; simpl in Hstep; unfold phaseOf in Hstep;
    simpl in Hstep;
    destruct (default Idle (m !! j)) eqn:Hj; try discriminate;
    injection Hstep as <-.
  - (* Call: no call is woken *)
    assert (Hnone : forall k, default Idle (m !! k) <> Woken).
    { intros k. exact (Hcall j eq_refl k). }
    assert (Hempty : ws = []).
    { destruct ws as [|w ws']; [reflexivity|].
      exfalso. apply (Hnone w). apply Hws. now left. }
    subst ws. exists []. unfold call; simpl.
    destruct (a >=? MAX_CONCURRENT)%Z eqn:Hge; simpl;
      (split; [constructor|]); (split; [|simpl in *; lia]);
      intros k; (split; [intros H; inversion H|]);
      lookups; intros Hk; exfalso; exact (Hnone k Hk).
  - (* Resume *)
    assert (Hin : j ∈ ws) by (now apply Hws).
    apply list_elem_of_split in Hin as (l1 & l2 & ->).
    apply NoDup_app in Hnd as (Hnd1 & Hdisj & Hnd2).
    apply NoDup_cons in Hnd2 as [Hj2 Hnd2].
    exists (l1 ++ l2). unfold resume; simpl.
    split; [|split; [intros k; split; intros Hk|]].
    + apply NoDup_app. repeat split; [exact Hnd1 | | exact Hnd2].
      intros k Hk1 Hk2. apply (Hdisj k Hk1). now right.
    + lookups.
      * apply elem_of_app in Hk as [Hk|Hk]; [|contradiction].
        exfalso. apply (Hdisj k Hk). now left.
      * apply Hws. apply elem_of_app in Hk as [Hk|Hk];
          apply elem_of_app; [now left | right; now right].
    + revert Hk. lookups. intros Hk. apply Hws in Hk.
      apply elem_of_app in Hk as [Hk|Hk]; apply elem_of_app; [now left|].
      apply elem_of_cons in Hk as [->|Hk]; [congruence | now right].
    + rewrite length_app in *. simpl in Hsum. lia.
  - (* Settle *)
    assert (Hjws : j ∉ ws).
    { intros Hin. apply Hws in Hin. congruence. }
    unfold settle; simpl. destruct q as [|next rest]; simpl.
    + exists ws. split; [exact Hnd|]. split; [intros k; split; intros Hk|lia].
      * lookups; try contradiction; now apply Hws.
      * revert Hk. lookups. intros Hk. now apply Hws.
    + assert (Hnext : default Idle (m !! next) = Waiting) by (apply Hq; now left).
      assert (Hnws : next ∉ ws).
      { intros Hin. apply Hws in Hin. congruence. }
      exists (next :: ws).
      split; [|split; [intros k; split; intros Hk|]].
      * apply NoDup_cons. split; assumption.
      * lookups.
        -- apply elem_of_cons in Hk as [->|Hk]; [congruence | contradiction].
        -- apply elem_of_cons in Hk as [->|Hk]; [congruence | now apply Hws].
      * revert Hk. lookups; intros Hk; try (now left); right; now apply Hws.
      * simpl length. lia.
Qed.

(** Under such a schedule [activeRequests] never exceeds the maximum. *)
Lemma eager_schedule_bounded g ts g' :
  EagerInv g -> runEager g ts g' ->
  (activeRequests g' <= MAX_CONCURRENT)%Z.
Proof.
  intros Hinv Hrun. induction Hrun as
    [g | g j g' ts g'' Hnone Hstep Hrun IH
       | g j g' ts g'' Hstep Hrun IH
       | g j ok g' ts g'' Hstep Hrun IH].
  - destruct Hinv as [_ (ws & _ & _ & Hsum)]. lia.
  - apply IH. eapply EagerInv_step; [exact Hinv | | exact Hstep].
    intros j' _. exact Hnone.
  - apply IH. eapply EagerInv_step; [exact Hinv | | exact Hstep].
    intros j' Heq. discriminate.
  - apply IH. eapply EagerInv_step; [exact Hinv | | exact Hstep].
    intros j' Heq. discriminate.
Qed.

End ThrottleFacts.

Module PipelineFacts.
Import Num NumFacts Geometry GeometryFacts Js Colorizer Pipeline PipelineSpec Examples.

Lemma after_nil s : after s [] = s.
Proof. destruct s. unfold after; simpl. now rewrite app_nil_r. Qed.

Lemma after_after s e1 e2 : after (after s e1) e2 = after s (e1 ++ e2).
Proof. unfold after; simpl. now rewrite app_assoc. Qed.

Lemma emit_run ev s : emit ev s = (after s [ev], Value tt).
Proof. reflexivity. Qed.

Lemma bind_value {A B} (m : M A) (k : A -> M B) s s' a :
  m s = (s', Value a) -> bind m k s = k a s'.
Proof. unfold bind. now intros ->. Qed.

Lemma bind_returned {A B} (m : M A) (k : A -> M B) s s' :
  m s = (s', Returned) -> bind m k s = (s', Returned).
Proof. unfold bind. now intros ->. Qed.

Lemma bind_thrown {A B} (m : M A) (k : A -> M B) s s' e :
  m s = (s', Thrown e) -> bind m k s = (s', Thrown e).
Proof. unfold bind. now intros ->. Qed.

Lemma getImage_ok tiff (i : nat) img s :
  images tiff !! i = Some img ->
  getImage tiff (Z.of_nat i) s = (after s [EvGetImage (Z.of_nat i)], Value img).
Proof.
  intros Hi. unfold getImage. rewrite (bind_value _ _ _ _ _ (emit_run _ _)).
  replace (Z.of_nat i <? 0)%Z with false by (symmetry; apply Z.ltb_ge; lia).
  rewrite Nat2Z.id.
  replace (images tiff !! i) with (Some img). reflexivity.
Qed.

(** The scan loop, run: it adds [scanEvents] and yields [scanChoice]. *)
Lemma scanOverviews_run tiff tb ib : forall n cur s,
  (n <= length (images tiff))%nat ->
  scanOverviews tiff tb ib n cur s
  = (after s (scanEvents (images tiff) tb ib n),
     Value (scanChoice (images tiff) tb ib n cur)).
Proof.
  induction n as [|n IH]; intros cur s Hn.
  - simpl. unfold ret. now rewrite after_nil.
  - destruct (lookup_lt_is_Some_2 (images tiff) n) as [img Himg]; [lia|].
    simpl. rewrite Himg.
    rewrite (bind_value _ _ _ _ _ (getImage_ok tiff n img s Himg)).
    unfold console. rewrite (bind_value _ _ _ _ _ (emit_run _ _)).
    rewrite after_after. simpl app.
    unfold fitsBudget.
    destruct (computeSourcePixels tb ib img =? 0)%Z; simpl; [reflexivity|].
    destruct (computeSourcePixels tb ib img <=? SAFE_SOURCE_PIXELS)%Z;
      [reflexivity|].
    rewrite IH by lia. now rewrite after_after.
Qed.

Lemma downFrom_nil n : downFrom n n = [].
Proof. unfold downFrom. now rewrite Nat.sub_diag. Qed.

Lemma downFrom_step n stop :
  (stop <= n)%nat -> downFrom (S n) stop = Z.of_nat n :: downFrom n stop.
Proof.
  intros H. unfold downFrom.
  replace (S n - stop)%nat with (S (n - stop)) by lia.
  rewrite seq_S, rev_app_distr. simpl.
  now replace (stop + (n - stop))%nat with n by lia.
Qed.

Lemma examined_get i t : examined (EvGetImage i :: t) = i :: examined t.
Proof. reflexivity. Qed.

Lemma examined_console l m t : examined (EvConsole l m :: t) = examined t.
Proof. reflexivity. Qed.

(** What the scan does: it examines the images from [n - 1] downwards and
    stops at the highest index whose estimate fits; when none fits it
    examines them all and keeps the current choice. *)
Lemma scan_spec imgs tb ib : forall n cur,
  (n <= length imgs)%nat ->
  (scanChoice imgs tb ib n cur = cur /\
   (forall j img, (j < n)%nat -> imgs !! j = Some img ->
      fitsBudget (computeSourcePixels tb ib img) = false) /\
   examined (scanEvents imgs tb ib n) = downFrom n 0) \/
  (exists i img, (i < n)%nat /\ imgs !! i = Some img /\
     scanChoice imgs tb ib n cur
       = mkChoice (Z.of_nat i) img (computeSourcePixels tb ib img) /\
     fitsBudget (computeSourcePixels tb ib img) = true /\
     (forall j img', (i < j < n)%nat -> imgs !! j = Some img' ->
        fitsBudget (computeSourcePixels tb ib img') = false) /\
     examined (scanEvents imgs tb ib n) = downFrom n i).
Proof.
  induction n as [|n IH]; intros cur Hn; simpl.
  - left. repeat split. intros j img Hj. lia.
  - destruct (lookup_lt_is_Some_2 imgs n) as [img Himg]; [lia|].
    rewrite Himg.
    destruct (fitsBudget (computeSourcePixels tb ib img)) eqn:Hfit.
    + right. exists n, img. repeat split; try assumption; try lia.
      rewrite downFrom_step, downFrom_nil by lia. reflexivity.
    + destruct (IH cur) as
        [(Hc & Hnone & Hex) | (i & img' & Hi & Himg' & Hc & Hfit' & Hgap & Hex)];
        [lia | |].
      * left. split; [exact Hc|]. split.
        -- intros j img' Hj Hj'.
           destruct (decide (j = n)) as [->|]; [congruence|].
           apply (Hnone j img'); [lia | exact Hj'].
        -- rewrite downFrom_step, examined_get, examined_console by lia.
           now rewrite Hex.
      * right. exists i, img'. repeat split; try assumption; try lia.
        -- intros j img'' Hj Hj'.
           destruct (decide (j = n)) as [->|]; [congruence|].
           apply (Hgap j img''); [lia | exact Hj'].
        -- rewrite downFrom_step, examined_get, examined_console by lia.
           now rewrite Hex.
Qed.

Lemma fitsBudget_true pix :
  fitsBudget pix = true <-> (pix <= SAFE_SOURCE_PIXELS)%Z.
Proof.
  unfold fitsBudget, SAFE_SOURCE_PIXELS.
  rewrite orb_true_iff, Z.eqb_eq, Z.leb_le. lia.
Qed.

Lemma fitsBudget_false pix :
  fitsBudget pix = false <-> (SAFE_SOURCE_PIXELS < pix)%Z.
Proof.
  unfold fitsBudget, SAFE_SOURCE_PIXELS.
  rewrite orb_false_iff, Z.eqb_neq, Z.leb_gt. lia.
Qed.

(** C5. The selector first takes the coarsest overview (the highest image
    index), then examines the images from the coarsest down to index 0 and
    stops at the first whose estimate is at most [SAFE_SOURCE_PIXELS]
    (4,000,000), which it selects; when no image qualifies it has examined
    them all and the coarsest stays selected. *)
Theorem overview_selection (tiff : Tiff) (tileBounds imgBbox : BBox) (s : State) :
  images tiff <> [] ->
  let imgs := images tiff in
  let n := length imgs in
  let estimate := computeSourcePixels tileBounds imgBbox in
  SAFE_SOURCE_PIXELS = 4000000%Z /\
  exists choice evs,
    selectOverview tiff (Z.of_nat n) tileBounds imgBbox s
      = (after s evs, Value choice) /\
    imgs !! Z.to_nat (chosenIndex choice) = Some (chosenImage choice) /\
    chosenPixels choice = estimate (chosenImage choice) /\
    ((exists i, (i < n)%nat /\ chosenIndex choice = Z.of_nat i /\
        (chosenPixels choice <= SAFE_SOURCE_PIXELS)%Z /\
        (forall j img, (i < j < n)%nat -> imgs !! j = Some img ->
           (SAFE_SOURCE_PIXELS < estimate img)%Z) /\
        examined evs = Z.of_nat (n - 1) :: downFrom n i)
     \/
     ((forall j img, imgs !! j = Some img ->
         (SAFE_SOURCE_PIXELS < estimate img)%Z) /\
      chosenIndex choice = Z.of_nat (n - 1) /\
      examined evs = Z.of_nat (n - 1) :: downFrom n 0)).
Proof.
  intros Hne imgs n estimate. split; [reflexivity|].
  assert (Hn : (0 < n)%nat).
  { unfold n, imgs. destruct (images tiff); [contradiction | simpl; lia]. }
  destruct (lookup_lt_is_Some_2 imgs (n - 1)) as [first Hfirst]; [lia|].
  unfold selectOverview.
  replace (Z.of_nat n - 1)%Z with (Z.of_nat (n - 1)) by lia.
  rewrite (bind_value _ _ _ _ _ (getImage_ok tiff (n - 1) first s Hfirst)).
  rewrite Nat2Z.id, scanOverviews_run by reflexivity.
  rewrite after_after.
  set (cur := mkChoice (Z.of_nat (n - 1)) first
                (computeSourcePixels tileBounds imgBbox first)).
  destruct (scan_spec imgs tileBounds imgBbox n cur) as
    [(Hc & Hnone & Hex) | (i & img & Hi & Himg & Hc & Hfit & Hgap & Hex)];
    [reflexivity | |].
  - exists cur. eexists. split; [fold imgs; rewrite Hc; reflexivity|].
    unfold cur; simpl. rewrite Nat2Z.id. repeat split; [exact Hfirst|].
    right. repeat split.
    + intros j img' Hj. apply fitsBudget_false.
      apply (Hnone j img'); [|exact Hj].
      apply lookup_lt_Some in Hj. exact Hj.
    + cbn [app]. rewrite ?examined_get. fold imgs. now rewrite Hex.
  - exists (mkChoice (Z.of_nat i) img (computeSourcePixels tileBounds imgBbox img)).
    eexists. split; [fold imgs; rewrite Hc; reflexivity|].
    simpl. rewrite Nat2Z.id. repeat split; [exact Himg|].
    left. exists i. repeat split; try assumption.
    + now apply fitsBudget_true.
    + intros j img' Hj Hj'. apply fitsBudget_false. now apply (Hgap j img').
    + cbn [app]. rewrite ?examined_get. fold imgs. now rewrite Hex.
Qed.

Lemma clearCanvas_run env canvas s :
  clearCanvas env canvas s = (cleared env canvas s, Value tt).
Proof.
  unfold clearCanvas, cleared. destruct (getContext2d env); reflexivity.
Qed.

Lemma cleared_trace env canvas s :
  trace (cleared env canvas s) = trace s ++ clearEvents env canvas.
Proof.
  unfold cleared, clearEvents. destruct (getContext2d env); simpl;
    [reflexivity | now rewrite app_nil_r].
Qed.

Lemma cleared_surface env canvas s :
  surface (cleared env canvas s)
  = if getContext2d env then Transparent else surface s.
Proof. unfold cleared. destruct (getContext2d env); reflexivity. Qed.

Lemma clearEvents_quiet env canvas :
  Forall (fun ev => isNetwork ev = false) (clearEvents env canvas).
Proof.
  unfold clearEvents. destruct (getContext2d env); repeat constructor.
Qed.

(** The quick skip, run. *)
Lemma renderCogTile_outside env cogUrl layerName x y z canvas s :
  bboxesIntersect (tileToBBox x y z) COG_BOUNDS = false ->
  renderCogTile env cogUrl layerName x y z canvas s
  = (after (cleared env canvas s) [EvDone None], Returned).
Proof.
  intros Hout. unfold renderCogTile, tryCatch, renderBody.
  rewrite Hout. change (negb false) with true. cbv iota.
  rewrite (bind_value _ _ _ _ _ (clearCanvas_run env canvas s)).
  reflexivity.
Qed.

(** C3. When the tile's box does not intersect [COG_BOUNDS], the run only
    clears the canvas and calls [done(undefined, canvas)]: no event reaches
    the network or the decoder, and the canvas is transparent (it was
    cleared, or it has no 2d context and is as it was handed over, which
    for a canvas made by [createTile] is transparent). *)
Theorem outside_bounds_is_transparent (env : Env) (cogUrl : string)
    (layerName : CogLayerName) (x y z : Z) (canvas : Canvas) (s : State) :
  bboxesIntersect (tileToBBox x y z) COG_BOUNDS = false ->
  let s' := fst (renderCogTile env cogUrl layerName x y z canvas s) in
  let s'' := fst (createTile env layerName x y z s) in
  (exists evs, trace s' = trace s ++ evs /\
     Forall (fun ev => isNetwork ev = false) evs /\
     deliveries evs = [None]) /\
  surface s' = (if getContext2d env then Transparent else surface s) /\
  surface s'' = Transparent /\
  (exists evs, trace s'' = trace s ++ evs /\
     Forall (fun ev => isNetwork ev = false) evs /\
     deliveries evs = [None]).
Proof.
  intros Hout s' s''.
  assert (Hev : forall c, Forall (fun ev => isNetwork ev = false)
                  (clearEvents env c ++ [EvDone None])).
  { intros c. apply Forall_app. split; [apply clearEvents_quiet|].
    repeat constructor. }
  assert (Hdel : forall c, deliveries (clearEvents env c ++ [EvDone None]) = [None]).
  { intros c. unfold clearEvents. destruct (getContext2d env); reflexivity. }
  repeat split.
  - exists (clearEvents env canvas ++ [EvDone None]).
    unfold s'. rewrite renderCogTile_outside by exact Hout. simpl.
    rewrite cleared_trace, <- app_assoc. auto.
  - unfold s'. rewrite renderCogTile_outside by exact Hout. simpl.
    apply cleared_surface.
  - unfold s'', createTile, bind, setSurface.
    rewrite renderCogTile_outside by exact Hout. simpl.
    rewrite cleared_surface. simpl. now destruct (getContext2d env).
  - exists (clearEvents env (mkCanvas 256 256) ++ [EvDone None]).
    unfold s'', createTile, bind, setSurface.
    rewrite renderCogTile_outside by exact Hout. simpl.
    rewrite cleared_trace. simpl. rewrite <- app_assoc. auto.
Qed.

Lemma reads_app t1 t2 : reads (t1 ++ t2) = reads t1 ++ reads t2.
Proof. unfold reads. apply filter_app. Qed.

Lemma deliveries_app t1 t2 : deliveries (t1 ++ t2) = deliveries t1 ++ deliveries t2.
Proof. unfold deliveries. apply omap_app. Qed.

Lemma reads_quiet t : Forall notRead t -> reads t = [].
Proof.
  induction 1 as [|ev t Hev _ IH]; [reflexivity|].
  unfold reads in *. rewrite filter_cons, IH.
  unfold notRead in Hev. rewrite Hev.
  destruct (decide (false = true)); [discriminate | reflexivity].
Qed.

Lemma scanEvents_quiet imgs tb ib n : Forall notRead (scanEvents imgs tb ib n).
Proof.
  induction n as [|n IH]; simpl; [constructor|].
  destruct (imgs !! n) as [img|]; [|repeat constructor].
  constructor; [reflexivity|]. constructor; [reflexivity|].
  destruct (fitsBudget _); [constructor | exact IH].
Qed.

Lemma scanEvents_no_delivery imgs tb ib n :
  deliveries (scanEvents imgs tb ib n) = [].
Proof.
  induction n as [|n IH]; simpl; [reflexivity|].
  destruct (imgs !! n) as [img|]; [|reflexivity].
  unfold deliveries in *. simpl.
  destruct (fitsBudget _); [reflexivity | exact IH].
Qed.

(** The selection, run on a file with at least one image. *)
Lemma selectOverview_run tiff tb ib s first :
  let imgs := images tiff in
  let n := length imgs in
  imgs !! (n - 1)%nat = Some first ->
  selectOverview tiff (Z.of_nat n) tb ib s
  = (after s (EvGetImage (Z.of_nat (n - 1)) :: scanEvents imgs tb ib n),
     Value (scanChoice imgs tb ib n
              (mkChoice (Z.of_nat (n - 1)) first (computeSourcePixels tb ib first)))).
Proof.
  intros imgs n Hfirst.
  assert (Hn : (0 < n)%nat).
  { apply lookup_lt_Some in Hfirst. fold n in Hfirst. lia. }
  unfold selectOverview.
  replace (Z.of_nat n - 1)%Z with (Z.of_nat (n - 1)) by lia.
  rewrite (bind_value _ _ _ _ _ (getImage_ok tiff (n - 1) first s Hfirst)).
  rewrite Nat2Z.id, scanOverviews_run by reflexivity.
  now rewrite after_after.
Qed.

(** From the call to the selection: the tile meets the enforced bounds
    and the bounds of the image. *)
Lemma renderBody_reaches env cogUrl layerName x y z canvas tiff base imgBbox s :
  bboxesIntersect (tileToBBox x y z) COG_BOUNDS = true ->
  fromUrl env cogUrl = Some tiff ->
  images tiff !! 0%nat = Some base ->
  imageBBox base = Some imgBbox ->
  bboxesIntersect (tileToBBox x y z) imgBbox = true ->
  renderBody env cogUrl layerName x y z canvas s
  = (choice <- chooseOverview env layerName canvas tiff
                 (Z.of_nat (length (images tiff))) (tileToBBox x y z) imgBbox ;;
     console Log (MsgUsingOverview (chosenIndex choice) z (chosenPixels choice)) ;;
     rasters <- readChosen env canvas tiff (Z.of_nat (length (images tiff)))
                  imgBbox choice ;;
     colorize env layerName canvas rasters)
    (after s (openEvents cogUrl layerName x y z)).
Proof.
  intros Hin Hopen Hbase Hbbox Hin2. unfold renderBody.
  rewrite Hin. change (negb true) with false. cbv iota.
  unfold console. rewrite (bind_value _ _ _ _ _ (emit_run _ _)).
  unfold openTiff at 1.
  rewrite (bind_value _ _ _ (after s [EvConsole Log
             (MsgRendering layerName z x y (tileToBBox x y z)); EvFromUrl cogUrl]) tiff).
  2:{ rewrite (bind_value _ _ _ _ _ (emit_run _ _)), Hopen, after_after.
      reflexivity. }
  unfold getImageCount at 1.
  rewrite (bind_value _ _ _ (after s [EvConsole Log
             (MsgRendering layerName z x y (tileToBBox x y z)); EvFromUrl cogUrl;
             EvGetImageCount]) (Z.of_nat (length (images tiff)))).
  2:{ rewrite (bind_value _ _ _ _ _ (emit_run _ _)), after_after. reflexivity. }
  rewrite (bind_value _ _ _ _ _ (getImage_ok tiff 0 base _ Hbase)).
  rewrite after_after. simpl app.
  rewrite Hbbox, Hin2. change (negb true) with false. cbv iota.
  reflexivity.
Qed.

(** The hard limit on a slope tile: two error messages, the canvas is
    cleared, [done(undefined, canvas)], and the function returns. *)
Lemma chooseOverview_slope_abort env canvas tiff tb ib s first :
  let imgs := images tiff in
  let n := length imgs in
  let choice := scanChoice imgs tb ib n
                  (mkChoice (Z.of_nat (n - 1)) first (computeSourcePixels tb ib first)) in
  imgs !! (n - 1)%nat = Some first ->
  (HARD_LIMIT_SOURCE_PIXELS < chosenPixels choice)%Z ->
  chooseOverview env slope canvas tiff (Z.of_nat n) tb ib s
  = (after (cleared env canvas
              (after s (EvGetImage (Z.of_nat (n - 1)) :: scanEvents imgs tb ib n
                        ++ [EvConsole Err (MsgTooCoarse (chosenPixels choice));
                            EvConsole Err MsgGdaladdoHint])))
       [EvDone None],
     Returned).
Proof.
  intros imgs n choice Hfirst Hhard. unfold chooseOverview.
  rewrite (bind_value _ _ _ _ _ (selectOverview_run tiff tb ib s first Hfirst)).
  fold imgs n choice.
  replace (chosenPixels choice >? HARD_LIMIT_SOURCE_PIXELS)%Z with true
    by (symmetry; apply Z.gtb_lt; exact Hhard).
  unfold console. rewrite (bind_value _ _ _ _ _ (emit_run _ _)).
  rewrite (bind_value _ _ _ _ _ (emit_run _ _)).
  rewrite !after_after.
  rewrite (bind_value _ _ _ _ _ (clearCanvas_run _ _ _)).
  unfold done. rewrite (bind_value _ _ _ _ _ (emit_run _ _)).
  unfold return_. simpl app. rewrite <- ?app_assoc. reflexivity.
Qed.

(** The hard limit on a fuel tile: a warning, and the smallest overview. *)
Lemma chooseOverview_fuel_fallback env canvas tiff tb ib s first :
  let imgs := images tiff in
  let n := length imgs in
  let choice := scanChoice imgs tb ib n
                  (mkChoice (Z.of_nat (n - 1)) first (computeSourcePixels tb ib first)) in
  imgs !! (n - 1)%nat = Some first ->
  (HARD_LIMIT_SOURCE_PIXELS < chosenPixels choice)%Z ->
  chooseOverview env fuel canvas tiff (Z.of_nat n) tb ib s
  = (after s (EvGetImage (Z.of_nat (n - 1)) :: scanEvents imgs tb ib n
              ++ [EvConsole Warn (MsgHardLimitFallback (chosenPixels choice)
                                    (Z.of_nat (n - 1)));
                  EvGetImage (Z.of_nat (n - 1))]),
     Value (mkChoice (Z.of_nat (n - 1)) first (computeSourcePixels tb ib first))).
Proof.
  intros imgs n choice Hfirst Hhard. unfold chooseOverview.
  assert (Hn : (0 < n)%nat).
  { apply lookup_lt_Some in Hfirst. fold n in Hfirst. lia. }
  rewrite (bind_value _ _ _ _ _ (selectOverview_run tiff tb ib s first Hfirst)).
  fold imgs n choice.
  replace (chosenPixels choice >? HARD_LIMIT_SOURCE_PIXELS)%Z with true
    by (symmetry; apply Z.gtb_lt; exact Hhard).
  unfold console. rewrite (bind_value _ _ _ _ _ (emit_run _ _)).
  replace (Z.of_nat n - 1)%Z with (Z.of_nat (n - 1)) by lia.
  rewrite (bind_value _ _ _ _ _ (getImage_ok tiff (n - 1) first _ Hfirst)).
  rewrite !after_after. unfold ret. simpl app. rewrite <- ?app_assoc. reflexivity.
Qed.

(** Below the hard limit the selection stands. *)
Lemma chooseOverview_within env layerName canvas tiff tb ib s first :
  let imgs := images tiff in
  let n := length imgs in
  let choice := scanChoice imgs tb ib n
                  (mkChoice (Z.of_nat (n - 1)) first (computeSourcePixels tb ib first)) in
  imgs !! (n - 1)%nat = Some first ->
  (chosenPixels choice <= HARD_LIMIT_SOURCE_PIXELS)%Z ->
  chooseOverview env layerName canvas tiff (Z.of_nat n) tb ib s
  = (after s (EvGetImage (Z.of_nat (n - 1)) :: scanEvents imgs tb ib n),
     Value choice).
Proof.
  intros imgs n choice Hfirst Hhard. unfold chooseOverview.
  rewrite (bind_value _ _ _ _ _ (selectOverview_run tiff tb ib s first Hfirst)).
  fold imgs n choice.
  replace (chosenPixels choice >? HARD_LIMIT_SOURCE_PIXELS)%Z with false; [reflexivity|].
  symmetry. rewrite Z.gtb_ltb. apply Z.ltb_ge. exact Hhard.
Qed.

(** When no image fits the budget the scan keeps the choice it started
    with. *)
Lemma scanChoice_none_fits imgs tb ib n cur :
  (n <= length imgs)%nat ->
  (forall j img, imgs !! j = Some img ->
     (SAFE_SOURCE_PIXELS < computeSourcePixels tb ib img)%Z) ->
  scanChoice imgs tb ib n cur = cur.
Proof.
  intros Hn Hnone.
  destruct (scan_spec imgs tb ib n cur Hn) as
    [(Hc & _) | (i & img & Hi & Himg & _ & Hfit & _)]; [exact Hc|].
  apply fitsBudget_true in Hfit. specialize (Hnone i img Himg). lia.
Qed.

(** **** The read *)

Lemma readRastersOf_run env level bbox w h s :
  readRastersOf env level bbox w h s
  = (after s [EvReadRasters level bbox w h],
     match readRasters env (length (reads (trace s))) level with
     | Some r => Value r
     | None => Thrown (ReadFailed (length (reads (trace s))))
     end).
Proof.
  unfold readRastersOf. rewrite emit_run. fold (reads (trace s)).
  destruct (readRasters env _ level); reflexivity.
Qed.

Lemma reads_after_count s evs :
  length (reads (trace (after s evs)))
  = (length (reads (trace s)) + length (reads evs))%nat.
Proof. unfold after; simpl. now rewrite reads_app, length_app. Qed.

(** The read succeeds at once. *)
Lemma readChosen_first env canvas tiff imageCount imgBbox choice s r :
  readRasters env (length (reads (trace s))) (chosenIndex choice) = Some r ->
  readChosen env canvas tiff imageCount imgBbox choice s
  = (after s [EvReadRasters (chosenIndex choice) imgBbox (width canvas) (width canvas)],
     Value r).
Proof.
  intros Hr. unfold readChosen, tryCatch.
  rewrite readRastersOf_run, Hr. reflexivity.
Qed.

(** The read fails: one more read, on the smallest overview. *)
Lemma readChosen_retry env canvas tiff imgBbox choice s first :
  let n := length (images tiff) in
  let w := width canvas in
  let c := length (reads (trace s)) in
  images tiff !! (n - 1)%nat = Some first ->
  readRasters env c (chosenIndex choice) = None ->
  readChosen env canvas tiff (Z.of_nat n) imgBbox choice s
  = match readRasters env (S c) (Z.of_nat (n - 1)) with
    | Some r =>
        (after s [EvReadRasters (chosenIndex choice) imgBbox w w;
                  EvConsole Warn (MsgReadFailed (chosenIndex choice) (ReadFailed c));
                  EvGetImage (Z.of_nat (n - 1));
                  EvReadRasters (Z.of_nat (n - 1)) imgBbox w w;
                  EvConsole Warn (MsgFallbackSucceeded (Z.of_nat (n - 1)))],
         Value r)
    | None =>
        (after s [EvReadRasters (chosenIndex choice) imgBbox w w;
                  EvConsole Warn (MsgReadFailed (chosenIndex choice) (ReadFailed c));
                  EvGetImage (Z.of_nat (n - 1));
                  EvReadRasters (Z.of_nat (n - 1)) imgBbox w w;
                  EvConsole Err (MsgFallbackFailed (ReadFailed (S c)));
                  EvDone (Some (ReadFailed (S c)))],
         Returned)
    end.
Proof.
  intros n w c Hfirst Hfail.
  assert (Hn : (0 < n)%nat).
  { apply lookup_lt_Some in Hfirst. fold n in Hfirst. lia. }
  unfold readChosen. unfold tryCatch at 1.
  rewrite readRastersOf_run. fold c. rewrite Hfail.
  unfold console at 1. rewrite (bind_value _ _ _ _ _ (emit_run _ _)).
  rewrite after_after. simpl app.
  unfold tryCatch.
  replace (Z.of_nat n - 1)%Z with (Z.of_nat (n - 1)) by lia.
  rewrite (bind_value _ _ _ _ _ (getImage_ok tiff (n - 1) first _ Hfirst)).
  rewrite after_after. simpl app.
  unfold bind at 1. rewrite readRastersOf_run.
  rewrite reads_after_count. fold c.
  replace (c + length (reads _))%nat with (S c) by (simpl; lia).
  fold w.
  destruct (readRasters env (S c) (Z.of_nat (n - 1))) as [r|].
  - unfold console. rewrite (bind_value _ _ _ _ _ (emit_run _ _)).
    rewrite !after_after. reflexivity.
  - unfold console, done. rewrite (bind_value _ _ _ _ _ (emit_run _ _)).
    rewrite (bind_value _ _ _ _ _ (emit_run _ _)).
    rewrite !after_after. reflexivity.
Qed.

(** **** Computations that leave the reader alone *)

Lemma appends_ret {A} P (a : A) : appends P (ret a).
Proof. intros s. exists []. simpl. now rewrite app_nil_r. Qed.

Lemma appends_throw {A} P e : appends P (@throw A e).
Proof. intros s. exists []. simpl. now rewrite app_nil_r. Qed.

Lemma appends_return {A} P : appends P (@return_ A).
Proof. intros s. exists []. simpl. now rewrite app_nil_r. Qed.

Lemma appends_emit (P : Event -> Prop) ev : P ev -> appends P (emit ev).
Proof. intros H s. exists [ev]. simpl. split; [reflexivity | now constructor]. Qed.

Lemma appends_setSurface P f : appends P (setSurface f).
Proof. intros s. exists []. simpl. now rewrite app_nil_r. Qed.

Lemma appends_setLegendCache P l : appends P (setLegendCache l).
Proof. intros s. exists []. simpl. now rewrite app_nil_r. Qed.

Lemma appends_getLegendCache P : appends P getLegendCache.
Proof. intros s. exists []. simpl. now rewrite app_nil_r. Qed.

Lemma appends_bind {A B} P (m : M A) (k : A -> M B) :
  appends P m -> (forall a, appends P (k a)) -> appends P (bind m k).
Proof.
  intros Hm Hk s. unfold bind. destruct (Hm s) as (e1 & Ht1 & HP1).
  destruct (m s) as [s1 [a| |e]]; simpl in *.
  - destruct (Hk a s1) as (e2 & Ht2 & HP2). exists (e1 ++ e2).
    rewrite Ht2, Ht1, app_assoc. split; [reflexivity | now apply Forall_app].
  - exists e1. auto.
  - exists e1. auto.
Qed.

Lemma appends_tryCatch {A} P (m : M A) (h : Error -> M A) :
  appends P m -> (forall e, appends P (h e)) -> appends P (tryCatch m h).
Proof.
  intros Hm Hh s. unfold tryCatch. destruct (Hm s) as (e1 & Ht1 & HP1).
  destruct (m s) as [s1 [a| |e]]; simpl in *.
  - exists e1. auto.
  - exists e1. auto.
  - destruct (Hh e s1) as (e2 & Ht2 & HP2). exists (e1 ++ e2).
    rewrite Ht2, Ht1, app_assoc. split; [reflexivity | now apply Forall_app].
Qed.

Lemma fetchFuelLegend_quiet env : appends notRead (fetchFuelLegend env).
Proof.
  unfold fetchFuelLegend. apply appends_bind; [apply appends_getLegendCache|].
  intros [legend|]; [apply appends_ret|].
  apply appends_bind; [now apply appends_emit|]. intros _.
  destruct (legendResponse env).
  - apply appends_bind; [apply appends_setLegendCache | intros; apply appends_ret].
  - apply appends_bind; [now apply appends_emit | intros; apply appends_ret].
Qed.

(** From the band to the canvas no read is issued. *)
Lemma colorize_quiet env layerName canvas rasters :
  appends notRead (colorize env layerName canvas rasters).
Proof.
  unfold colorize. destruct (negb (getContext2d env)).
  - apply appends_bind; [now apply appends_emit | intros; apply appends_return].
  - apply appends_bind.
    { unfold createImageData. destruct (width canvas =? 0)%nat;
        [apply appends_throw | apply appends_ret]. }
    intros data. apply appends_bind.
    { destruct layerName; [|apply appends_ret].
      apply appends_bind; [apply fetchFuelLegend_quiet | intros; apply appends_ret]. }
    intros legend.
    destruct (match rasters with BandArray bands => head bands | TypedArray b => Some b end);
      [|apply appends_throw].
    apply appends_bind; [now apply appends_emit|]. intros _.
    apply appends_bind; [apply appends_setSurface|]. intros _.
    now apply appends_emit.
Qed.

(** After the selection: the message, the read with its retry, the
    colorizer.  Every read asks for the bounding box of the image and a
    grid of [canvas.width] by [canvas.width]; there is one read, or two
    when the first fails. *)
Lemma afterSelection_reads env layerName canvas tiff z imgBbox choice s first :
  let n := length (images tiff) in
  let w := width canvas in
  let c := length (reads (trace s)) in
  images tiff !! (n - 1)%nat = Some first ->
  exists evs,
    trace (fst ((console Log (MsgUsingOverview (chosenIndex choice) z (chosenPixels choice)) ;;
                 rasters <- readChosen env canvas tiff (Z.of_nat n) imgBbox choice ;;
                 colorize env layerName canvas rasters) s))
    = trace s ++ evs /\
    reads evs
    = match readRasters env c (chosenIndex choice) with
      | Some _ => [EvReadRasters (chosenIndex choice) imgBbox w w]
      | None => [EvReadRasters (chosenIndex choice) imgBbox w w;
                 EvReadRasters (Z.of_nat (n - 1)) imgBbox w w]
      end.
Proof.
  intros n w c Hfirst.
  unfold console. rewrite (bind_value _ _ _ _ _ (emit_run _ _)).
  set (s1 := after s [EvConsole Log
                        (MsgUsingOverview (chosenIndex choice) z (chosenPixels choice))]).
  assert (Hc : length (reads (trace s1)) = c).
  { unfold s1. rewrite reads_after_count. simpl. fold c. lia. }
  destruct (readRasters env c (chosenIndex choice)) as [r|] eqn:Hr.
  - rewrite (bind_value _ _ _ _ _
               (readChosen_first env canvas tiff _ imgBbox choice s1 r
                  ltac:(rewrite Hc; exact Hr))).
    destruct (colorize_quiet env layerName canvas r
                (after s1 [EvReadRasters (chosenIndex choice) imgBbox
                             (width canvas) (width canvas)]))
      as (evs & Ht & Hq).
    exists ([EvConsole Log (MsgUsingOverview (chosenIndex choice) z (chosenPixels choice));
             EvReadRasters (chosenIndex choice) imgBbox w w] ++ evs). split.
    + rewrite Ht. unfold s1; simpl. rewrite <- !app_assoc. reflexivity.
    + rewrite reads_app, (reads_quiet evs Hq). reflexivity.
  - pose proof (readChosen_retry env canvas tiff imgBbox choice s1 first Hfirst) as Hretry.
    cbv zeta in Hretry. rewrite Hc in Hretry. specialize (Hretry Hr).
    fold n in Hretry.
    destruct (readRasters env (S c) (Z.of_nat (n - 1))) as [r2|].
    + rewrite (bind_value _ _ _ _ _ Hretry).
      match goal with |- context [colorize _ _ _ _ ?st] =>
        destruct (colorize_quiet env layerName canvas r2 st) as (evs & Ht & Hq) end.
      exists ([EvConsole Log (MsgUsingOverview (chosenIndex choice) z (chosenPixels choice));
               EvReadRasters (chosenIndex choice) imgBbox w w;
               EvConsole Warn (MsgReadFailed (chosenIndex choice) (ReadFailed c));
               EvGetImage (Z.of_nat (n - 1));
               EvReadRasters (Z.of_nat (n - 1)) imgBbox w w;
               EvConsole Warn (MsgFallbackSucceeded (Z.of_nat (n - 1)))] ++ evs). split.
      * rewrite Ht. unfold s1; simpl. rewrite <- !app_assoc. reflexivity.
      * rewrite reads_app, (reads_quiet evs Hq). reflexivity.
    + rewrite (bind_returned _ _ _ _ Hretry).
      eexists. split.
      * unfold s1; simpl. rewrite <- !app_assoc. reflexivity.
      * reflexivity.
Qed.

(** [renderCogTile] adds to the body only the report of a thrown error. *)
Lemma renderCogTile_trace env cogUrl layerName x y z canvas s :
  exists tail,
    trace (fst (renderCogTile env cogUrl layerName x y z canvas s))
    = trace (fst (renderBody env cogUrl layerName x y z canvas s)) ++ tail /\
    reads tail = [].
Proof.
  unfold renderCogTile, tryCatch.
  destruct (renderBody env cogUrl layerName x y z canvas s) as [s1 [a| |e]]; simpl.
  - exists []. now rewrite app_nil_r.
  - exists []. now rewrite app_nil_r.
  - exists [EvConsole Err (MsgThrottledError e); EvDone (Some e)].
    rewrite <- app_assoc. split; reflexivity.
Qed.

Lemma openEvents_quiet cogUrl layerName x y z :
  reads (openEvents cogUrl layerName x y z) = [].
Proof. reflexivity. Qed.

(** **** The estimate on the sample raster *)

Lemma ceil_IZR (k : Z) : ceil (IZR k) = k.
Proof.
  unfold ceil, Zceil. rewrite <- opp_IZR, ZfloorZ. lia.
Qed.

(** For a tile that spans longitudes -90 to -45 and latitudes 0 to above
    30, the window on [rasterBox] is 30 of 70 degrees wide and 10 of 10
    degrees high. *)
Lemma computeSourcePixels_raster tb (k h : Z) :
  minLon tb = (-90)%R -> maxLon tb = (-45)%R ->
  minLat tb = 0%R -> (30 < maxLat tb)%R ->
  computeSourcePixels tb rasterBox (rasterImage (7 * k) h) = (3 * k * h)%Z.
Proof.
  intros H1 H2 H3 H4. unfold computeSourcePixels.
  rewrite H1, H2, H3. unfold rasterBox, rasterImage.
  cbn [minLon minLat maxLon maxLat getWidth getHeight].
  rewrite (Rmax_left (-90) (-130)) by lra.
  rewrite (Rmin_right (-45) (-60)) by lra.
  rewrite (Rmax_right 0 20) by lra.
  rewrite (Rmin_right (maxLat tb) 30) by lra.
  replace (leb (-60) (-90)) with false by (symmetry; apply leb_false; lra).
  replace (leb 30 20) with false by (symmetry; apply leb_false; lra).
  cbn [orb].
  replace ((-60 - -90) / (-60 - -130) * IZR (7 * k))%R with (IZR (3 * k)).
  2:{ rewrite !mult_IZR. field. }
  replace ((30 - 20) / (30 - 20) * IZR h)%R with (IZR h) by field.
  now rewrite !ceil_IZR.
Qed.

Lemma estimate_3_2_3 (k h : Z) :
  computeSourcePixels (tileToBBox 2 3 3) rasterBox (rasterImage (7 * k) h)
  = (3 * k * h)%Z.
Proof.
  destruct tile_3_2_3 as (H1 & H2 & H3 & H4).
  now apply computeSourcePixels_raster.
Qed.

(** **** The hard limit *)

Lemma reads_skip ev t : isRead ev = false -> reads (ev :: t) = reads t.
Proof.
  intros H. unfold reads. rewrite filter_cons, H.
  destruct (decide (false = true)); [discriminate | reflexivity].
Qed.

Lemma reads_keep ev t : isRead ev = true -> reads (ev :: t) = ev :: reads t.
Proof.
  intros H. unfold reads. rewrite filter_cons, H.
  destruct (decide (true = true)); [reflexivity | contradiction].
Qed.

Lemma deliveries_cons ev t :
  deliveries (ev :: t)
  = match ev with EvDone err => err :: deliveries t | _ => deliveries t end.
Proof. destruct ev; reflexivity. Qed.

Lemma clearEvents_no_read env canvas : reads (clearEvents env canvas) = [].
Proof. unfold clearEvents. destruct (getContext2d env); reflexivity. Qed.

Lemma clearEvents_no_delivery env canvas : deliveries (clearEvents env canvas) = [].
Proof. unfold clearEvents. destruct (getContext2d env); reflexivity. Qed.

(** Normal form of [reads] and [deliveries] over an explicit trace. *)
Ltac observe :=
  repeat first
    [ rewrite reads_app | rewrite deliveries_app
    | rewrite reads_skip by reflexivity
    | rewrite reads_keep by reflexivity
    | rewrite deliveries_cons
    | rewrite (reads_quiet (scanEvents _ _ _ _)) by apply scanEvents_quiet
    | rewrite scanEvents_no_delivery
    | rewrite clearEvents_no_read | rewrite clearEvents_no_delivery ];
  cbn [app].

(** The value of the selection does not depend on the state. *)
Lemma selectOverview_value tiff tb ib s0 s1 choice first :
  let imgs := images tiff in
  let n := length imgs in
  imgs !! (n - 1)%nat = Some first ->
  selectOverview tiff (Z.of_nat n) tb ib s0 = (s1, Value choice) ->
  choice = scanChoice imgs tb ib n
             (mkChoice (Z.of_nat (n - 1)) first (computeSourcePixels tb ib first)).
Proof.
  intros imgs n Hfirst Hsel.
  pose proof (selectOverview_run tiff tb ib s0 first Hfirst) as Hrun.
  cbv zeta in Hrun. fold imgs n in Hrun. rewrite Hrun in Hsel.
  injection Hsel as _ Hc. now symmetry.
Qed.

(** A choice above the hard limit is the one the scan started with: the
    scan only ever picks an image within the soft budget. *)
Lemma scanChoice_above_hard imgs tb ib n cur :
  (n <= length imgs)%nat ->
  (HARD_LIMIT_SOURCE_PIXELS < chosenPixels (scanChoice imgs tb ib n cur))%Z ->
  scanChoice imgs tb ib n cur = cur.
Proof.
  intros Hn Hhard.
  destruct (scan_spec imgs tb ib n cur Hn) as
    [(Hc & _) | (i & img & _ & _ & Hc & Hfit & _)]; [exact Hc|].
  rewrite Hc in Hhard. cbn [chosenPixels] in Hhard.
  apply fitsBudget_true in Hfit.
  unfold SAFE_SOURCE_PIXELS, HARD_LIMIT_SOURCE_PIXELS in *. lia.
Qed.

(** C1, as amended. When the estimate of the chosen overview exceeds
    [HARD_LIMIT_SOURCE_PIXELS] (50,000,000), the chosen overview is the
    coarsest one, and a slope tile is aborted before any read: the renderer
    logs the "too coarse" error, clears the canvas and calls
    [done(undefined, canvas)], so the caller receives a transparent tile
    and no error value.  A fuel tile goes on and reads the coarsest
    overview. *)
Theorem hard_limit_policy (env : Env) (cogUrl : string) (x y z : Z)
    (canvas : Canvas) (tiff : Tiff) (base : Image) (imgBbox : BBox)
    (choice : Choice) (s s0 s1 : State) :
  let tileBounds := tileToBBox x y z in
  let n := length (images tiff) in
  bboxesIntersect tileBounds COG_BOUNDS = true ->
  fromUrl env cogUrl = Some tiff ->
  images tiff !! 0%nat = Some base ->
  imageBBox base = Some imgBbox ->
  bboxesIntersect tileBounds imgBbox = true ->
  selectOverview tiff (Z.of_nat n) tileBounds imgBbox s0 = (s1, Value choice) ->
  (HARD_LIMIT_SOURCE_PIXELS < chosenPixels choice)%Z ->
  HARD_LIMIT_SOURCE_PIXELS = 50000000%Z /\
  chosenIndex choice = Z.of_nat (n - 1) /\
  (let run := renderCogTile env cogUrl slope x y z canvas s in
   snd run = Returned /\
   surface (fst run) = (if getContext2d env then Transparent else surface s) /\
   exists evs, trace (fst run) = trace s ++ evs /\
     reads evs = [] /\
     deliveries evs = [None] /\
     EvConsole Err (MsgTooCoarse (chosenPixels choice)) ∈ evs) /\
  (let run := renderCogTile env cogUrl fuel x y z canvas s in
   exists evs, trace (fst run) = trace s ++ evs /\
     head (reads evs)
     = Some (EvReadRasters (Z.of_nat (n - 1)) imgBbox (width canvas) (width canvas))).
Proof.
  intros tb n Hin Hopen Hbase Hbbox Hin2 Hsel Hhard.
  set (imgs := images tiff) in *.
  split; [reflexivity|].
  destruct (lookup_lt_is_Some_2 imgs (n - 1)) as [coarsest Hlast].
  { apply lookup_lt_Some in Hbase. fold n in Hbase. lia. }
  set (cur := mkChoice (Z.of_nat (n - 1)) coarsest
                (computeSourcePixels tb imgBbox coarsest)).
  pose proof (selectOverview_value tiff tb imgBbox s0 s1 choice coarsest Hlast Hsel)
    as Hscan.
  fold imgs n cur in Hscan.
  assert (Hchoice : scanChoice imgs tb imgBbox n cur = cur).
  { apply scanChoice_above_hard; [reflexivity|]. now rewrite <- Hscan. }
  rewrite Hchoice in Hscan. subst choice. cbn [chosenIndex chosenPixels cur] in *.
  split; [reflexivity|].
  split.
  - (* slope *)
    unfold renderCogTile, tryCatch.
    rewrite (renderBody_reaches env cogUrl slope x y z canvas tiff base imgBbox s
               Hin Hopen Hbase Hbbox Hin2).
    fold tb imgs n.
    rewrite (bind_returned _ _ _ _
               (chooseOverview_slope_abort env canvas tiff tb imgBbox _ coarsest
                  Hlast ltac:(fold imgs n cur; rewrite Hchoice; exact Hhard))).
    fold imgs n cur. rewrite Hchoice. cbn [chosenPixels cur fst snd].
    split; [reflexivity|]. split.
    + unfold after at 1. cbn [surface]. rewrite cleared_surface.
      reflexivity.
    + eexists. split.
      * unfold after at 1. cbn [trace]. rewrite cleared_trace.
        unfold after; cbn [trace]. rewrite <- !app_assoc. reflexivity.
      * unfold openEvents. repeat split.
        -- observe. reflexivity.
        -- observe. reflexivity.
        -- apply elem_of_app. right. apply elem_of_app. left.
           apply elem_of_cons. right. apply elem_of_app. right.
           apply elem_of_cons. now left.
  - (* fuel *)
    cbv zeta.
    destruct (renderCogTile_trace env cogUrl fuel x y z canvas s)
      as (tail & Ht & Htail).
    rewrite Ht.
    rewrite (renderBody_reaches env cogUrl fuel x y z canvas tiff base imgBbox s
               Hin Hopen Hbase Hbbox Hin2).
    fold tb imgs n.
    rewrite (bind_value _ _ _ _ _
               (chooseOverview_fuel_fallback env canvas tiff tb imgBbox _ coarsest
                  Hlast ltac:(fold imgs n cur; rewrite Hchoice; exact Hhard))).
    fold imgs n cur. rewrite Hchoice.
    match goal with |- context [bind _ _ ?st] =>
      destruct (afterSelection_reads env fuel canvas tiff z imgBbox cur st coarsest Hlast)
        as (evs & Hevs & Hreads) end.
    fold imgs n in Hevs, Hreads. rewrite Hevs.
    eexists. split.
    + unfold after; cbn [trace]. rewrite <- !app_assoc. reflexivity.
    + unfold openEvents. observe. rewrite Htail, Hreads.
      cbn [chosenIndex cur].
      destruct (readRasters env _ _); reflexivity.
Qed.

Lemma coarse_estimate :
  computeSourcePixels (tileToBBox 2 3 3) rasterBox (rasterImage 70000 2000)
  = 60000000%Z.
Proof.
  change 70000%Z with (7 * 10000)%Z. now rewrite estimate_3_2_3.
Qed.

Lemma coarse_none_fits j img :
  images coarseTiff !! j = Some img ->
  (SAFE_SOURCE_PIXELS < computeSourcePixels (tileToBBox 2 3 3) rasterBox img)%Z.
Proof.
  destruct j as [|j]; simpl; [|destruct j; discriminate].
  intros H. injection H as <-. rewrite coarse_estimate. reflexivity.
Qed.

(** On the one-image raster the selection keeps that image, estimated at
    60,000,000 source pixels for tile z = 3, x = 2, y = 3. *)
Lemma coarse_selection :
  selectOverview coarseTiff 1 (tileToBBox 2 3 3) rasterBox initialState
  = (after initialState
       (EvGetImage 0 :: scanEvents (images coarseTiff) (tileToBBox 2 3 3) rasterBox 1),
     Value (mkChoice 0 (rasterImage 70000 2000) 60000000)).
Proof.
  pose proof (selectOverview_run coarseTiff (tileToBBox 2 3 3) rasterBox initialState
                (rasterImage 70000 2000) eq_refl) as Hrun.
  cbv zeta in Hrun.
  change (length (images coarseTiff)) with 1%nat in Hrun.
  change (Z.of_nat (1 - 1)) with 0%Z in Hrun. change (Z.of_nat 1) with 1%Z in Hrun.
  rewrite Hrun.
  rewrite scanChoice_none_fits; [|reflexivity|apply coarse_none_fits].
  now rewrite coarse_estimate.
Qed.

Lemma hard_limit_policy_witness :
  let run := renderCogTile (serving coarseTiff None) "/api/cog/slope" slope
               2 3 3 aCanvas initialState in
  snd run = Returned /\
  surface (fst run) = Transparent /\
  exists evs, trace (fst run) = evs /\
    reads evs = [] /\
    deliveries evs = [None] /\
    EvConsole Err (MsgTooCoarse 60000000) ∈ evs.
Proof.
  destruct (hard_limit_policy (serving coarseTiff None) "/api/cog/slope"
              2 3 3 aCanvas coarseTiff (rasterImage 70000 2000) rasterBox
              (mkChoice 0 (rasterImage 70000 2000) 60000000)
              initialState initialState _
              tile_3_2_3_in_bounds eq_refl eq_refl eq_refl
              tile_3_2_3_in_raster coarse_selection eq_refl)
    as (_ & _ & Hslope & _).
  exact Hslope.
Defined.

(** The slope tile z = 3, x = 2, y = 3 over a raster whose only image is
    estimated at 60,000,000 source pixels: the single call of [done]
    carries no error. *)
Lemma too_coarse_is_not_a_failure :
  let run := renderCogTile (serving coarseTiff None) "/api/cog/slope" slope
               2 3 3 aCanvas initialState in
  (HARD_LIMIT_SOURCE_PIXELS
   < computeSourcePixels (tileToBBox 2 3 3) rasterBox (rasterImage 70000 2000))%Z /\
  snd run = Returned /\
  deliveries (trace (fst run)) = [None].
Proof.
  cbv zeta. rewrite coarse_estimate. split; [reflexivity|].
  unfold renderCogTile, tryCatch.
  rewrite (renderBody_reaches (serving coarseTiff None) "/api/cog/slope" slope
             2 3 3 aCanvas coarseTiff (rasterImage 70000 2000) rasterBox initialState
             tile_3_2_3_in_bounds eq_refl eq_refl eq_refl tile_3_2_3_in_raster).
  assert (Hscan : scanChoice (images coarseTiff) (tileToBBox 2 3 3) rasterBox
                    (length (images coarseTiff))
                    (mkChoice (Z.of_nat (length (images coarseTiff) - 1))
                       (rasterImage 70000 2000)
                       (computeSourcePixels (tileToBBox 2 3 3) rasterBox
                          (rasterImage 70000 2000)))
                  = mkChoice 0 (rasterImage 70000 2000) 60000000).
  { rewrite scanChoice_none_fits; [|reflexivity|apply coarse_none_fits].
    now rewrite coarse_estimate. }
  rewrite (bind_returned _ _ _ _
             (chooseOverview_slope_abort (serving coarseTiff None) aCanvas coarseTiff
                (tileToBBox 2 3 3) rasterBox _ (rasterImage 70000 2000) eq_refl
                ltac:(rewrite Hscan; reflexivity))).
  cbn [fst snd]. split; [reflexivity|].
  unfold after at 1. cbn [trace]. rewrite cleared_trace.
  unfold after; cbn [trace initialState]. unfold openEvents.
  observe. reflexivity.
Qed.

(** **** The read and its retry *)

(** C6. When the read on the chosen overview fails, the renderer reads once
    more, on the smallest overview, with the same box and size; it calls
    [done] with the error and returns only when this second read fails
    too, and otherwise goes on with the rasters of the second read. *)
Theorem read_retry_once (env : Env) (canvas : Canvas) (tiff : Tiff)
    (imgBbox : BBox) (choice : Choice) (s : State) (smallest : Image) :
  let n := length (images tiff) in
  let w := width canvas in
  let c := length (reads (trace s)) in
  images tiff !! (n - 1)%nat = Some smallest ->
  readRasters env c (chosenIndex choice) = None ->
  let run := readChosen env canvas tiff (Z.of_nat n) imgBbox choice s in
  exists evs, trace (fst run) = trace s ++ evs /\
    reads evs = [EvReadRasters (chosenIndex choice) imgBbox w w;
                 EvReadRasters (Z.of_nat (n - 1)) imgBbox w w] /\
    match readRasters env (S c) (Z.of_nat (n - 1)) with
    | Some rasters => snd run = Value rasters /\ deliveries evs = []
    | None => snd run = Returned /\ deliveries evs = [Some (ReadFailed (S c))]
    end.
Proof.
  intros n w c Hlast Hfail run.
  pose proof (readChosen_retry env canvas tiff imgBbox choice s smallest Hlast Hfail)
    as Hrun.
  fold n w c in Hrun. unfold run.
  destruct (readRasters env (S c) (Z.of_nat (n - 1))) as [r|];
    rewrite Hrun; cbn [fst snd]; eexists; (split; [reflexivity|]);
    (split; [reflexivity|]); split; reflexivity.
Qed.

Lemma read_retry_once_witness :
  let run := readChosen (serving pyramidTiff None) aCanvas pyramidTiff 2
               rasterBox (mkChoice 0 (rasterImage 7000 2000) 6000000)
               initialState in
  exists evs, trace (fst run) = evs /\
    reads evs = [EvReadRasters 0 rasterBox 256 256;
                 EvReadRasters 1 rasterBox 256 256] /\
    snd run = Returned /\ deliveries evs = [Some (ReadFailed 1)].
Proof.
  destruct (read_retry_once (serving pyramidTiff None) aCanvas pyramidTiff
              rasterBox (mkChoice 0 (rasterImage 7000 2000) 6000000)
              initialState (rasterImage 70 20) eq_refl eq_refl)
    as (evs & Ht & Hr & Hout & Hd).
  exists evs. repeat split; assumption.
Defined.

(** **** The window that is read *)

Lemma pyramid_choice :
  scanChoice (images pyramidTiff) (tileToBBox 2 3 3) rasterBox 2
    (mkChoice 1 (rasterImage 70 20)
       (computeSourcePixels (tileToBBox 2 3 3) rasterBox (rasterImage 70 20)))
  = mkChoice 1 (rasterImage 70 20) 600.
Proof.
  cbn [scanChoice images pyramidTiff lookup list_lookup].
  change 70%Z with (7 * 10)%Z. rewrite estimate_3_2_3. reflexivity.
Qed.

(** C2. The fuel tile z = 3, x = 2, y = 3 over the sample raster: the one
    read asks for a 256 by 256 grid over the bounding box of the whole
    image, [[-130, 20, -60, 30]], which is not the footprint of the tile
    (its western edge is at -90). *)
Theorem read_window_is_image_box :
  let env := serving pyramidTiff (Some (TypedArray [])) in
  let run := createTile env fuel 2 3 3 initialState in
  reads (trace (fst run)) = [EvReadRasters 1 rasterBox 256 256] /\
  imageBBox (rasterImage 7000 2000) = Some rasterBox /\
  tileToBBox 2 3 3 <> rasterBox /\
  minLon (tileToBBox 2 3 3) = (-90)%R /\ minLon rasterBox = (-130)%R.
Proof.
  cbv zeta. split; [|repeat split; [apply tile_3_2_3_not_raster | apply tile_3_2_3]].
  unfold createTile, bind at 1, setSurface. cbn [layerUrl].
  set (env := serving pyramidTiff (Some (TypedArray []))).
  set (s0 := mkState (trace initialState) (fuelLegendCache initialState) Transparent).
  destruct (renderCogTile_trace env "/api/cog/fuel" fuel 2 3 3 (mkCanvas 256 256) s0)
    as (tail & Ht & Htail).
  rewrite Ht.
  rewrite (renderBody_reaches env "/api/cog/fuel" fuel 2 3 3 (mkCanvas 256 256)
             pyramidTiff (rasterImage 7000 2000) rasterBox s0
             tile_3_2_3_in_bounds eq_refl eq_refl eq_refl tile_3_2_3_in_raster).
  rewrite (bind_value _ _ _ _ _
             (chooseOverview_within env fuel (mkCanvas 256 256) pyramidTiff
                (tileToBBox 2 3 3) rasterBox _ (rasterImage 70 20) eq_refl
                ltac:(change (length (images pyramidTiff)) with 2%nat;
                      change (Z.of_nat (2 - 1)) with 1%Z;
                      rewrite pyramid_choice; cbn; discriminate))).
  change (length (images pyramidTiff)) with 2%nat.
  change (Z.of_nat (2 - 1)) with 1%Z. change (Z.of_nat 2) with 2%Z.
  rewrite pyramid_choice.
  match goal with |- context [bind _ _ ?st] =>
    destruct (afterSelection_reads env fuel (mkCanvas 256 256) pyramidTiff 3
                rasterBox (mkChoice 1 (rasterImage 70 20) 600) st
                (rasterImage 70 20) eq_refl)
      as (evs & Hevs & Hreads) end.
  change (length (images pyramidTiff)) with 2%nat in Hevs, Hreads.
  change (Z.of_nat (2 - 1)) with 1%Z in Hevs, Hreads.
  change (Z.of_nat 2) with 2%Z in Hevs.
  rewrite Hevs. unfold after; cbn [trace s0 initialState]. unfold openEvents.
  observe. rewrite Htail, Hreads. reflexivity.
Qed.

(** **** Witnesses for the quick skip and the selection *)

Lemma outside_bounds_is_transparent_witness :
  let s' := fst (createTile (serving coarseTiff None) slope 2 3 4 initialState) in
  surface s' = Transparent /\
  exists evs, trace s' = evs /\
    Forall (fun ev => isNetwork ev = false) evs /\
    deliveries evs = [None].
Proof.
  destruct (outside_bounds_is_transparent (serving coarseTiff None)
              "/api/cog/slope" slope 2 3 4 aCanvas initialState
              tile_4_2_3_outside)
    as (_ & _ & Hsurface & Hevs).
  split; [exact Hsurface | exact Hevs].
Defined.

Lemma overview_selection_witness :
  exists choice evs,
    selectOverview pyramidTiff 2 (tileToBBox 2 3 3) rasterBox initialState
      = (after initialState evs, Value choice) /\
    chosenIndex choice = 1%Z /\
    chosenPixels choice = 600%Z.
Proof.
  assert (Hne : images pyramidTiff <> []) by discriminate.
  destruct (overview_selection pyramidTiff (tileToBBox 2 3 3) rasterBox
              initialState Hne)
    as (_ & choice & evs & Hrun & Himg & Hpix & Hcase).
  exists choice, evs. split; [exact Hrun|].
  assert (Hchoice : choice = mkChoice 1 (rasterImage 70 20) 600).
  { pose proof (selectOverview_run pyramidTiff (tileToBBox 2 3 3) rasterBox
                  initialState (rasterImage 70 20) eq_refl) as Hrun'.
    cbv zeta in Hrun, Hrun'.
    change (length (images pyramidTiff)) with 2%nat in Hrun, Hrun'.
    change (Z.of_nat (2 - 1)) with 1%Z in Hrun'.
    change (Z.of_nat 2) with 2%Z in Hrun, Hrun'.
    rewrite Hrun' in Hrun. rewrite pyramid_choice in Hrun.
    injection Hrun as _ Heq. now symmetry. }
  rewrite Hchoice. split; reflexivity.
Defined.

(** **** From the band to the canvas *)

(** A slope tile with a 2d context: the canvas shows what the pixel loop
    wrote into a transparent [tileSize] by [tileSize] image. *)
Lemma colorize_slope_run env canvas band s :
  getContext2d env = true ->
  width canvas <> 0%nat ->
  let tileSize := width canvas in
  let data := paint env slope None band 0
                (replicate (tileSize * tileSize * 4) 0%Z) in
  colorize env slope canvas (TypedArray band) s
  = (mkState (trace s ++ [EvPutImageData data; EvDone None])
             (fuelLegendCache s) (Painted data),
     Value tt).
Proof.
  intros Hctx Hw tileSize data. unfold colorize.
  rewrite Hctx. change (negb true) with false. cbv iota.
  unfold createImageData.
  replace (width canvas =? 0)%nat with false
    by (symmetry; now apply Nat.eqb_neq).
  unfold bind, ret, emit, setSurface, done, emit. cbn [trace fuelLegendCache surface].
  rewrite <- app_assoc. reflexivity.
Qed.

(** In that image every no-data sample of the band is a transparent
    pixel. *)
Lemma colorize_slope_nodata env canvas band s i value :
  getContext2d env = true ->
  (i < width canvas * width canvas)%nat ->
  band !! i = Some value ->
  NoData value ->
  exists data,
    surface (fst (colorize env slope canvas (TypedArray band) s)) = Painted data /\
    data !! (i * 4 + 3)%nat = Some 0%Z.
Proof.
  intros Hctx Hi Hband Hnd.
  assert (Hw : width canvas <> 0%nat) by lia.
  rewrite (colorize_slope_run env canvas band s Hctx Hw). cbn [fst surface].
  eexists. split; [reflexivity|].
  pose proof (PaintFacts.paint_pixel env slope None band 0
                (replicate (width canvas * width canvas * 4) 0%Z) i value Hband) as H.
  cbn [Nat.add] in H.
  assert (Hpx : pixelBytes (exponentNotation env) slope None value = (0, 0, 0, 0)%Z).
  { unfold pixelBytes. apply ColorizerFacts.noData_spec in Hnd. now rewrite Hnd. }
  rewrite Hpx in H. apply H. rewrite length_replicate. lia.
Qed.

End PipelineFacts.

(** ** Part III: further properties *)

Module RunFacts.
Import Geometry Js Colorizer Pipeline PipelineSpec RunSpec Examples
  GeometryFacts PipelineFacts.

Lemma pending_app s s1 s2 e1 e2 :
  pending s s1 e1 -> pending s1 s2 e2 -> pending s s2 (e1 ++ e2).
Proof.
  intros [H1 Hs1] [H2 Hs2]. split.
  - now rewrite deliveries_app, H1, H2.
  - congruence.
Qed.

Lemma finished_app s s1 s2 e1 e2 :
  pending s s1 e1 -> finished s1 s2 e2 -> finished s s2 (e1 ++ e2).
Proof.
  intros [H1 Hs1] (pre & err & -> & Hpre & Hs2). exists (e1 ++ pre), err.
  split; [now rewrite app_assoc|]. split.
  - now rewrite deliveries_app, H1, Hpre.
  - destruct Hs2 as [->|Hs2]; [now left | right; congruence].
Qed.

Section Shapes.

Variable P : Event -> Prop.

Lemma shaped_weaken {A} r r' final (m : M A) :
  (r <= r')%nat -> shaped P r final m -> shaped P r' final m.
Proof.
  intros Hr Hm s. destruct (Hm s) as (evs & Ht & HP & Hreads & Hd).
  exists evs. split; [exact Ht|]. split; [exact HP|]. split; [lia | exact Hd].
Qed.

Lemma shaped_ret {A} (a : A) : shaped P 0 false (ret a).
Proof.
  intros s. exists []. simpl. rewrite app_nil_r.
  repeat split; auto.
Qed.

Lemma shaped_throw {A} final e : shaped P 0 final (@throw A e).
Proof.
  intros s. exists []. simpl. rewrite app_nil_r.
  repeat split; auto.
Qed.

Lemma shaped_setLegendCache l : shaped P 0 false (setLegendCache l).
Proof.
  intros s. exists []. simpl. rewrite app_nil_r.
  repeat split; auto.
Qed.

Lemma shaped_getLegendCache : shaped P 0 false getLegendCache.
Proof.
  intros s. exists []. simpl. rewrite app_nil_r.
  repeat split; auto.
Qed.

(** An event that is neither a read nor a call of [done]. *)
Lemma shaped_emit ev :
  P ev -> isRead ev = false -> (forall err, ev <> EvDone err) ->
  shaped P 0 false (emit ev).
Proof.
  intros HP Hr Hd s. exists [ev]. unfold emit. cbn [fst snd trace].
  split; [reflexivity|]. split; [now constructor|]. split.
  - rewrite reads_skip by exact Hr. simpl. lia.
  - split; [|reflexivity].
    rewrite deliveries_cons. destruct ev; try reflexivity.
    now destruct (Hd err).
Qed.

(** [done(err, canvas)] as the last statement. *)
Lemma shaped_done err : P (EvDone err) -> shaped P 0 true (done err).
Proof.
  intros HP s. exists [EvDone err]. unfold done, emit.
  cbn [fst snd trace]. rewrite reads_skip by reflexivity.
  split; [reflexivity|]. split; [now constructor|].
  split; [simpl; lia|].
  exists [], err. repeat split. now right.
Qed.

(** [done(err, canvas); return;] *)
Lemma shaped_done_return {A} final err :
  P (EvDone err) -> shaped P 0 final (done err ;; @return_ A).
Proof.
  intros HP s. exists [EvDone err]. unfold done, emit, bind, return_.
  cbn [fst snd trace]. rewrite reads_skip by reflexivity.
  split; [reflexivity|]. split; [now constructor|].
  split; [simpl; lia|].
  exists [], err. repeat split. now right.
Qed.

Lemma shaped_bind {A B} r1 r2 final (m : M A) (k : A -> M B) :
  shaped P r1 false m -> (forall a, shaped P r2 final (k a)) ->
  shaped P (r1 + r2) final (bind m k).
Proof.
  intros Hm Hk s. unfold bind.
  destruct (Hm s) as (e1 & Ht1 & HP1 & Hr1 & Hd1).
  destruct (m s) as [s1 [a| |e]]; cbn [fst snd] in *.
  - destruct (Hk a s1) as (e2 & Ht2 & HP2 & Hr2 & Hd2).
    exists (e1 ++ e2). rewrite Ht2, Ht1, app_assoc.
    split; [reflexivity|]. split; [now apply Forall_app|]. split.
    + rewrite reads_app, length_app. lia.
    + destruct (snd (k a s1)); [destruct final| |];
        first [ now apply (finished_app s s1)
              | now apply (pending_app s s1) ].
  - exists e1. split; [exact Ht1|]. split; [exact HP1|]. split; [lia | exact Hd1].
  - exists e1. split; [exact Ht1|]. split; [exact HP1|]. split; [lia | exact Hd1].
Qed.

Lemma shaped_tryCatch {A} r1 r2 final (m : M A) (h : Error -> M A) :
  shaped P r1 final m -> (forall e, shaped P r2 final (h e)) ->
  shaped P (r1 + r2) final (tryCatch m h).
Proof.
  intros Hm Hh s. unfold tryCatch.
  destruct (Hm s) as (e1 & Ht1 & HP1 & Hr1 & Hd1).
  destruct (m s) as [s1 [a| |e]]; cbn [fst snd] in *.
  - exists e1. split; [exact Ht1|]. split; [exact HP1|]. split; [lia | exact Hd1].
  - exists e1. split; [exact Ht1|]. split; [exact HP1|]. split; [lia | exact Hd1].
  - destruct (Hh e s1) as (e2 & Ht2 & HP2 & Hr2 & Hd2).
    exists (e1 ++ e2). rewrite Ht2, Ht1, app_assoc.
    split; [reflexivity|]. split; [now apply Forall_app|]. split.
    + rewrite reads_app, length_app. lia.
    + destruct (snd (h e s1)); [destruct final| |];
        first [ now apply (finished_app s s1)
              | now apply (pending_app s s1) ].
Qed.

(** The stages, for a property [P] of all events but the legend fetch. *)
Hypothesis P_other : forall ev, notFetch ev -> P ev.

Local Set Default Proof Using "P_other".

Lemma shaped_console level msg : shaped P 0 false (console level msg).
Proof. apply shaped_emit; [now apply P_other | reflexivity | discriminate]. Qed.

Variable env : Env.

(** [ctx.clearRect(...); done(undefined, canvas); return;] *)
Lemma shaped_clear_done {A} final canvas :
  shaped P 0 final (clearCanvas env canvas ;; done None ;; @return_ A).
Proof.
  intros s. exists (clearEvents env canvas ++ [EvDone None]).
  unfold bind. rewrite clearCanvas_run. unfold done. rewrite emit_run.
  unfold return_. cbn [fst snd after trace]. rewrite cleared_trace, app_assoc.
  split; [reflexivity|]. split.
  { apply Forall_app. split; [|repeat constructor; now apply P_other].
    unfold clearEvents. destruct (getContext2d env); repeat constructor.
    now apply P_other. }
  split.
  { rewrite reads_app, clearEvents_no_read. simpl. lia. }
  exists (clearEvents env canvas), None.
  split; [reflexivity|]. split; [apply clearEvents_no_delivery | now left].
Qed.

Lemma shaped_getImage tiff i : shaped P 0 false (getImage tiff i).
Proof.
  unfold getImage. apply (shaped_bind 0 0).
  - apply shaped_emit; [now apply P_other | reflexivity | discriminate].
  - intros _. destruct (i <? 0)%Z; [apply shaped_throw|].
    destruct (images tiff !! Z.to_nat i); [apply shaped_ret | apply shaped_throw].
Qed.

Lemma shaped_openTiff url : shaped P 0 false (openTiff env url).
Proof.
  unfold openTiff. apply (shaped_bind 0 0).
  - apply shaped_emit; [now apply P_other | reflexivity | discriminate].
  - intros _. destruct (fromUrl env url); [apply shaped_ret | apply shaped_throw].
Qed.

Lemma shaped_getImageCount tiff : shaped P 0 false (getImageCount tiff).
Proof.
  unfold getImageCount. apply (shaped_bind 0 0).
  - apply shaped_emit; [now apply P_other | reflexivity | discriminate].
  - intros _. apply shaped_ret.
Qed.

Lemma shaped_scanOverviews tiff tb ib n : forall cur,
  shaped P 0 false (scanOverviews tiff tb ib n cur).
Proof.
  induction n as [|n IH]; intros cur; simpl; [apply shaped_ret|].
  apply (shaped_bind 0 0); [apply shaped_getImage|]. intros img.
  apply (shaped_bind 0 0); [apply shaped_console|]. intros _.
  destruct (_ =? 0)%Z; [apply shaped_ret|].
  destruct (_ <=? _)%Z; [apply shaped_ret | apply IH].
Qed.

Lemma shaped_selectOverview tiff imageCount tb ib :
  shaped P 0 false (selectOverview tiff imageCount tb ib).
Proof.
  unfold selectOverview. apply (shaped_bind 0 0); [apply shaped_getImage|].
  intros first. apply shaped_scanOverviews.
Qed.

Lemma shaped_chooseOverview layerName canvas tiff imageCount tb ib :
  shaped P 0 false (chooseOverview env layerName canvas tiff imageCount tb ib).
Proof.
  unfold chooseOverview. apply (shaped_bind 0 0); [apply shaped_selectOverview|].
  intros choice. destruct (_ >? _)%Z; [|apply shaped_ret].
  destruct layerName.
  - apply (shaped_bind 0 0); [apply shaped_console|]. intros _.
    apply (shaped_bind 0 0); [apply shaped_getImage|]. intros img.
    apply shaped_ret.
  - apply (shaped_bind 0 0); [apply shaped_console|]. intros _.
    apply (shaped_bind 0 0); [apply shaped_console|]. intros _.
    apply shaped_clear_done.
Qed.

Lemma shaped_readRastersOf level bbox w h :
  shaped P 1 false (readRastersOf env level bbox w h).
Proof.
  intros s. rewrite readRastersOf_run.
  exists [EvReadRasters level bbox w h]. cbn [fst snd after trace].
  split; [reflexivity|]. split; [constructor; [now apply P_other | constructor]|].
  split; [rewrite reads_keep by reflexivity; simpl; lia|].
  destruct (readRasters env _ level); split; reflexivity.
Qed.

Lemma shaped_readChosen canvas tiff imageCount imgBbox choice :
  shaped P 2 false (readChosen env canvas tiff imageCount imgBbox choice).
Proof.
  unfold readChosen. apply (shaped_tryCatch 1 1); [apply shaped_readRastersOf|].
  intros err. apply (shaped_bind 0 1); [apply shaped_console|]. intros _.
  apply (shaped_tryCatch 1 0).
  - apply (shaped_bind 0 1); [apply shaped_getImage|]. intros fallback.
    apply (shaped_bind 1 0); [apply shaped_readRastersOf|]. intros rasters.
    apply (shaped_bind 0 0); [apply shaped_console|]. intros _.
    apply shaped_ret.
  - intros err2. apply (shaped_bind 0 0); [apply shaped_console|]. intros _.
    apply shaped_done_return. now apply P_other.
Qed.

Lemma shaped_fetchFuelLegend :
  P (EvFetch "/api/cog/fuel-legend") -> shaped P 0 false (fetchFuelLegend env).
Proof.
  intros HP.
  unfold fetchFuelLegend. apply (shaped_bind 0 0); [apply shaped_getLegendCache|].
  intros [legend|]; [apply shaped_ret|].
  apply (shaped_bind 0 0); [apply shaped_emit; [exact HP | reflexivity | discriminate]|].
  intros _. destruct (legendResponse env).
  - apply (shaped_bind 0 0); [apply shaped_setLegendCache|]. intros _.
    apply shaped_ret.
  - apply (shaped_bind 0 0); [apply shaped_console|]. intros _.
    apply shaped_ret.
Qed.

Lemma shaped_colorize layerName canvas rasters :
  (layerName = fuel -> P (EvFetch "/api/cog/fuel-legend")) ->
  shaped P 0 true (colorize env layerName canvas rasters).
Proof.
  intros HP.
  unfold colorize. destruct (negb (getContext2d env)).
  { apply shaped_done_return. now apply P_other. }
  apply (shaped_bind 0 0).
  { unfold createImageData. destruct (_ =? _)%nat; [apply shaped_throw | apply shaped_ret]. }
  intros data. apply (shaped_bind 0 0).
  { destruct layerName; [|apply shaped_ret].
    apply (shaped_bind 0 0); [apply shaped_fetchFuelLegend; now apply HP|].
    intros legend. apply shaped_ret. }
  intros legend.
  destruct (match rasters with BandArray bands => head bands | TypedArray b => Some b end);
    [|apply shaped_throw].
  intros s. eexists [EvPutImageData _; EvDone None].
  unfold bind, done, setSurface. rewrite !emit_run.
  cbn [fst snd after trace]. rewrite <- app_assoc.
  split; [reflexivity|].
  split; [repeat constructor; now apply P_other|].
  split; [simpl; lia|].
  eexists [EvPutImageData _], None. repeat split. now left.
Qed.

Lemma shaped_renderBody cogUrl layerName x y z canvas :
  (layerName = fuel -> P (EvFetch "/api/cog/fuel-legend")) ->
  shaped P 2 true (renderBody env cogUrl layerName x y z canvas).
Proof.
  intros HP.
  unfold renderBody. destruct (negb (bboxesIntersect _ COG_BOUNDS)).
  - apply (shaped_weaken 0); [lia|].
    apply shaped_clear_done.
  - apply (shaped_bind 0 2); [apply shaped_console|]. intros _.
    apply (shaped_bind 0 2); [apply shaped_openTiff|]. intros tiff.
    apply (shaped_bind 0 2); [apply shaped_getImageCount|]. intros imageCount.
    apply (shaped_bind 0 2); [apply shaped_getImage|]. intros baseImage.
    destruct (imageBBox baseImage) as [imgBbox|].
    + destruct (negb (bboxesIntersect _ imgBbox)).
      * apply (shaped_weaken 0); [lia|].
        apply shaped_clear_done.
      * apply (shaped_bind 0 2); [apply shaped_chooseOverview|]. intros choice.
        apply (shaped_bind 0 2); [apply shaped_console|]. intros _.
        apply (shaped_bind 2 0); [apply shaped_readChosen|]. intros rasters.
        apply shaped_colorize. exact HP.
    + apply (shaped_weaken 0); [lia|].
      apply (shaped_bind 0 0); [apply shaped_console|]. intros _.
      apply shaped_done_return. now apply P_other.
Qed.

Lemma shaped_renderCogTile cogUrl layerName x y z canvas :
  (layerName = fuel -> P (EvFetch "/api/cog/fuel-legend")) ->
  shaped P 2 true (renderCogTile env cogUrl layerName x y z canvas).
Proof.
  intros HP.
  unfold renderCogTile. apply (shaped_tryCatch 2 0); [now apply shaped_renderBody|].
  intros err. apply (shaped_bind 0 0); [apply shaped_console|]. intros _.
  apply shaped_done. now apply P_other.
Qed.

End Shapes.

(** [renderCogTile] never rejects: what the function throws is caught and
    reported. *)
Lemma renderCogTile_outcome env cogUrl layerName x y z canvas s :
  snd (renderCogTile env cogUrl layerName x y z canvas s) = Value tt \/
  snd (renderCogTile env cogUrl layerName x y z canvas s) = Returned.
Proof.
  unfold renderCogTile, tryCatch.
  destruct (renderBody env cogUrl layerName x y z canvas s) as [s1 [[]| |e]];
    cbn [snd]; auto.
Qed.

Lemma run_finished env cogUrl layerName x y z canvas s :
  let run := renderCogTile env cogUrl layerName x y z canvas s in
  exists evs, trace (fst run) = trace s ++ evs /\ finished s (fst run) evs.
Proof.
  intros run.
  destruct (shaped_renderCogTile (fun _ => True) (fun _ _ => I) env cogUrl
              layerName x y z canvas (fun _ => I) s)
    as (evs & Ht & _ & _ & Hd).
  fold run in Ht, Hd. exists evs. split; [exact Ht|].
  destruct (renderCogTile_outcome env cogUrl layerName x y z canvas s) as [H|H];
    fold run in H; now rewrite H in Hd.
Qed.

(** X1. Whatever the network, the canvas and the file answer, one call of
    [renderCogTile] calls [done] exactly once, as its last effect, and the
    promise it returns is never rejected. *)
Theorem done_exactly_once (env : Env) (cogUrl : string)
    (layerName : CogLayerName) (x y z : Z) (canvas : Canvas) (s : State) :
  let run := renderCogTile env cogUrl layerName x y z canvas s in
  (forall e, snd run <> Thrown e) /\
  exists pre err,
    trace (fst run) = trace s ++ pre ++ [EvDone err] /\
    deliveries pre = [].
Proof.
  intros run.
  destruct (run_finished env cogUrl layerName x y z canvas s)
    as (evs & Ht & pre & err & -> & Hpre & _).
  fold run in Ht. split.
  - intros e.
    destruct (renderCogTile_outcome env cogUrl layerName x y z canvas s) as [H|H];
      fold run in H; rewrite H; discriminate.
  - exists pre, err. split; assumption.
Qed.

(** X2. One call of [renderCogTile] issues at most two [readRasters]
    requests, whatever fails. *)
Theorem at_most_two_reads (env : Env) (cogUrl : string)
    (layerName : CogLayerName) (x y z : Z) (canvas : Canvas) (s : State) :
  let run := renderCogTile env cogUrl layerName x y z canvas s in
  exists evs, trace (fst run) = trace s ++ evs /\
    (length (reads evs) <= 2)%nat.
Proof.
  intros run.
  destruct (shaped_renderCogTile (fun _ => True) (fun _ _ => I) env cogUrl
              layerName x y z canvas (fun _ => I) s)
    as (evs & Ht & _ & Hr & _).
  exists evs. split; assumption.
Qed.

(** X3. A slope tile never fetches the fuel legend. *)
Theorem slope_never_fetches_legend (env : Env) (cogUrl : string)
    (x y z : Z) (canvas : Canvas) (s : State) :
  let run := renderCogTile env cogUrl slope x y z canvas s in
  exists evs, trace (fst run) = trace s ++ evs /\
    forall url, EvFetch url ∉ evs.
Proof.
  intros run.
  destruct (shaped_renderCogTile notFetch (fun _ H => H) env cogUrl slope
              x y z canvas ltac:(discriminate) s)
    as (evs & Ht & HP & _ & _).
  exists evs. split; [exact Ht|].
  intros url Hin. rewrite Forall_forall in HP.
  exact (HP _ Hin).
Qed.

(** X4. A tile that ends with an error leaves the canvas as it was handed
    over: whenever [done] receives an error, nothing was cleared or
    painted. *)
Theorem failed_tile_is_untouched (env : Env) (cogUrl : string)
    (layerName : CogLayerName) (x y z : Z) (canvas : Canvas) (s : State)
    (evs : list Event) (e : Error) :
  let run := renderCogTile env cogUrl layerName x y z canvas s in
  trace (fst run) = trace s ++ evs ->
  EvDone (Some e) ∈ evs ->
  surface (fst run) = surface s.
Proof.
  intros run Ht Hin.
  destruct (run_finished env cogUrl layerName x y z canvas s)
    as (evs' & Ht' & pre & err & -> & Hpre & Hs).
  fold run in Ht', Hs. rewrite Ht in Ht'. apply app_inv_head in Ht'. subst evs.
  destruct Hs as [->|Hs]; [|exact Hs].
  apply elem_of_app in Hin. destruct Hin as [Hin|Hin].
  - exfalso. apply list_elem_of_split in Hin. destruct Hin as (l1 & l2 & ->).
    rewrite deliveries_app, deliveries_cons in Hpre.
    now destruct (deliveries l1).
  - apply list_elem_of_singleton in Hin. discriminate.
Qed.

(** **** Tiles that are not rendered *)

Lemma renderBody_opened env cogUrl layerName x y z canvas tiff base s :
  bboxesIntersect (tileToBBox x y z) COG_BOUNDS = true ->
  fromUrl env cogUrl = Some tiff ->
  images tiff !! 0%nat = Some base ->
  renderBody env cogUrl layerName x y z canvas s
  = match imageBBox base with
    | None =>
        (console Err MsgNoGeoreference ;; done (Some NoGeoreference) ;; return_)
          (after s (openEvents cogUrl layerName x y z))
    | Some imgBbox =>
        if negb (bboxesIntersect (tileToBBox x y z) imgBbox) then
          (clearCanvas env canvas ;; done None ;; return_)
            (after s (openEvents cogUrl layerName x y z))
        else
          (choice <- chooseOverview env layerName canvas tiff
                       (Z.of_nat (length (images tiff))) (tileToBBox x y z) imgBbox ;;
           console Log (MsgUsingOverview (chosenIndex choice) z (chosenPixels choice)) ;;
           rasters <- readChosen env canvas tiff (Z.of_nat (length (images tiff)))
                        imgBbox choice ;;
           colorize env layerName canvas rasters)
            (after s (openEvents cogUrl layerName x y z))
    end.
Proof.
  intros Hin Hopen Hbase. unfold renderBody.
  rewrite Hin. change (negb true) with false. cbv iota.
  unfold console at 1. rewrite (bind_value _ _ _ _ _ (emit_run _ _)).
  unfold openTiff at 1.
  rewrite (bind_value _ _ _ (after s [EvConsole Log
             (MsgRendering layerName z x y (tileToBBox x y z)); EvFromUrl cogUrl]) tiff).
  2:{ rewrite (bind_value _ _ _ _ _ (emit_run _ _)), Hopen, after_after.
      reflexivity. }
  unfold getImageCount at 1.
  rewrite (bind_value _ _ _ (after s [EvConsole Log
             (MsgRendering layerName z x y (tileToBBox x y z)); EvFromUrl cogUrl;
             EvGetImageCount]) (Z.of_nat (length (images tiff)))).
  2:{ rewrite (bind_value _ _ _ _ _ (emit_run _ _)), after_after. reflexivity. }
  rewrite (bind_value _ _ _ _ _ (getImage_ok tiff 0 base _ Hbase)).
  rewrite after_after. simpl app.
  destruct (imageBBox base) as [imgBbox|]; [|reflexivity].
  destruct (negb (bboxesIntersect (tileToBBox x y z) imgBbox)); reflexivity.
Qed.

Lemma renderCogTile_offline env cogUrl layerName x y z canvas s :
  bboxesIntersect (tileToBBox x y z) COG_BOUNDS = true ->
  fromUrl env cogUrl = None ->
  renderCogTile env cogUrl layerName x y z canvas s
  = (after s [EvConsole Log (MsgRendering layerName z x y (tileToBBox x y z));
              EvFromUrl cogUrl;
              EvConsole Err (MsgThrottledError OpenFailed);
              EvDone (Some OpenFailed)], Value tt).
Proof.
  intros Hin Hopen. unfold renderCogTile, tryCatch, renderBody.
  rewrite Hin. change (negb true) with false. cbv iota.
  unfold console at 1. rewrite (bind_value _ _ _ _ _ (emit_run _ _)).
  unfold openTiff at 1.
  rewrite (bind_thrown _ _ _ (after s [EvConsole Log
             (MsgRendering layerName z x y (tileToBBox x y z)); EvFromUrl cogUrl])
             OpenFailed).
  2:{ rewrite (bind_value _ _ _ _ _ (emit_run _ _)), Hopen, after_after.
      reflexivity. }
  unfold console, done.
  rewrite (bind_value _ _ _ _ _ (emit_run _ _)), emit_run, !after_after.
  reflexivity.
Qed.

Lemma tile_3_2_3_west :
  bboxesIntersect (tileToBBox 2 3 3) Scenes.westBox = false.
Proof.
  destruct tile_3_2_3 as (H1 & H2 & H3 & H4).
  apply bboxesIntersect_false. right. left.
  rewrite H1. unfold Scenes.westBox; cbn [maxLon]. lra.
Qed.

(** X5. A tile inside [COG_BOUNDS] that does not meet the bounding box of
    the file is answered after the file was opened, without selecting an
    overview, reading or fetching: the canvas is cleared and [done]
    receives no error. *)
Theorem outside_raster_is_transparent (env : Env) (cogUrl : string)
    (layerName : CogLayerName) (x y z : Z) (canvas : Canvas)
    (tiff : Tiff) (base : Image) (imgBbox : BBox) (s : State) :
  bboxesIntersect (tileToBBox x y z) COG_BOUNDS = true ->
  fromUrl env cogUrl = Some tiff ->
  images tiff !! 0%nat = Some base ->
  imageBBox base = Some imgBbox ->
  bboxesIntersect (tileToBBox x y z) imgBbox = false ->
  let run := renderCogTile env cogUrl layerName x y z canvas s in
  trace (fst run)
  = trace s ++ openEvents cogUrl layerName x y z
      ++ clearEvents env canvas ++ [EvDone None] /\
  surface (fst run) = (if getContext2d env then Transparent else surface s).
Proof.
  intros Hin Hopen Hbase Hbbox Hout run. unfold run, renderCogTile, tryCatch.
  rewrite (renderBody_opened _ _ _ _ _ _ _ _ _ _ Hin Hopen Hbase), Hbbox, Hout.
  change (negb false) with true. cbv iota.
  rewrite (bind_value _ _ _ _ _ (clearCanvas_run env canvas _)).
  unfold done. rewrite (bind_value _ _ _ _ _ (emit_run _ _)).
  unfold return_. cbn [fst snd after trace surface].
  rewrite cleared_trace, cleared_surface. cbn [after trace surface].
  now rewrite <- !app_assoc.
Qed.

Lemma outside_raster_is_transparent_witness :
  let run := renderCogTile (serving Scenes.westTiff None) "/api/cog/fuel" fuel
               2 3 3 aCanvas initialState in
  trace (fst run)
  = [ EvConsole Log (MsgRendering fuel 3 2 3 (tileToBBox 2 3 3));
      EvFromUrl "/api/cog/fuel"; EvGetImageCount; EvGetImage 0;
      EvClearRect 256 256; EvDone None ] /\
  surface (fst run) = Transparent.
Proof.
  exact (outside_raster_is_transparent (serving Scenes.westTiff None)
           "/api/cog/fuel" fuel 2 3 3 aCanvas Scenes.westTiff _ Scenes.westBox
           initialState tile_3_2_3_in_bounds eq_refl eq_refl eq_refl
           tile_3_2_3_west).
Defined.

(** X6. When the primary image has neither a bounding box nor both
    georeference tags, [done] receives the error "No georeference
    information" right after the file was opened; the canvas is not
    cleared and nothing is read. *)
Theorem missing_georeference_is_reported (env : Env) (cogUrl : string)
    (layerName : CogLayerName) (x y z : Z) (canvas : Canvas)
    (tiff : Tiff) (base : Image) (s : State) :
  bboxesIntersect (tileToBBox x y z) COG_BOUNDS = true ->
  fromUrl env cogUrl = Some tiff ->
  images tiff !! 0%nat = Some base ->
  imageBBox base = None ->
  let run := renderCogTile env cogUrl layerName x y z canvas s in
  trace (fst run)
  = trace s ++ openEvents cogUrl layerName x y z
      ++ [EvConsole Err MsgNoGeoreference; EvDone (Some NoGeoreference)] /\
  surface (fst run) = surface s.
Proof.
  intros Hin Hopen Hbase Hbbox run. unfold run, renderCogTile, tryCatch.
  rewrite (renderBody_opened _ _ _ _ _ _ _ _ _ _ Hin Hopen Hbase), Hbbox.
  unfold console, done.
  rewrite (bind_value _ _ _ _ _ (emit_run _ _)).
  rewrite (bind_value _ _ _ _ _ (emit_run _ _)).
  unfold return_. cbn [fst snd after trace surface].
  now rewrite <- !app_assoc.
Qed.

Lemma missing_georeference_is_reported_witness :
  let run := renderCogTile (serving Scenes.bareTiff None) "/api/cog/slope" slope
               2 3 3 aCanvas initialState in
  trace (fst run)
  = [ EvConsole Log (MsgRendering slope 3 2 3 (tileToBBox 2 3 3));
      EvFromUrl "/api/cog/slope"; EvGetImageCount; EvGetImage 0;
      EvConsole Err MsgNoGeoreference; EvDone (Some NoGeoreference) ] /\
  surface (fst run) = Transparent.
Proof.
  exact (missing_georeference_is_reported (serving Scenes.bareTiff None)
           "/api/cog/slope" slope 2 3 3 aCanvas Scenes.bareTiff _
           initialState tile_3_2_3_in_bounds eq_refl eq_refl eq_refl).
Defined.

(** X7. When the file cannot be opened, the rejection of [fromUrl] is
    caught by the outer handler: it is logged and handed to [done], after
    a single network request, and the canvas is as it was. *)
Theorem open_failure_is_reported (env : Env) (cogUrl : string)
    (layerName : CogLayerName) (x y z : Z) (canvas : Canvas) (s : State) :
  bboxesIntersect (tileToBBox x y z) COG_BOUNDS = true ->
  fromUrl env cogUrl = None ->
  let run := renderCogTile env cogUrl layerName x y z canvas s in
  snd run = Value tt /\
  trace (fst run)
  = trace s ++
    [ EvConsole Log (MsgRendering layerName z x y (tileToBBox x y z));
      EvFromUrl cogUrl;
      EvConsole Err (MsgThrottledError OpenFailed);
      EvDone (Some OpenFailed) ] /\
  surface (fst run) = surface s.
Proof.
  intros Hin Hopen run. unfold run.
  rewrite (renderCogTile_offline _ _ _ _ _ _ _ _ Hin Hopen).
  repeat split.
Qed.

Lemma open_failure_is_reported_witness :
  let run := renderCogTile Scenes.offline "/api/cog/fuel" fuel
               2 3 3 aCanvas initialState in
  snd run = Value tt /\
  trace (fst run)
  = [ EvConsole Log (MsgRendering fuel 3 2 3 (tileToBBox 2 3 3));
      EvFromUrl "/api/cog/fuel";
      EvConsole Err (MsgThrottledError OpenFailed);
      EvDone (Some OpenFailed) ] /\
  surface (fst run) = Transparent.
Proof.
  exact (open_failure_is_reported Scenes.offline "/api/cog/fuel" fuel
           2 3 3 aCanvas initialState tile_3_2_3_in_bounds eq_refl).
Defined.

Lemma failed_tile_is_untouched_witness :
  surface (fst (renderCogTile Scenes.offline "/api/cog/fuel" fuel
                  2 3 3 aCanvas initialState))
  = Transparent.
Proof.
  refine (failed_tile_is_untouched Scenes.offline "/api/cog/fuel" fuel
            2 3 3 aCanvas initialState
            [ EvConsole Log (MsgRendering fuel 3 2 3 (tileToBBox 2 3 3));
              EvFromUrl "/api/cog/fuel";
              EvConsole Err (MsgThrottledError OpenFailed);
              EvDone (Some OpenFailed) ] OpenFailed _ _).
  - now rewrite (renderCogTile_offline Scenes.offline "/api/cog/fuel" fuel
                   2 3 3 aCanvas initialState tile_3_2_3_in_bounds eq_refl).
  - repeat constructor.
Defined.

End RunFacts.

(** *** The fuel legend *)

Module LegendFacts.
Import Colorizer Pipeline PipelineSpec Examples PipelineFacts.

Lemma fetchFuelLegend_cached env legend s :
  fuelLegendCache s = Some legend ->
  fetchFuelLegend env s = (s, Value legend).
Proof.
  intros Hc. unfold fetchFuelLegend, bind, getLegendCache.
  now rewrite Hc.
Qed.

(** X8. The first successful [fetchFuelLegend] makes one request and stores
    the legend; from then on every call returns that legend without any
    request, whatever the network would answer. *)
Theorem legend_is_fetched_once (env : Env)
    (legend : gmap string ColorMapEntry) (s : State) :
  fuelLegendCache s = None ->
  legendResponse env = Some legend ->
  let first := fetchFuelLegend env s in
  snd first = Value legend /\
  trace (fst first) = trace s ++ [EvFetch "/api/cog/fuel-legend"] /\
  forall env', fetchFuelLegend env' (fst first) = (fst first, Value legend).
Proof.
  intros Hc Hr first.
  assert (Hfirst : first
            = (mkState (trace s ++ [EvFetch "/api/cog/fuel-legend"])
                 (Some legend) (surface s), Value legend)).
  { unfold first, fetchFuelLegend, bind, getLegendCache.
    rewrite Hc, emit_run, Hr. reflexivity. }
  rewrite Hfirst. cbn [fst snd trace].
  split; [reflexivity|]. split; [reflexivity|].
  intros env'. now apply fetchFuelLegend_cached.
Qed.

Lemma legend_is_fetched_once_witness :
  let env := mkEnv (fun _ => None) (fun _ _ => None) true (Some legendTwo)
               (fun _ => ""%string) in
  let first := fetchFuelLegend env initialState in
  snd first = Value legendTwo /\
  trace (fst first) = [EvFetch "/api/cog/fuel-legend"] /\
  forall env', fetchFuelLegend env' (fst first) = (fst first, Value legendTwo).
Proof.
  exact (legend_is_fetched_once
           (mkEnv (fun _ => None) (fun _ _ => None) true (Some legendTwo)
              (fun _ => ""%string))
           legendTwo initialState eq_refl eq_refl).
Defined.

(** X9. When the request for the legend fails, the call answers with the
    three built-in entries and stores nothing: the next call asks the
    network again, and returns what it then answers. *)
Theorem legend_failure_is_not_cached (env : Env) (s : State) :
  fuelLegendCache s = None ->
  legendResponse env = None ->
  let first := fetchFuelLegend env s in
  snd first = Value defaultFuelLegend /\
  fuelLegendCache (fst first) = None /\
  forall env' legend,
    legendResponse env' = Some legend ->
    snd (fetchFuelLegend env' (fst first)) = Value legend /\
    trace (fst (fetchFuelLegend env' (fst first)))
    = trace s ++ [ EvFetch "/api/cog/fuel-legend";
                   EvConsole Err MsgLegendError;
                   EvFetch "/api/cog/fuel-legend" ].
Proof.
  intros Hc Hr first.
  assert (Hfirst : first
            = (after s [EvFetch "/api/cog/fuel-legend";
                        EvConsole Err MsgLegendError],
               Value defaultFuelLegend)).
  { unfold first, fetchFuelLegend, bind, getLegendCache, console.
    rewrite Hc, emit_run, Hr, emit_run, after_after. reflexivity. }
  rewrite Hfirst. cbn [fst snd after fuelLegendCache].
  split; [reflexivity|]. split; [exact Hc|].
  intros env' legend Hr'.
  assert (Hsecond :
    fetchFuelLegend env' (after s [EvFetch "/api/cog/fuel-legend";
                                   EvConsole Err MsgLegendError])
    = (mkState (trace s ++ [ EvFetch "/api/cog/fuel-legend";
                             EvConsole Err MsgLegendError;
                             EvFetch "/api/cog/fuel-legend" ])
         (Some legend) (surface s), Value legend)).
  { unfold fetchFuelLegend, bind, getLegendCache.
    unfold after at 1. cbn [fuelLegendCache]. rewrite Hc, emit_run, Hr'.
    cbn [fst snd after trace setLegendCache ret surface fuelLegendCache].
    now rewrite <- app_assoc. }
  rewrite Hsecond. split; reflexivity.
Qed.

Lemma legend_failure_is_not_cached_witness :
  let first := fetchFuelLegend (serving coarseTiff None) initialState in
  snd first = Value defaultFuelLegend /\
  fuelLegendCache (fst first) = None /\
  forall env' legend,
    legendResponse env' = Some legend ->
    snd (fetchFuelLegend env' (fst first)) = Value legend /\
    trace (fst (fetchFuelLegend env' (fst first)))
    = [ EvFetch "/api/cog/fuel-legend";
        EvConsole Err MsgLegendError;
        EvFetch "/api/cog/fuel-legend" ].
Proof.
  exact (legend_failure_is_not_cached (serving coarseTiff None) initialState
           eq_refl eq_refl).
Defined.

End LegendFacts.

(** *** The source-pixel estimate and the selection *)

Module EstimateFacts.
Import Num Geometry Pipeline PipelineSpec EstimateSpec Examples.
Import NumFacts GeometryFacts PipelineFacts.

Lemma ratio_bounds (d D : R) :
  (0 < d)%R -> (d <= D)%R -> (0 < d / D <= 1)%R.
Proof.
  intros Hd HD.
  assert (Hr : (d / D * D = d)%R) by (field; lra).
  split; nra.
Qed.

Lemma ceil_nonneg (x : R) : (0 <= x)%R -> (0 <= ceil x)%Z.
Proof.
  intros Hx. apply le_IZR. pose proof (Zceil_bound x) as [_ H].
  unfold ceil. lra.
Qed.

Lemma ceil_pos (x : R) : (0 < x)%R -> (0 < ceil x)%Z.
Proof.
  intros Hx. apply lt_IZR. pose proof (Zceil_bound x) as [_ H].
  unfold ceil. lra.
Qed.

Lemma ceil_le_int (x : R) (k : Z) : (x <= IZR k)%R -> (ceil x <= k)%Z.
Proof.
  intros Hx. rewrite <- (ceil_IZR k). unfold ceil. now apply Zceil_le.
Qed.

(** The window of the tile on the image, when it is not empty: its extent
    on each axis is positive and at most the extent of the image. *)
Lemma window_extent tb ib :
  leb (Rmin (maxLon tb) (maxLon ib)) (Rmax (minLon tb) (minLon ib))
  || leb (Rmin (maxLat tb) (maxLat ib)) (Rmax (minLat tb) (minLat ib)) = false ->
  (0 < Rmin (maxLon tb) (maxLon ib) - Rmax (minLon tb) (minLon ib)
     <= maxLon ib - minLon ib)%R /\
  (0 < Rmin (maxLat tb) (maxLat ib) - Rmax (minLat tb) (minLat ib)
     <= maxLat ib - minLat ib)%R.
Proof.
  rewrite orb_false_iff, !leb_false. intros [Hx Hy].
  pose proof (Rmin_r (maxLon tb) (maxLon ib)).
  pose proof (Rmax_r (minLon tb) (minLon ib)).
  pose proof (Rmin_r (maxLat tb) (maxLat ib)).
  pose proof (Rmax_r (minLat tb) (minLat ib)).
  lra.
Qed.

(** X10. The estimate is never negative and never more than the number of
    pixels of the image it is taken on. *)
Theorem estimate_bounds (tileBounds imgBbox : BBox) (img : Image) :
  (0 <= getWidth img)%Z -> (0 <= getHeight img)%Z ->
  (0 <= computeSourcePixels tileBounds imgBbox img
     <= getWidth img * getHeight img)%Z.
Proof.
  intros HW HH. unfold computeSourcePixels.
  destruct (leb _ _ || leb _ _) eqn:Hempty; [nia|].
  destruct (window_extent _ _ Hempty) as [[Hx Hxle] [Hy Hyle]].
  destruct (ratio_bounds _ _ Hx Hxle) as [Hrx Hrx1].
  destruct (ratio_bounds _ _ Hy Hyle) as [Hry Hry1].
  apply IZR_le in HW, HH.
  set (rx := (_ / (maxLon imgBbox - minLon imgBbox))%R) in *.
  set (ry := (_ / (maxLat imgBbox - minLat imgBbox))%R) in *.
  assert (0 <= ceil (rx * IZR (getWidth img)) <= getWidth img)%Z.
  { split; [apply ceil_nonneg; nra | apply ceil_le_int; nra]. }
  assert (0 <= ceil (ry * IZR (getHeight img)) <= getHeight img)%Z.
  { split; [apply ceil_nonneg; nra | apply ceil_le_int; nra]. }
  nia.
Qed.

Lemma estimate_bounds_witness :
  (0 <= computeSourcePixels (tileToBBox 2 3 3) rasterBox (rasterImage 7000 2000)
     <= 7000 * 2000)%Z.
Proof.
  apply (estimate_bounds (tileToBBox 2 3 3) rasterBox (rasterImage 7000 2000));
    simpl; lia.
Defined.

(** X11. Over a tile and an image box of positive extent, the estimate of
    an image with at least one pixel is positive exactly when the tile
    and the image share an area; a tile that only touches the image along
    an edge passes [bboxesIntersect] and is estimated at 0. *)
Theorem estimate_positive_iff_overlap (tileBounds imgBbox : BBox) (img : Image) :
  proper tileBounds -> proper imgBbox ->
  (0 < getWidth img)%Z -> (0 < getHeight img)%Z ->
  ((0 < computeSourcePixels tileBounds imgBbox img)%Z
     <-> overlap tileBounds imgBbox) /\
  (bboxesIntersect tileBounds imgBbox = true ->
   ~ overlap tileBounds imgBbox ->
   computeSourcePixels tileBounds imgBbox img = 0%Z).
Proof.
  intros [Htx Hty] [Hix Hiy] HW HH.
  unfold computeSourcePixels, overlap.
  destruct (leb _ _ || leb _ _) eqn:Hempty.
  - split; [|reflexivity].
    split; [lia|]. intros (H1 & H2 & H3 & H4). exfalso.
    rewrite orb_true_iff, !leb_true in Hempty.
    revert Hempty. unfold Rmin, Rmax.
    repeat destruct (Rle_dec _ _); lra.
  - destruct (window_extent _ _ Hempty) as [[Hx Hxle] [Hy Hyle]].
    destruct (ratio_bounds _ _ Hx Hxle) as [Hrx _].
    destruct (ratio_bounds _ _ Hy Hyle) as [Hry _].
    apply IZR_lt in HW, HH.
    assert (Hover : (minLon tileBounds < maxLon imgBbox
                     /\ minLon imgBbox < maxLon tileBounds
                     /\ minLat tileBounds < maxLat imgBbox
                     /\ minLat imgBbox < maxLat tileBounds)%R).
    { revert Hx Hy. unfold Rmin, Rmax.
      repeat destruct (Rle_dec _ _); lra. }
    set (rx := (_ / (maxLon imgBbox - minLon imgBbox))%R) in *.
    set (ry := (_ / (maxLat imgBbox - minLat imgBbox))%R) in *.
    assert (0 < ceil (rx * IZR (getWidth img)))%Z by (apply ceil_pos; nra).
    assert (0 < ceil (ry * IZR (getHeight img)))%Z by (apply ceil_pos; nra).
    split; [split; [intros _; exact Hover | nia]|].
    intros _ Hno. now destruct Hno.
Qed.

Lemma rasterBox_proper : proper rasterBox.
Proof. unfold proper, rasterBox; cbn [minLon minLat maxLon maxLat]. lra. Qed.

Lemma estimate_positive_iff_overlap_witness :
  ((0 < computeSourcePixels (tileToBBox 2 3 3) rasterBox
          (rasterImage 7000 2000))%Z
     <-> overlap (tileToBBox 2 3 3) rasterBox) /\
  (bboxesIntersect (tileToBBox 2 3 3) rasterBox = true ->
   ~ overlap (tileToBBox 2 3 3) rasterBox ->
   computeSourcePixels (tileToBBox 2 3 3) rasterBox (rasterImage 7000 2000)
   = 0%Z).
Proof.
  apply (estimate_positive_iff_overlap (tileToBBox 2 3 3) rasterBox
           (rasterImage 7000 2000)).
  - exact (tileToBBox_proper 2 3 3).
  - exact rasterBox_proper.
  - simpl. lia.
  - simpl. lia.
Defined.

(** The estimate grows with the size of the image. *)
Lemma estimate_grows tb ib small img :
  (0 <= getWidth small)%Z -> (0 <= getHeight small)%Z ->
  noSmaller small img ->
  (computeSourcePixels tb ib small <= computeSourcePixels tb ib img)%Z.
Proof.
  intros HW HH [HWle HHle]. unfold computeSourcePixels.
  destruct (leb _ _ || leb _ _) eqn:Hempty; [lia|].
  destruct (window_extent _ _ Hempty) as [[Hx Hxle] [Hy Hyle]].
  destruct (ratio_bounds _ _ Hx Hxle) as [Hrx _].
  destruct (ratio_bounds _ _ Hy Hyle) as [Hry _].
  apply IZR_le in HW, HH, HWle, HHle.
  set (rx := (_ / (maxLon ib - minLon ib))%R) in *.
  set (ry := (_ / (maxLat ib - minLat ib))%R) in *.
  assert (0 <= ceil (rx * IZR (getWidth small)))%Z by (apply ceil_nonneg; nra).
  assert (0 <= ceil (ry * IZR (getHeight small)))%Z by (apply ceil_nonneg; nra).
  assert (ceil (rx * IZR (getWidth small)) <= ceil (rx * IZR (getWidth img)))%Z
    by (apply Zceil_le; nra).
  assert (ceil (ry * IZR (getHeight small)) <= ceil (ry * IZR (getHeight img)))%Z
    by (apply Zceil_le; nra).
  nia.
Qed.

(** X12. In a file whose last image is its smallest, as in every pyramid
    of overviews, the scan never moves the choice: for every tile the
    selection is the last, coarsest image, also when a finer image would
    fit the budget of [SAFE_SOURCE_PIXELS]. *)
Theorem regular_pyramid_selects_coarsest (tiff : Tiff)
    (tileBounds imgBbox : BBox) (coarsest : Image) (s : State) :
  let imgs := images tiff in
  let n := length imgs in
  imgs !! (n - 1)%nat = Some coarsest ->
  (0 <= getWidth coarsest)%Z -> (0 <= getHeight coarsest)%Z ->
  (forall j img, imgs !! j = Some img -> noSmaller coarsest img) ->
  snd (selectOverview tiff (Z.of_nat n) tileBounds imgBbox s)
  = Value (mkChoice (Z.of_nat (n - 1)) coarsest
             (computeSourcePixels tileBounds imgBbox coarsest)).
Proof.
  intros imgs n Hlast HW HH Hsmall.
  pose proof (selectOverview_run tiff tileBounds imgBbox s coarsest Hlast) as Hrun.
  cbv zeta in Hrun. fold imgs n in Hrun. rewrite Hrun.
  cbn [snd]. f_equal.
  assert (Hn : (0 < n)%nat).
  { apply lookup_lt_Some in Hlast. fold n in Hlast. lia. }
  destruct (scan_spec imgs tileBounds imgBbox n
              (mkChoice (Z.of_nat (n - 1)) coarsest
                 (computeSourcePixels tileBounds imgBbox coarsest))
              (Nat.le_refl _))
    as [(Hc & _) | (i & img & Hi & Himg & Hc & Hfit & Hgap & _)]; [exact Hc|].
  rewrite Hc.
  assert (Hfirst : fitsBudget (computeSourcePixels tileBounds imgBbox coarsest) = true).
  { apply fitsBudget_true. apply fitsBudget_true in Hfit.
    pose proof (estimate_grows tileBounds imgBbox coarsest img HW HH
                  (Hsmall i img Himg)).
    lia. }
  destruct (decide (i = (n - 1)%nat)) as [->|Hne].
  - rewrite Hlast in Himg. now inversion Himg.
  - rewrite (Hgap (n - 1)%nat coarsest ltac:(lia) Hlast) in Hfirst.
    discriminate.
Qed.

Lemma regular_pyramid_selects_coarsest_witness :
  snd (selectOverview pyramidTiff 2 (tileToBBox 2 3 3) rasterBox initialState)
  = Value (mkChoice 1 (rasterImage 70 20)
             (computeSourcePixels (tileToBBox 2 3 3) rasterBox
                (rasterImage 70 20))).
Proof.
  apply (regular_pyramid_selects_coarsest pyramidTiff (tileToBBox 2 3 3)
           rasterBox (rasterImage 70 20) initialState).
  - reflexivity.
  - simpl. lia.
  - simpl. lia.
  - intros [|[|j]] img Himg; simpl in Himg; inversion Himg; subst;
      split; simpl; lia.
Defined.

End EstimateFacts.

(** *** The accounting of the throttle *)

Module AccountingFacts.
Import Throttle ThrottleSpec ThrottleFacts.

Lemma inPhase_lookup p (m : gmap nat Phase) j y :
  filter (fun kv : nat * Phase => kv.2 = p) m !! j = Some y
  <-> m !! j = Some y /\ y = p.
Proof. now rewrite map_lookup_filter_Some. Qed.

Lemma cnt_insert p m j q :
  (cnt p (<[j := q]> m) + (if decide (m !! j = Some p) then 1 else 0)
   = cnt p m + (if decide (q = p) then 1 else 0))%nat.
Proof.
  unfold cnt. rewrite map_filter_insert. cbn [snd].
  destruct (decide (q = p)) as [->|Hq].
  - rewrite map_size_insert.
    destruct (filter _ m !! j) as [y|] eqn:Hy.
    + apply inPhase_lookup in Hy as [Hy ->]. rewrite decide_True by exact Hy.
      reflexivity.
    + rewrite decide_False; [lia|]. intros Hm.
      assert (filter (fun kv : nat * Phase => kv.2 = p) m !! j = Some p)
        by now apply inPhase_lookup.
      congruence.
  - rewrite map_filter_delete, map_size_delete.
    destruct (filter _ m !! j) as [y|] eqn:Hy.
    + pose proof Hy as Hin.
      apply inPhase_lookup in Hy as [Hy ->]. rewrite decide_True by exact Hy.
      assert (size (filter (fun kv : nat * Phase => kv.2 = p) m) <> 0%nat).
      { intros H0. apply map_size_empty_iff in H0.
        rewrite H0, lookup_empty in Hin. discriminate. }
      destruct (size (filter (fun kv : nat * Phase => kv.2 = p) m));
        [done | simpl; lia].
    + rewrite decide_False; [unfold Datatypes.id; lia|]. intros Hm.
      assert (filter (fun kv : nat * Phase => kv.2 = p) m !! j = Some p)
        by now apply inPhase_lookup.
      congruence.
Qed.

(** Moving a call from a phase [old] to a phase [new]. *)
Lemma cnt_move p m j (old new : Phase) :
  default Idle (m !! j) = old -> p <> Idle ->
  (cnt p (<[j := new]> m) + (if decide (old = p) then 1 else 0)
   = cnt p m + (if decide (new = p) then 1 else 0))%nat.
Proof.
  intros Hold Hp. pose proof (cnt_insert p m j new) as H.
  destruct (m !! j) as [y|] eqn:Hy; simpl in Hold; subst old.
  - destruct (decide (Some y = Some p)) as [[= ->]|Hne].
    + now rewrite decide_True by reflexivity.
    + rewrite decide_False by congruence. exact H.
  - rewrite decide_False in H by discriminate.
    rewrite decide_False by congruence. exact H.
Qed.

Lemma Acc_initial : Acc initial.
Proof.
  split.
  - apply Inv_initial.
  - reflexivity.
  - intros j Hj. discriminate.
  - intros H. now destruct H.
Qed.

(** Decides the comparisons of phases left by [cnt_move]. *)
Ltac phase_cases :=
  repeat match goal with
  | H : context [decide (?a = ?b)] |- _ =>
      destruct (decide (a = b)); try congruence
  end.

Ltac moved p m j old new Hj H :=
  pose proof (cnt_move p m j old new Hj ltac:(discriminate)) as H;
  phase_cases.

Lemma waiting_elsewhere (m : gmap nat Phase) j j' p :
  p <> Waiting ->
  default Idle (<[j := p]> m !! j') = Waiting ->
  j' <> j /\ default Idle (m !! j') = Waiting.
Proof.
  intros Hp H. destruct (decide (j' = j)) as [->|Hne].
  - rewrite lookup_insert_eq in H. simpl in H. congruence.
  - rewrite lookup_insert_ne in H by congruence. auto.
Qed.

Lemma Acc_step g t g' : Acc g -> step g t = Some g' -> Acc g'.
Proof.
  intros [Hinv Hrun Hwait Hfull] Hstep.
  pose proof (Inv_step g t g' Hinv Hstep) as Hinv'.
  destruct Hinv as [Hq _ _].
  destruct g as [a q m r]. unfold count, phaseOf in *. simpl in *.
  destruct t as [j|j|j ok]; simpl in Hstep; unfold phaseOf in Hstep;
    simpl in Hstep;
    destruct (default Idle (m !! j)) eqn:Hj; try discriminate;
    injection Hstep as <-.
  - (* Call *)
    unfold call in *. simpl in *.
    destruct (a >=? MAX_CONCURRENT)%Z eqn:Hge.
    + split; [exact Hinv' | | |]; unfold count, phaseOf; simpl.
      * moved Running m j Idle Waiting Hj H. lia.
      * intros j' Hj'. apply elem_of_app.
        destruct (decide (j' = j)) as [->|Hne].
        -- right. now apply list_elem_of_singleton.
        -- left. apply Hwait. now rewrite lookup_insert_ne in Hj' by congruence.
      * intros _. apply Z.geb_le in Hge. lia.
    + split; [exact Hinv' | | |]; unfold count, phaseOf; simpl.
      * moved Running m j Idle Running Hj H. lia.
      * intros j' Hj'. apply waiting_elsewhere in Hj' as [_ Hj']; [|discriminate].
        now apply Hwait.
      * intros Hne. specialize (Hfull Hne).
        moved Woken m j Idle Running Hj H. lia.
  - (* Resume *)
    unfold resume. simpl.
    split; [exact Hinv' | | |]; unfold count, phaseOf; simpl.
    + moved Running m j Woken Running Hj H. lia.
    + intros j' Hj'. apply waiting_elsewhere in Hj' as [_ Hj']; [|discriminate].
      now apply Hwait.
    + intros Hne. specialize (Hfull Hne).
      moved Woken m j Woken Running Hj H. lia.
  - (* Settle *)
    unfold settle in *. simpl in *.
    destruct q as [|next rest].
    + split; [exact Hinv' | | |]; unfold count, phaseOf; simpl.
      * moved Running m j Running (Finished ok) Hj H. lia.
      * intros j' Hj'. apply waiting_elsewhere in Hj' as [_ Hj']; [|discriminate].
        now apply Hwait.
      * intros Hne. now destruct Hne.
    + assert (Hnext : default Idle (m !! next) = Waiting)
        by (apply Hq; left).
      assert (Hnj : next <> j) by congruence.
      assert (Hnext' : default Idle (<[j := Finished ok]> m !! next) = Waiting)
        by now rewrite lookup_insert_ne by congruence.
      split; [exact Hinv' | | |]; unfold count, phaseOf; simpl.
      * moved Running m j Running (Finished ok) Hj H.
        moved Running (<[j := Finished ok]> m) next Waiting Woken Hnext' H'.
        lia.
      * intros j' Hj'.
        apply waiting_elsewhere in Hj' as [Hne1 Hj']; [|discriminate].
        apply waiting_elsewhere in Hj' as [Hne2 Hj']; [|discriminate].
        apply Hwait in Hj'. apply elem_of_cons in Hj' as [->|Hin]; [done|exact Hin].
      * intros _. assert (Hne : next :: rest <> []) by discriminate.
        specialize (Hfull Hne).
        moved Woken m j Running (Finished ok) Hj H.
        moved Woken (<[j := Finished ok]> m) next Waiting Woken Hnext' H'.
        lia.
Qed.

Lemma Acc_run ts : forall g g', Acc g -> run g ts = Some g' -> Acc g'.
Proof.
  induction ts as [|t ts IH]; intros g g' Hacc Hrun; simpl in Hrun.
  - now injection Hrun as <-.
  - destruct (step g t) as [g1|] eqn:Hstep; [|discriminate].
    eapply IH; [|exact Hrun]. eapply Acc_step; eassumption.
Qed.

Lemma Acc_reachable g : reachable g -> Acc g.
Proof. intros [ts Hrun]. eapply Acc_run; [apply Acc_initial | exact Hrun]. Qed.

(** X13. In every state the throttle can reach, [activeRequests] is the
    number of calls that are inside [fn]: past [activeRequests++] and not
    yet through [finally].  In particular it is never negative. *)
Theorem counter_is_running_calls (g : Gate) :
  reachable g ->
  activeRequests g = Z.of_nat (count Running g) /\
  (0 <= activeRequests g)%Z.
Proof.
  intros Hr. apply Acc_reachable in Hr. destruct Hr as [_ Hrun _ _].
  split; [exact Hrun | lia].
Qed.

Lemma counter_is_running_calls_witness :
  activeRequests afterEight = Z.of_nat (count Running afterEight) /\
  (0 <= activeRequests afterEight)%Z.
Proof.
  apply (counter_is_running_calls afterEight).
  exists eightCalls. vm_compute. reflexivity.
Defined.

(** X14. The queue holds exactly the calls that are waiting, each once: no
    resolver is lost and none is queued twice. *)
Theorem queue_is_waiting_calls (g : Gate) :
  reachable g ->
  NoDup (pendingQueue g) /\
  forall j, j ∈ pendingQueue g <-> phaseOf g j = Waiting.
Proof.
  intros Hr. apply Acc_reachable in Hr.
  destruct Hr as [[Hq Hnd _] _ Hwait _].
  split; [exact Hnd|]. intros j. split; [apply Hq | apply Hwait].
Qed.

Lemma queue_is_waiting_calls_witness :
  NoDup (pendingQueue afterEight) /\
  forall j, j ∈ pendingQueue afterEight <-> phaseOf afterEight j = Waiting.
Proof.
  apply (queue_is_waiting_calls afterEight).
  exists eightCalls. vm_compute. reflexivity.
Defined.

(** X15. A call waits only while the gate is full: whenever the queue is
    not empty, the calls inside [fn] and the calls already woken are at
    least [MAX_CONCURRENT], so a free slot is never left unused while a
    call waits. *)
Theorem calls_wait_only_when_full (g : Gate) :
  reachable g ->
  pendingQueue g <> [] ->
  (MAX_CONCURRENT <= Z.of_nat (count Running g) + Z.of_nat (count Woken g))%Z.
Proof.
  intros Hr Hne. apply Acc_reachable in Hr.
  destruct Hr as [_ Hrun _ Hfull]. specialize (Hfull Hne). lia.
Qed.

Lemma calls_wait_only_when_full_witness :
  (MAX_CONCURRENT
   <= Z.of_nat (count Running afterEight) + Z.of_nat (count Woken afterEight))%Z.
Proof.
  apply (calls_wait_only_when_full afterEight).
  - exists eightCalls. vm_compute. reflexivity.
  - vm_compute. discriminate.
Defined.

(** **** The order of the wake-ups *)

Lemma ahead_step g t g' i j :
  Acc g -> step g t = Some g' -> ahead i j g -> ahead i j g'.
Proof.
  intros [[Hq _ _] _ _ _] Hstep Hah.
  destruct g as [a q m r]. unfold ahead, phaseOf in *. simpl in *.
  destruct t as [k|k|k ok]; simpl in Hstep; unfold phaseOf in Hstep;
    simpl in Hstep;
    destruct (default Idle (m !! k)) eqn:Hk; try discriminate;
    injection Hstep as <-.
  - (* Call *)
    unfold call. simpl.
    destruct Hah as [(q1 & q2 & q3 & ->)|[Hw Hi]].
    + left. destruct (a >=? MAX_CONCURRENT)%Z; simpl.
      * exists q1, q2, (q3 ++ [k]).
        rewrite <- !app_assoc. simpl. rewrite <- !app_assoc. reflexivity.
      * now exists q1, q2, q3.
    + right. assert (i <> k) by congruence.
      destruct (a >=? MAX_CONCURRENT)%Z; simpl;
        now rewrite lookup_insert_ne by congruence.
  - (* Resume *)
    unfold resume. simpl.
    destruct Hah as [Hb|[Hw Hi]]; [now left|]. right.
    destruct (decide (i = k)) as [->|Hne].
    + rewrite lookup_insert_eq. simpl. split; discriminate.
    + now rewrite lookup_insert_ne by congruence.
  - (* Settle *)
    unfold settle. simpl.
    destruct Hah as [(q1 & q2 & q3 & Hqq)|[Hw Hi]].
    + subst q. destruct q1 as [|next q1]; simpl.
      * right. rewrite lookup_insert_eq. simpl. split; discriminate.
      * left. now exists q1, q2, q3.
    + right. destruct q as [|next rest]; simpl.
      * destruct (decide (i = k)) as [->|Hne].
        -- rewrite lookup_insert_eq. simpl. split; discriminate.
        -- now rewrite lookup_insert_ne by congruence.
      * assert (Hnext : default Idle (m !! next) = Waiting) by (apply Hq; left).
        assert (i <> next) by congruence.
        rewrite lookup_insert_ne by congruence.
        destruct (decide (i = k)) as [->|Hne].
        -- rewrite lookup_insert_eq. simpl. split; discriminate.
        -- now rewrite lookup_insert_ne by congruence.
Qed.

Lemma ahead_run i j ts : forall g g',
  Acc g -> run g ts = Some g' -> ahead i j g -> ahead i j g'.
Proof.
  induction ts as [|t ts IH]; intros g g' Hacc Hrun Hah; simpl in Hrun.
  - now injection Hrun as <-.
  - destruct (step g t) as [g1|] eqn:Hstep; [|discriminate].
    apply (IH g1); [eapply Acc_step; eassumption | exact Hrun |].
    eapply ahead_step; eassumption.
Qed.

(** X16. The queue is first in, first out: of two waiting calls, the one
    queued later never leaves the queue before the one queued earlier. *)
Theorem wake_order_is_fifo (g g' : Gate) (ts : list Turn) (i j : nat) :
  reachable g ->
  before i j (pendingQueue g) ->
  run g ts = Some g' ->
  phaseOf g' j <> Waiting ->
  phaseOf g' i <> Waiting.
Proof.
  intros Hr Hb Hrun Hj. apply Acc_reachable in Hr.
  pose proof (Acc_run ts g g' Hr Hrun) as [[Hq' _ _] _ _ _].
  destruct (ahead_run i j ts g g' Hr Hrun (or_introl Hb))
    as [(q1 & q2 & q3 & Hqq)|[Hw _]]; [|exact Hw].
  exfalso. apply Hj, Hq'. rewrite Hqq.
  apply elem_of_app. right. right. apply elem_of_app. right. left.
Qed.

Lemma wake_order_is_fifo_witness :
  phaseOf afterWake 7 <> Waiting.
Proof.
  apply (wake_order_is_fifo afterEight afterWake twoSettle 7 8).
  - exists eightCalls. vm_compute. reflexivity.
  - exists [], [], []. vm_compute. reflexivity.
  - vm_compute. reflexivity.
  - vm_compute. discriminate.
Defined.

End AccountingFacts.

(** *** The colours *)

Module ColorFacts.
Import Js Colorizer Pipeline ColorSpec Examples ColorizerFacts PaintFacts.

Lemma hexDigit_range c d : hexDigit c = Some d -> (0 <= d <= 15)%Z.
Proof.
  unfold hexDigit.
  repeat match goal with
  | |- context [if ?b then _ else _] => destruct b eqn:?
  end; intros [= <-]; lia.
Qed.

Lemma hexPair_range c1 c2 v : hexPair c1 c2 = Some v -> byte v.
Proof.
  unfold hexPair, byte.
  destruct (hexDigit c1) as [h|] eqn:Hh; [|discriminate].
  destruct (hexDigit c2) as [l|] eqn:Hl; [|discriminate].
  apply hexDigit_range in Hh, Hl. intros [= <-]. lia.
Qed.

Lemma matchHex_bytes hex rgb : matchHex hex = Some rgb -> bytes rgb.
Proof.
  unfold matchHex.
  set (body := match hex with String "#" rest => rest | _ => hex end).
  destruct body as [|r1 [|r2 [|g1 [|g2 [|b1 [|b2 [|? ?]]]]]]]; try discriminate.
  destruct (hexPair r1 r2) as [r|] eqn:Hr; [|discriminate].
  destruct (hexPair g1 g2) as [g|] eqn:Hg; [|discriminate].
  destruct (hexPair b1 b2) as [b|] eqn:Hb; [|discriminate].
  intros [= <-]. unfold bytes.
  repeat split; eapply hexPair_range; eassumption.
Qed.

Lemma hexToRgb_bytes hex : bytes (hexToRgb hex).
Proof.
  unfold hexToRgb. destruct (matchHex hex) as [rgb|] eqn:Hm.
  - exact (matchHex_bytes _ _ Hm).
  - unfold bytes, byte. lia.
Qed.

(** **** The slope ramp *)

Lemma Qle_bool_false p q : (p < q)%Q -> Qle_bool q p = false.
Proof.
  intros H. destruct (Qle_bool q p) eqn:E; [|reflexivity].
  apply Qle_bool_iff in E. lra.
Qed.

Lemma position_range (q v1 v2 : Q) :
  (v1 <= q)%Q -> (q <= v2)%Q -> (0 <= (q - v1) / (v2 - v1) <= 1)%Q.
Proof.
  intros H1 H2. destruct (Qeq_dec v2 v1) as [E|E].
  - assert (Hz : (v2 - v1 == 0)%Q) by lra.
    unfold Qdiv. assert (Hi : (/ (v2 - v1) == 0)%Q) by now rewrite Hz.
    rewrite Hi. lra.
  - assert (0 < v2 - v1)%Q by lra.
    split; [apply Qle_shift_div_l | apply Qle_shift_div_r]; lra.
Qed.

(** An interpolated channel lies between its two ends. *)
Lemma lerp_byte c1 c2 t :
  byte c1 -> byte c2 -> (0 <= t <= 1)%Q -> byte (lerp c1 c2 t).
Proof.
  unfold byte, lerp. intros H1 H2 Ht.
  rewrite !Zle_Qle in H1, H2.
  set (x := (inject_Z c1 + (inject_Z c2 - inject_Z c1) * t)%Q).
  assert (Hx : (0 <= x <= 255)%Q).
  { unfold x. change (inject_Z 0) with 0%Q in *.
    change (inject_Z 255) with 255%Q in *. nra. }
  destruct (roundQ_nearest x) as [Hlo Hhi].
  split.
  - assert (Hlt : (-1 < roundQ x)%Z).
    { rewrite Zlt_Qlt. change (inject_Z (-1)) with (-1)%Q. lra. }
    lia.
  - assert (Hlt : (roundQ x < 256)%Z).
    { rewrite Zlt_Qlt. change (inject_Z 256) with 256%Q. lra. }
    lia.
Qed.

Lemma slopeScan_bytes value : forall stops rgb,
  slopeScan value stops = Some rgb -> bytes rgb.
Proof.
  induction stops as [|[v1 c1] rest IH]; intros rgb; [discriminate|].
  destruct rest as [|[v2 c2] rest']; [discriminate|].
  cbn [slopeScan].
  destruct (le (Fin v1) value && le value (Fin v2)) eqn:Hin; [|apply IH].
  destruct value as [| |q]; [apply IH | apply IH |].
  apply andb_true_iff in Hin as [Hlo Hhi]. cbn [le] in Hlo, Hhi.
  apply Qle_bool_iff in Hlo, Hhi.
  pose proof (position_range q v1 v2 Hlo Hhi) as Ht.
  pose proof (hexToRgb_bytes c1) as Hb1.
  pose proof (hexToRgb_bytes c2) as Hb2.
  destruct (hexToRgb c1) as [[r1 g1] b1].
  destruct (hexToRgb c2) as [[r2 g2] b2].
  destruct Hb1 as (? & ? & ?). destruct Hb2 as (? & ? & ?).
  intros [= <-]. unfold bytes. repeat split; now apply lerp_byte.
Qed.

Lemma getSlopeColor_bytes value : bytes (getSlopeColor value).
Proof.
  unfold getSlopeColor.
  destruct (slopeScan value SLOPE_COLORMAP) as [rgb|] eqn:Hs.
  - exact (slopeScan_bytes _ _ _ Hs).
  - cbn [SLOPE_COLORMAP]. destruct (lt value (Fin 0)); apply hexToRgb_bytes.
Qed.

(** X17. For every number, also the infinities and NaN, [getSlopeColor]
    returns three channels between 0 and 255: the interpolation never
    leaves the range of the two stops it lies between. *)
Theorem getSlopeColor_is_byte (value : number) :
  let '(r, g, b) := getSlopeColor value in
  (0 <= r <= 255)%Z /\ (0 <= g <= 255)%Z /\ (0 <= b <= 255)%Z.
Proof.
  pose proof (getSlopeColor_bytes value) as H.
  destruct (getSlopeColor value) as [[r g] b]. exact H.
Qed.

Lemma outside_bracket v1 v2 q :
  (q < v1)%Q \/ (v2 < q)%Q -> le (Fin v1) (Fin q) && le (Fin q) (Fin v2) = false.
Proof.
  intros [H|H]; cbn [le]; rewrite (Qle_bool_false _ _ H);
    [reflexivity | apply andb_false_r].
Qed.

(** X18. Outside the ramp the colour saturates: every slope above 40 gets
    the colour of the last stop, every slope below 0 the colour of the
    first. *)
Theorem getSlopeColor_saturates (q : Q) :
  (q < 0 \/ 40 < q)%Q ->
  getSlopeColor (Fin q) = (if Qle_bool 40 q then (0, 68, 27) else (247, 252, 245))%Z.
Proof.
  intros Hq. unfold getSlopeColor.
  assert (Hscan : slopeScan (Fin q) SLOPE_COLORMAP = None).
  { unfold SLOPE_COLORMAP. cbn [slopeScan].
    repeat (rewrite outside_bracket by (destruct Hq; [left | right]; lra)).
    reflexivity. }
  rewrite Hscan. cbn [SLOPE_COLORMAP lt List.last snd]. unfold Qltb.
  destruct Hq as [Hq|Hq].
  - rewrite (Qle_bool_false q 0 Hq), (Qle_bool_false q 40) by lra.
    vm_compute. reflexivity.
  - assert (H0 : Qle_bool 0 q = true) by (apply Qle_bool_iff; lra).
    assert (H40 : Qle_bool 40 q = true) by (apply Qle_bool_iff; lra).
    rewrite H0, H40. vm_compute. reflexivity.
Qed.

Lemma getSlopeColor_saturates_witness :
  getSlopeColor (Fin 55) = (0, 68, 27)%Z.
Proof.
  apply (getSlopeColor_saturates 55). right. reflexivity.
Defined.

(** X19. The four bytes written for a pixel: the colour channels are
    between 0 and 255, so the clamped array stores them unchanged, and
    the alpha byte is 0 for a no-data sample and 255 for every other. *)
Theorem pixel_is_clear_or_opaque (exponentNotation : Z -> string)
    (layerName : CogLayerName)
    (fuelLegend : option (gmap string ColorMapEntry)) (value : sample) :
  let '(r, g, b, a) := pixelBytes exponentNotation layerName fuelLegend value in
  clamp8 r = r /\ clamp8 g = g /\ clamp8 b = b /\ clamp8 a = a /\
  a = (if noData value then 0 else 255)%Z.
Proof.
  unfold pixelBytes. destruct (noData value).
  - repeat split.
  - assert (Hb : bytes match layerName with
                       | fuel => getFuelColor exponentNotation fuelLegend (toNumber value)
                       | slope => getSlopeColor (toNumber value)
                       end).
    { destruct layerName; [|apply getSlopeColor_bytes].
      unfold getFuelColor.
      destruct (fuelLegend ≫= _) as [entry|]; [apply hexToRgb_bytes|].
      unfold bytes, byte. lia. }
    destruct (match layerName with fuel => _ | slope => _ end) as [[r g] b].
    destruct Hb as (Hr & Hg & Hbl).
    repeat split; apply clamp8_byte; assumption.
Qed.

(** **** The pixel loop on a fresh image *)

(** The loop from index [i] over a band leaves the bytes from
    [(i + length band) * 4] on alone. *)
Lemma paint_above env layerName fuelLegend band : forall i data j,
  ((i + length band) * 4 <= j)%nat ->
  paint env layerName fuelLegend band i data !! j = data !! j.
Proof.
  induction band as [|value rest IH]; intros i data j Hj; simpl; [reflexivity|].
  destruct (pixelBytes _ _ _ value) as [[[r g] b] a].
  simpl in Hj. rewrite IH by lia. rewrite !store_other by lia. reflexivity.
Qed.

(** X20. The image data keeps the size of the tile whatever the length of
    the band: samples beyond the tile are dropped, and when the band is
    shorter than the tile the pixels it does not reach stay transparent
    black. *)
Theorem short_band_leaves_rest_transparent (env : Env)
    (layerName : CogLayerName)
    (fuelLegend : option (gmap string ColorMapEntry))
    (band : list sample) (tileSize k : nat) :
  (length band * 4 <= k < tileSize * tileSize * 4)%nat ->
  let data := paint env layerName fuelLegend band 0
                (replicate (tileSize * tileSize * 4) 0%Z) in
  length data = (tileSize * tileSize * 4)%nat /\
  data !! k = Some 0%Z.
Proof.
  intros [Hlo Hhi] data. unfold data. split.
  - now rewrite paint_length, length_replicate.
  - rewrite paint_above by (simpl; lia).
    now apply lookup_replicate_2.
Qed.

Lemma short_band_leaves_rest_transparent_witness :
  let data := paint (serving coarseTiff None) slope None [SNum (Fin 10)] 0
                (replicate (2 * 2 * 4) 0%Z) in
  length data = (2 * 2 * 4)%nat /\ data !! 4%nat = Some 0%Z.
Proof.
  apply (short_band_leaves_rest_transparent (serving coarseTiff None) slope
           None [SNum (Fin 10)] 2 4).
  simpl. lia.
Defined.

End ColorFacts.

(** *** The tiling *)

Module TilingFacts.
Import Num Geometry TilingSpec Examples NumFacts GeometryFacts.

(** X21. [bboxesIntersect] is symmetric, for all boxes. *)
Theorem bboxesIntersect_symmetric (a b : BBox) :
  bboxesIntersect a b = bboxesIntersect b a.
Proof.
  unfold bboxesIntersect, gtb.
  destruct (ltb (maxLon a) (minLon b)), (ltb (maxLon b) (minLon a)),
           (ltb (maxLat a) (minLat b)), (ltb (maxLat b) (minLat a));
    reflexivity.
Qed.

(** X22. On boxes with [min <= max] on both axes, [bboxesIntersect] is
    exactly the test for a common point, the borders included. *)
Theorem bboxesIntersect_common_point (a b : BBox) :
  wellFormed a -> wellFormed b ->
  (bboxesIntersect a b = true <->
   exists lon lat, contains a lon lat /\ contains b lon lat).
Proof.
  intros [Hax Hay] [Hbx Hby]. rewrite bboxesIntersect_true. unfold contains.
  split.
  - intros (H1 & H2 & H3 & H4).
    exists (Rmax (minLon a) (minLon b)), (Rmax (minLat a) (minLat b)).
    pose proof (Rmax_l (minLon a) (minLon b)).
    pose proof (Rmax_r (minLon a) (minLon b)).
    pose proof (Rmax_l (minLat a) (minLat b)).
    pose proof (Rmax_r (minLat a) (minLat b)).
    assert (Rmax (minLon a) (minLon b) <= maxLon a)%R by (apply Rmax_lub; lra).
    assert (Rmax (minLon a) (minLon b) <= maxLon b)%R by (apply Rmax_lub; lra).
    assert (Rmax (minLat a) (minLat b) <= maxLat a)%R by (apply Rmax_lub; lra).
    assert (Rmax (minLat a) (minLat b) <= maxLat b)%R by (apply Rmax_lub; lra).
    repeat split; assumption.
  - intros (lon & lat & [[? ?] [? ?]] & [[? ?] [? ?]]). lra.
Qed.

Lemma bboxesIntersect_common_point_witness :
  bboxesIntersect (tileToBBox 2 3 3) rasterBox = true <->
  exists lon lat,
    contains (tileToBBox 2 3 3) lon lat /\ contains rasterBox lon lat.
Proof.
  apply (bboxesIntersect_common_point (tileToBBox 2 3 3) rasterBox).
  - destruct (tileToBBox_proper 2 3 3). split; lra.
  - unfold wellFormed, rasterBox; cbn [minLon minLat maxLon maxLat]. lra.
Defined.

(** X23. Neighbouring tiles share their border: the east edge of a tile is
    the west edge of the next column, its south edge the north edge of
    the next row; so a tile and its neighbour pass [bboxesIntersect]. *)
Theorem neighbours_share_an_edge (x y z : Z) :
  maxLon (tileToBBox x y z) = minLon (tileToBBox (x + 1) y z) /\
  minLat (tileToBBox x y z) = maxLat (tileToBBox x (y + 1) z) /\
  bboxesIntersect (tileToBBox x y z) (tileToBBox (x + 1) y z) = true /\
  bboxesIntersect (tileToBBox x y z) (tileToBBox x (y + 1) z) = true.
Proof.
  assert (He : maxLon (tileToBBox x y z) = minLon (tileToBBox (x + 1) y z)).
  { unfold tileToBBox; cbn [minLon maxLon]. now rewrite plus_IZR. }
  assert (Hs : minLat (tileToBBox x y z) = maxLat (tileToBBox x (y + 1) z)).
  { unfold tileToBBox; cbn [minLat maxLat]. now rewrite plus_IZR. }
  destruct (tileToBBox_proper x y z) as [Hx Hy].
  destruct (tileToBBox_proper (x + 1) y z) as [Hx1 Hy1].
  destruct (tileToBBox_proper x (y + 1) z) as [Hx2 Hy2].
  assert (Hrow : minLat (tileToBBox (x + 1) y z) = minLat (tileToBBox x y z)
                 /\ maxLat (tileToBBox (x + 1) y z) = maxLat (tileToBBox x y z))
    by (split; reflexivity).
  assert (Hcol : minLon (tileToBBox x (y + 1) z) = minLon (tileToBBox x y z)
                 /\ maxLon (tileToBBox x (y + 1) z) = maxLon (tileToBBox x y z))
    by (split; reflexivity).
  destruct Hrow as [Hr1 Hr2]. destruct Hcol as [Hc1 Hc2].
  repeat split; try assumption; apply bboxesIntersect_true; lra.
Qed.

Lemma powerRZ_succ (z : Z) : powerRZ 2 (z + 1) = (2 * powerRZ 2 z)%R.
Proof.
  rewrite powerRZ_add by lra. simpl. lra.
Qed.

(** X24. The tiles of the next zoom level fill their parent: at [z + 1]
    the box of [(2x, 2y)] has the parent's west and north edges, the box
    of [(2x + 1, 2y + 1)] its east and south edges. *)
Theorem children_fill_the_parent (x y z : Z) :
  let parent := tileToBBox x y z in
  minLon (tileToBBox (2 * x) (2 * y) (z + 1)) = minLon parent /\
  maxLat (tileToBBox (2 * x) (2 * y) (z + 1)) = maxLat parent /\
  maxLon (tileToBBox (2 * x + 1) (2 * y + 1) (z + 1)) = maxLon parent /\
  minLat (tileToBBox (2 * x + 1) (2 * y + 1) (z + 1)) = minLat parent.
Proof.
  assert (Hn : (0 < powerRZ 2 z)%R) by (apply powerRZ_lt; lra).
  unfold tileToBBox; cbn [minLon minLat maxLon maxLat].
  rewrite powerRZ_succ, !plus_IZR, !mult_IZR. unfold tileLat.
  repeat split.
  - f_equal. f_equal. field. lra.
  - f_equal. f_equal. f_equal. f_equal. f_equal. field. lra.
  - f_equal. f_equal. field. lra.
  - f_equal. f_equal. f_equal. f_equal. f_equal. field. lra.
Qed.

Lemma tileLat_bound k n : (-90 < tileLat k n < 90)%R.
Proof.
  unfold tileLat. pose proof PI_RGT_0 as Hpi.
  destruct (atan_bound (sinh (PI * (1 - 2 * k / n)))) as [Hlo Hhi].
  set (a := atan _) in *.
  assert (Hq : (a * 180 / PI = a / PI * 180)%R) by (field; lra).
  rewrite Hq.
  assert (-(1 / 2) < a / PI < 1 / 2)%R.
  { split.
    - apply Rmult_lt_reg_r with PI; [exact Hpi|].
      replace (a / PI * PI)%R with a by (field; lra). lra.
    - apply Rmult_lt_reg_r with PI; [exact Hpi|].
      replace (a / PI * PI)%R with a by (field; lra). lra. }
  lra.
Qed.

(** The first and the last row edge of a grid are those of the world
    tile, whatever the number of rows. *)
Lemma tileLat_top n : tileLat 0 n = tileLat 0 1.
Proof.
  unfold tileLat. f_equal. f_equal. f_equal. f_equal. f_equal.
  unfold Rdiv. ring.
Qed.

Lemma tileLat_bottom n : (0 < n)%R -> tileLat n n = tileLat 1 1.
Proof.
  intros Hn. unfold tileLat. f_equal. f_equal. f_equal. f_equal. f_equal.
  field. lra.
Qed.

Lemma tileLat_antitone k k' n :
  (0 < n)%R -> (k <= k')%R -> (tileLat k' n <= tileLat k n)%R.
Proof.
  intros Hn [Hlt | ->]; [|lra]. left. now apply tileLat_decreasing.
Qed.

(** X25. A tile of the grid lies inside the world tile 0/0/0, whose
    longitudes are -180 and 180 and whose latitudes are strictly between
    -90 and 90: for [0 <= x < 2^z] and [0 <= y < 2^z] the four edges of
    the tile are within the edges of the world tile. *)
Theorem tile_lies_in_the_world (x y z : Z) :
  (0 <= z)%Z -> (0 <= x < 2 ^ z)%Z -> (0 <= y < 2 ^ z)%Z ->
  let world := tileToBBox 0 0 0 in
  let tile := tileToBBox x y z in
  minLon world = (-180)%R /\ maxLon world = 180%R /\
  (-90 < minLat world)%R /\ (maxLat world < 90)%R /\
  (minLon world <= minLon tile)%R /\ (maxLon tile <= maxLon world)%R /\
  (minLat world <= minLat tile)%R /\ (maxLat tile <= maxLat world)%R.
Proof.
  intros Hz [Hx0 Hx1] [Hy0 Hy1] world tile.
  assert (Hw1 : minLon world = (-180)%R).
  { unfold world, tileToBBox; cbn [minLon powerRZ]. field. }
  assert (Hw2 : maxLon world = 180%R).
  { unfold world, tileToBBox; cbn [maxLon powerRZ]. field. }
  assert (Hw3 : minLat world = tileLat 1 1).
  { unfold world, tileToBBox; cbn [minLat powerRZ]. f_equal. lra. }
  assert (Hw4 : maxLat world = tileLat 0 1) by reflexivity.
  rewrite Hw1, Hw2, Hw3, Hw4.
  unfold tile, tileToBBox; cbn [minLon minLat maxLon maxLat].
  rewrite (powerRZ_two z Hz).
  assert (Hn : (0 < IZR (2 ^ z))%R) by (apply IZR_lt; lia).
  assert (HX0 : (0 <= IZR x)%R) by now apply IZR_le.
  assert (HX1 : (IZR x + 1 <= IZR (2 ^ z))%R).
  { rewrite <- plus_IZR. apply IZR_le. lia. }
  assert (HY0 : (0 <= IZR y)%R) by now apply IZR_le.
  assert (HY1 : (IZR y + 1 <= IZR (2 ^ z))%R).
  { rewrite <- plus_IZR. apply IZR_le. lia. }
  set (n := IZR (2 ^ z)) in *.
  assert (Hlo : (0 <= IZR x / n)%R).
  { apply Rmult_le_reg_r with n; [exact Hn|].
    replace (IZR x / n * n)%R with (IZR x) by (field; lra). lra. }
  assert (Hhi : ((IZR x + 1) / n <= 1)%R).
  { apply Rmult_le_reg_r with n; [exact Hn|].
    replace ((IZR x + 1) / n * n)%R with (IZR x + 1)%R by (field; lra). lra. }
  split; [reflexivity|]. split; [reflexivity|].
  split; [apply tileLat_bound|]. split; [apply tileLat_bound|].
  split; [lra|]. split; [lra|]. split.
  - rewrite <- (tileLat_bottom n Hn). now apply tileLat_antitone.
  - rewrite <- (tileLat_top n). now apply tileLat_antitone.
Qed.

Lemma tile_lies_in_the_world_witness :
  let world := tileToBBox 0 0 0 in
  let tile := tileToBBox 2 3 3 in
  minLon world = (-180)%R /\ maxLon world = 180%R /\
  (-90 < minLat world)%R /\ (maxLat world < 90)%R /\
  (minLon world <= minLon tile)%R /\ (maxLon tile <= maxLon world)%R /\
  (minLat world <= minLat tile)%R /\ (maxLat tile <= maxLat world)%R.
Proof.
  apply (tile_lies_in_the_world 2 3 3); simpl; lia.
Defined.

End TilingFacts.

(** *** The dashboard components *)

Module DashboardFacts.
Import Js Leaderboard FireCard ColorizerFacts.

Lemma max2_left a b : (a <= max2 a b)%Q.
Proof.
  unfold max2. destruct (Qle_bool a b) eqn:E; [|lra].
  now apply Qle_bool_iff.
Qed.

Lemma max2_right a b : (b <= max2 a b)%Q.
Proof.
  unfold max2. destruct (Qle_bool a b) eqn:E; [lra|].
  destruct (Qlt_le_dec b a) as [H|H]; [lra|].
  apply Qle_bool_iff in H. congruence.
Qed.

Lemma max2_least a b c : (a <= c)%Q -> (b <= c)%Q -> (max2 a b <= c)%Q.
Proof. unfold max2. now destruct (Qle_bool a b). Qed.

Lemma max_at_least_one data : (1 <= max data)%Q.
Proof.
  unfold max. induction data as [|item data IH]; simpl; [lra|].
  pose proof (max2_right (count item) (fold_right max2 1%Q (map count data))).
  lra.
Qed.

Lemma max_is_upper_bound data item :
  item ∈ data -> (count item <= max data)%Q.
Proof.
  unfold max. induction 1 as [item data|item other data _ IH]; simpl.
  - apply max2_left.
  - pose proof (max2_right (count other) (fold_right max2 1%Q (map count data))).
    lra.
Qed.

Lemma max_is_least data c :
  (1 <= c)%Q -> (forall other, other ∈ data -> (count other <= c)%Q) ->
  (max data <= c)%Q.
Proof.
  intros Hc. unfold max. induction data as [|item data IH]; intros Hall; simpl.
  - exact Hc.
  - apply max2_least.
    + apply Hall. left.
    + apply IH. intros other Hin. apply Hall. now right.
Qed.

(** [Math.round] keeps a number between two integers between them. *)
Lemma roundQ_between (lo hi : Z) (x : Q) :
  (inject_Z lo <= x <= inject_Z hi)%Q -> (lo <= roundQ x <= hi)%Z.
Proof.
  intros [Hlo Hhi]. destruct (roundQ_nearest x) as [Hr1 Hr2]. split.
  - assert (H : (lo < roundQ x + 1)%Z).
    { rewrite Zlt_Qlt, inject_Z_plus. change (inject_Z 1) with 1%Q. lra. }
    lia.
  - assert (H : (roundQ x < hi + 1)%Z).
    { rewrite Zlt_Qlt, inject_Z_plus. change (inject_Z 1) with 1%Q. lra. }
    lia.
Qed.

Lemma share_range (c m : Q) :
  (0 <= c)%Q -> (c <= m)%Q -> (1 <= m)%Q -> (0 <= c / m * 100 <= 100)%Q.
Proof.
  intros H0 Hc Hm.
  assert (Hq : (0 <= c / m <= 1)%Q).
  { split; [apply Qle_shift_div_l | apply Qle_shift_div_r]; lra. }
  lra.
Qed.

(** X26. The width of a bar of the leaderboard is a percentage: for every
    entry with a non-negative count it is between 0 and 100, and the
    divisor [max] is at least 1, so the division is never by zero. *)
Theorem bar_width_is_a_percentage (data : list LeaderboardEntry)
    (item : LeaderboardEntry) :
  item ∈ data -> (0 <= count item)%Q ->
  (1 <= max data)%Q /\ (0 <= pct data item <= 100)%Z.
Proof.
  intros Hin H0. pose proof (max_at_least_one data) as Hm.
  split; [exact Hm|]. unfold pct. apply roundQ_between.
  change (inject_Z 0) with 0%Q. change (inject_Z 100) with 100%Q.
  apply share_range; [exact H0 | now apply max_is_upper_bound | exact Hm].
Qed.

Lemma bar_width_is_a_percentage_witness :
  let data := [mkLeaderboardEntry "California" 120;
               mkLeaderboardEntry "Texas" 45] in
  (1 <= max data)%Q /\
  (0 <= pct data (mkLeaderboardEntry "Texas" 45) <= 100)%Z.
Proof.
  apply (bar_width_is_a_percentage
           [mkLeaderboardEntry "California" 120; mkLeaderboardEntry "Texas" 45]
           (mkLeaderboardEntry "Texas" 45)).
  - right. left.
  - simpl. lra.
Defined.

(** X27. An entry whose count is the largest, and at least 1, fills its
    bar: its width is 100. *)
Theorem leader_fills_the_bar (data : list LeaderboardEntry)
    (item : LeaderboardEntry) :
  item ∈ data -> (1 <= count item)%Q ->
  (forall other, other ∈ data -> (count other <= count item)%Q) ->
  pct data item = 100%Z.
Proof.
  intros Hin H1 Hall.
  pose proof (max_is_upper_bound data item Hin) as Hup.
  pose proof (max_is_least data (count item) H1 Hall) as Hle.
  assert (Hm : (max data == count item)%Q) by lra.
  assert (Hx : (count item / max data * 100 == 100)%Q).
  { rewrite Hm. field. lra. }
  unfold pct.
  pose proof (roundQ_between 100 100 (count item / max data * 100)) as Hr.
  change (inject_Z 100) with 100%Q in Hr.
  assert (100 <= roundQ (count item / max data * 100) <= 100)%Z
    by (apply Hr; lra).
  lia.
Qed.

Lemma leader_fills_the_bar_witness :
  pct [mkLeaderboardEntry "California" 120; mkLeaderboardEntry "Texas" 45]
      (mkLeaderboardEntry "California" 120) = 100%Z.
Proof.
  apply (leader_fills_the_bar
           [mkLeaderboardEntry "California" 120; mkLeaderboardEntry "Texas" 45]
           (mkLeaderboardEntry "California" 120)).
  - left.
  - simpl. lra.
  - intros other Hin.
    apply elem_of_cons in Hin as [->|Hin]; [simpl; lra|].
    apply list_elem_of_singleton in Hin as ->. simpl. lra.
Defined.

Lemma Qltb_false p q : Qltb p q = false <-> (q <= p)%Q.
Proof.
  unfold Qltb. rewrite negb_false_iff. apply Qle_bool_iff.
Qed.

(** X28. The intensity bar of a fire card: for every FRP other than NaN
    the width is at most 100, and the bar is full exactly when it is red.
    A text FRP counts as 0. *)
Theorem intensity_bar (frp : Frp) :
  frpValue frp <> NaN ->
  le (barWidth frp) (Fin 100) = true /\
  (barColor frp = "#f44336"%string <-> le (Fin 100) (barWidth frp) = true).
Proof.
  unfold barWidth, barColor, getFRPColor, min2.
  destruct (frpValue frp) as [|[]|q]; intros Hnan.
  - now destruct Hnan.
  - cbn. split; [reflexivity|]. split; [discriminate|discriminate].
  - cbn. split; [reflexivity|]. split; reflexivity.
  - cbn [lt le].
    destruct (Qltb q 100) eqn:H100.
    + apply Qltb_true in H100.
      assert (Hfull : Qle_bool 100 q = false) by (apply ColorFacts.Qle_bool_false; exact H100).
      cbn [le]. rewrite Hfull. split.
      * apply Qle_bool_iff. lra.
      * destruct (Qltb q 20), (Qltb q 50); split; discriminate.
    + apply Qltb_false in H100.
      assert (H20 : Qltb q 20 = false) by (apply Qltb_false; lra).
      assert (H50 : Qltb q 50 = false) by (apply Qltb_false; lra).
      rewrite H20, H50. cbn [le]. split; [reflexivity|]. split; reflexivity.
Qed.

Lemma intensity_bar_witness :
  le (barWidth (FrpNumber (Fin 120))) (Fin 100) = true /\
  (barColor (FrpNumber (Fin 120)) = "#f44336"%string
   <-> le (Fin 100) (barWidth (FrpNumber (Fin 120))) = true).
Proof.
  apply (intensity_bar (FrpNumber (Fin 120))). discriminate.
Defined.

End DashboardFacts.

(** *** The COG file route *)

Module CogRouteFacts.
Import CogRoute.

Lemma list_ascii_of_string_append s t :
  list_ascii_of_string (String.append s t)
  = list_ascii_of_string s ++ list_ascii_of_string t.
Proof. induction s as [|c s IH]; simpl; [reflexivity | now rewrite IH]. Qed.

Lemma string_of_list_ascii_append l1 l2 :
  string_of_list_ascii (l1 ++ l2)
  = String.append (string_of_list_ascii l1) (string_of_list_ascii l2).
Proof. induction l1 as [|c l1 IH]; simpl; [reflexivity | now rewrite IH]. Qed.

Lemma toLowerCase_append s t :
  toLowerCase (String.append s t)
  = String.append (toLowerCase s) (toLowerCase t).
Proof.
  unfold toLowerCase.
  now rewrite list_ascii_of_string_append, map_app, string_of_list_ascii_append.
Qed.

Lemma isPrefix_app p l : isPrefix p (p ++ l) = true.
Proof.
  induction p as [|c p IH]; simpl; [reflexivity|].
  now rewrite Ascii.eqb_refl, IH.
Qed.

Lemma endsWith_append s suffix : endsWith (String.append s suffix) suffix = true.
Proof.
  unfold endsWith. rewrite list_ascii_of_string_append, rev_app_distr.
  apply isPrefix_app.
Qed.

Lemma isTiffName_suffixed rawName :
  isTiffName (String.append rawName ".tif") = true.
Proof.
  unfold isTiffName. rewrite toLowerCase_append.
  change (toLowerCase ".tif") with ".tif"%string.
  now rewrite endsWith_append.
Qed.

Lemma isTiffName_fileName rawName : isTiffName (fileName rawName) = true.
Proof.
  unfold fileName. destruct (isTiffName rawName) eqn:E; [exact E|].
  apply isTiffName_suffixed.
Qed.

Lemma validName_fileName rawName :
  validName rawName = true -> validName (fileName rawName) = true.
Proof.
  unfold fileName. destruct (isTiffName rawName); [auto|].
  unfold validName. rewrite list_ascii_of_string_append.
  destruct (list_ascii_of_string rawName) as [|c l] eqn:E; [discriminate|].
  intros H. cbn [app forallb] in H |- *.
  apply andb_true_iff in H as [Hc Hl].
  rewrite Hc, forallb_app, Hl. reflexivity.
Qed.

(** X29. For a name the route accepts, the completed file name is again
    acceptable, ends in [.tif] or [.tiff] whatever the case of the
    letters, and is stable: completing it again changes nothing, so
    [slope] and [slope.tif] name the same file. *)
Theorem fileName_is_idempotent (rawName : string) :
  validName rawName = true ->
  validName (fileName rawName) = true /\
  isTiffName (fileName rawName) = true /\
  fileName (fileName rawName) = fileName rawName.
Proof.
  intros Hv. split; [now apply validName_fileName|].
  split; [apply isTiffName_fileName|].
  unfold fileName at 1. now rewrite isTiffName_fileName.
Qed.

Lemma fileName_is_idempotent_witness :
  validName (fileName "slope") = true /\
  isTiffName (fileName "slope") = true /\
  fileName (fileName "slope") = fileName "slope".
Proof.
  apply (fileName_is_idempotent "slope"). vm_compute. reflexivity.
Defined.

(** X30. The route only ever sends a file that exists, whose path starts
    with [COG_DIR] and was resolved from a name made of the characters
    [[a-zA-Z0-9._-]] that ends in [.tif] or [.tiff]; in particular the
    name is neither [.] nor [..] and contains no separator. *)
Theorem only_tiff_files_are_sent (COG_DIR : string)
    (resolve : string -> string -> string) (existsSync : string -> bool)
    (rawName filePath : string) :
  handler COG_DIR resolve existsSync rawName = SendFile filePath ->
  let name := fileName rawName in
  filePath = resolve COG_DIR name /\
  validName name = true /\
  isTiffName name = true /\
  name <> "."%string /\ name <> ".."%string /\
  startsWith filePath COG_DIR = true /\
  existsSync filePath = true.
Proof.
  intros H name. unfold handler in H.
  destruct (validName rawName) eqn:Hv; [|discriminate]. cbn [negb] in H.
  destruct (startsWith _ COG_DIR) eqn:Hs; [|discriminate]. cbn [negb] in H.
  destruct (existsSync _) eqn:He; [|discriminate]. cbn [negb] in H.
  injection H as <-.
  pose proof (isTiffName_fileName rawName) as Ht. fold name in Ht, Hs, He |- *.
  repeat split; try assumption.
  - now apply validName_fileName.
  - intros E. rewrite E in Ht. discriminate.
  - intros E. rewrite E in Ht. discriminate.
Qed.

Lemma only_tiff_files_are_sent_witness :
  let resolve := fun dir name => String.append dir (String.append "/" name) in
  let name := fileName "slope" in
  "/data/cog/slope.tif"%string = resolve "/data/cog"%string name /\
  validName name = true /\
  isTiffName name = true /\
  name <> "."%string /\ name <> ".."%string /\
  startsWith "/data/cog/slope.tif" "/data/cog" = true /\
  (fun _ : string => true) "/data/cog/slope.tif"%string = true.
Proof.
  apply (only_tiff_files_are_sent "/data/cog"
           (fun dir name => String.append dir (String.append "/" name))
           (fun _ => true) "slope" "/data/cog/slope.tif").
  vm_compute. reflexivity.
Defined.

End CogRouteFacts.
